(** * Power Platform Solution Insights: ingestion, reconciliation and diff

    A shallow embedding of the algorithmic core of the repository:
    - [services/zipService.ts]   ([parseSolutionZip]),
    - [App.tsx]                  ([solutionDiff]),
    - [components/SchemaVisualizer.tsx] ([allRelationships], [layout]),
    - [services/geminiService.ts] ([executeWithRetry], [sendMessage]),
    - [App.tsx]                  ([handleSendMessage], [getActiveFile]),
    - [components/Explorer.tsx]  ([grouped], [filteredGroups]),
    together with the data model of [types.ts].

    Conventions.  A JavaScript string is a [string]; each [ascii] stands
    for one UTF-16 code unit (code units below 256).  [undefined]/[null]
    is [None].  A JavaScript [Map] is an association list in insertion
    order, a [Set] a duplicate-free list in insertion order.  A thrown
    exception is the [Throw] branch of [Result]. *)

From Stdlib Require Import List String Ascii Bool Arith ZArith Lia.
From Stdlib Require Import DecimalString.
From Stdlib Require Import Sorted Permutation.
Import ListNotations.
Local Open Scope string_scope.
Local Open Scope list_scope.

(* ===================================================================== *)
(** ** JavaScript run-time helpers *)
(* ===================================================================== *)

Module JS.

(** Exceptions raised by the embedded code. *)
Inductive Exception : Type :=
| TypeError (msg : string)
| SyntaxError (msg : string).

Inductive Result (A : Type) : Type :=
| Ok (a : A)
| Throw (e : Exception).
Arguments Ok {A} a.
Arguments Throw {A} e.

Definition bind {A B} (r : Result A) (k : A -> Result B) : Result B :=
  match r with
  | Ok a => k a
  | Throw e => Throw e
  end.

(** [''] is the only falsy string. *)
Definition truthy (s : string) : bool := negb (s =? "").

(** [s || d] on strings. *)
Definition orElse (s d : string) : string := if truthy s then s else d.

(** [x || d] where [x] is [string | null | undefined]. *)
Definition optOr (o : option string) (d : string) : string :=
  match o with
  | Some s => orElse s d
  | None => d
  end.

(** [x || undefined] where [x] is [string | null]. *)
Definition optOrUndefined (o : option string) : option string :=
  match o with
  | Some s => if truthy s then Some s else None
  | None => None
  end.

(** [s.startsWith(p)] *)
Definition startsWith (s p : string) : bool := prefix p s.

(** [s.includes(sub)] *)
Fixpoint includes (s sub : string) : bool :=
  prefix sub s ||
  match s with
  | EmptyString => false
  | String _ r => includes r sub
  end.

(** [s.endsWith(suf)] *)
Definition endsWith (s suf : string) : bool :=
  let n := String.length s in
  let m := String.length suf in
  (m <=? n)%nat && (substring (n - m) m s =? suf).

(** [s.substring(n)] *)
Fixpoint substringFrom (n : nat) (s : string) : string :=
  match n, s with
  | O, _ => s
  | S _, EmptyString => EmptyString
  | S k, String _ r => substringFrom k r
  end.

(** [s.split(sep).pop()] for a one-character separator: the part after
    the last separator, the whole string when there is none. *)
Fixpoint splitPop (sep : ascii) (s : string) : string :=
  match s with
  | EmptyString => EmptyString
  | String c r =>
      if existsb (Ascii.eqb sep) (list_ascii_of_string r) then splitPop sep r
      else if Ascii.eqb c sep then r
      else s
  end.

(** [c.toLowerCase()] on one code unit below 256: A-Z, and the
    Latin-1 capitals 192-222 except the multiplication sign 215. *)
Definition lowerChar (c : ascii) : ascii :=
  let n := nat_of_ascii c in
  if (((65 <=? n) && (n <=? 90)) ||
      ((192 <=? n) && (n <=? 222) && negb (n =? 215)))%nat
  then ascii_of_nat (n + 32) else c.

Fixpoint toLowerCase (s : string) : string :=
  match s with
  | EmptyString => EmptyString
  | String c r => String (lowerChar c) (toLowerCase r)
  end.

(** [arr.includes(x)] on an array of strings. *)
Definition arrIncludes (arr : list string) (x : string) : bool :=
  existsb (String.eqb x) arr.

(** [arr.findIndex(p)]; [None] is the JavaScript [-1]. *)
Fixpoint findIndex {A} (p : A -> bool) (arr : list A) : option nat :=
  match arr with
  | [] => None
  | x :: r => if p x then Some 0
              else match findIndex p r with
                   | Some i => Some (S i)
                   | None => None
                   end
  end.

(** [arr.filter((v, i, a) => p(v, i))] *)
Fixpoint filterIdx {A} (p : A -> nat -> bool) (i : nat) (arr : list A)
  : list A :=
  match arr with
  | [] => []
  | x :: r => if p x i then x :: filterIdx p (S i) r
              else filterIdx p (S i) r
  end.

(** *** [Set<string>] in insertion order *)

Definition Set_has (s : list string) (x : string) : bool :=
  existsb (String.eqb x) s.

Definition Set_add (s : list string) (x : string) : list string :=
  if Set_has s x then s else s ++ [x].

(** [Array.from(new Set(arr))] *)
Definition Set_from (arr : list string) : list string :=
  fold_left Set_add arr [].

(** *** [Map<string, V>] in insertion order *)

Section JsMap.
Context {V : Type}.

Definition Map := list (string * V).

Fixpoint Map_get (m : Map) (k : string) : option V :=
  match m with
  | [] => None
  | (k', v) :: r => if k' =? k then Some v else Map_get r k
  end.

(** [m.set(k, v)]: an existing key keeps its position. *)
Fixpoint Map_set (m : Map) (k : string) (v : V) : Map :=
  match m with
  | [] => [(k, v)]
  | (k', v') :: r =>
      if k' =? k then (k, v) :: r else (k', v') :: Map_set r k v
  end.

(** [new Map(entries)] *)
Definition Map_from (entries : list (string * V)) : Map :=
  fold_left (fun m kv => Map_set m (fst kv) (snd kv)) entries [].

Definition Map_keys (m : Map) : list string := map fst m.
Definition Map_values (m : Map) : list V := map snd m.
End JsMap.
Arguments Map V : clear implicits.

End JS.
Import JS.

(* ===================================================================== *)
(** ** Data model ([types.ts]) *)
(* ===================================================================== *)

Inductive FileType : Type := xml | xaml | json | js | css | other.

Module SolutionFile.
Record t : Type := mk
  { name : string; path : string; content : string; type : FileType }.
End SolutionFile.

Inductive DiffStatus : Type := added | removed | modified | unchanged.

(** The twelve strings of the declared union, and what the field can
    hold besides at run time: [Inherited k] is the value of the property
    [k] that every object literal inherits from [Object.prototype] (a
    function, or the prototype itself), which the lookup
    [COMPONENT_TYPE_MAP[typeId]] returns for such a [typeId]. *)
Inductive ComponentType : Type :=
| App | ModelApp | Flow | Table | WebResource | EnvVar | Plugin
| SecurityRole | Sitemap | ConnectionRef | CustomControl | Other
| Inherited (key : string).

(** [a === b] *)
Definition ComponentType_eqb (a b : ComponentType) : bool :=
  match a, b with
  | App, App | ModelApp, ModelApp | Flow, Flow | Table, Table
  | WebResource, WebResource | EnvVar, EnvVar | Plugin, Plugin
  | SecurityRole, SecurityRole | Sitemap, Sitemap
  | ConnectionRef, ConnectionRef | CustomControl, CustomControl
  | Other, Other => true
  | Inherited k, Inherited k' => k =? k'
  | _, _ => false
  end.

(** One entry of [SecurityRoleMetadata.privileges]. *)
Module Privilege.
Record t : Type := mk
  { privilegeId : string;
    name : string;
    level : string;
    depth : option string;
    action : option string;
    entity : option string }.
End Privilege.

Module SecurityRoleMetadata.
Record t : Type := mk
  { id : string;
    name : string;
    isManaged : bool;
    privileges : list Privilege.t }.
End SecurityRoleMetadata.

Inductive RelationshipType : Type :=
| OneToMany | ManyToOne | ManyToMany
| OtherRelationshipType (text : string).

Module EntityRelationship.
Record t : Type := mk
  { name : string; type : RelationshipType; from : string; to : string }.
End EntityRelationship.

Module Field.
Record t : Type := mk
  { name : string; displayName : string; type : string }.
End Field.

Module EntityMetadata.
Record t : Type := mk
  { logicalName : string;
    displayName : string;
    relationships : list EntityRelationship.t;
    fields : option (list Field.t) }.
End EntityMetadata.

Module ModelAppMetadata.
Record component : Type := mkComponent
  { c_type : string; c_schemaName : option string; c_id : option string }.
Record t : Type := mk
  { uniqueName : string;
    displayName : string;
    version : string;
    formFactor : string;
    clientType : string;
    navigationType : string;
    components : list component;
    roles : list string;
    elements : list (string * string);   (* (name, uniqueName) *)
    settings : list (string * string) }. (* (name, value) *)
End ModelAppMetadata.

(** Values typed [any] that come out of [JSON.parse]. *)
#[warnings="-register-all"]
Inductive Json : Type :=
| JNull
| JBool (b : bool)
| JNumber (n : Z)
| JString (s : string)
| JArray (items : list Json)
| JObject (members : list (string * Json)).

Module CanvasAppMetadata.
Record t : Type := mk
  { name : string;
    displayName : string;
    description : string;
    appId : string;
    path : string;
    isPage : bool;
    appVersion : option string;
    createdClientVersion : option string;
    minClientVersion : option string;
    tags : option Json;
    databaseReferences : option Json;
    connectionReferences : option Json;
    cdsDependencies : option Json;
    canvasAppType : option string;
    dataSources : option (list string);
    controlCount : option Json;
    layout : option (Json * Json * Json) }.
End CanvasAppMetadata.

(** [LogicalComponent.metadata] is typed [any]; these are the shapes the
    ingestion code stores in it. *)
Inductive Metadata : Type :=
| RoleMeta (m : SecurityRoleMetadata.t)
| TableMeta (fields : option (list Field.t))
| ModelMeta (m : ModelAppMetadata.t)
| CanvasMeta (m : CanvasAppMetadata.t).

Module LogicalComponent.
Record t : Type := mk
  { id : string;
    displayName : string;
    logicalName : string;
    type : ComponentType;
    description : option string;
    files : list string;
    metadata : option Metadata }.
End LogicalComponent.

Module SolutionMetadata.
Record t : Type := mk
  { uniqueName : string;
    version : string;
    localizedName : string;
    publisher : string;
    components : list LogicalComponent.t;
    entities : list EntityMetadata.t;
    canvasApps : option (list CanvasAppMetadata.t) }.
End SolutionMetadata.

(** One element of [LogicalDiff.modified]. *)
Module ModifiedItem.
Record t : Type := mk
  { name : string; old : option Privilege.t; new : Privilege.t }.
End ModifiedItem.

(** [LogicalDiff], tagged by [type]. *)
Inductive LogicalDiff : Type :=
| TableDiff (added removed : list Field.t)
| SecurityRoleDiff (added removed : list Privilege.t)
                   (modified : list ModifiedItem.t).

Module FileDiff.
Record t : Type := mk
  { path : string;
    name : string;
    status : DiffStatus;
    oldContent : option string;
    newContent : option string;
    type : FileType;
    logicalDiff : option LogicalDiff;
    oldMetadata : option Metadata;
    newMetadata : option Metadata }.
End FileDiff.

Module Stats.
Record t : Type := mk { added : nat; removed : nat; modified : nat }.
End Stats.

Module SolutionDiff.
Record t : Type := mk
  { oldMetadata : SolutionMetadata.t;
    newMetadata : SolutionMetadata.t;
    fileDiffs : list FileDiff.t;
    stats : Stats.t }.
End SolutionDiff.

(** The result of [parseSolutionZip]. *)
Module Solution.
Record t : Type := mk
  { files : list SolutionFile.t; metadata : SolutionMetadata.t }.
End Solution.

(* ===================================================================== *)
(** ** Diff engine ([App.tsx], [solutionDiff]) *)
(* ===================================================================== *)

Inductive AppMode : Type := Mode_home | Mode_explore | Mode_compare.

(** [arr.forEach(body)] where [body] may throw: the loop stops at the
    first exception. *)
Fixpoint forEachM {A S : Type} (body : S -> A -> Result S) (arr : list A)
  (s : S) : Result S :=
  match arr with
  | [] => Ok s
  | x :: r => bind (body s x) (forEachM body r)
  end.

Definition optString_eqb (a b : option string) : bool :=
  match a, b with
  | Some x, Some y => x =? y
  | None, None => true
  | _, _ => false
  end.

Definition isChanged (s : DiffStatus) : bool :=
  match s with
  | unchanged => false
  | _ => true
  end.

(** The status chosen by the [if]/[else if] chain of the loop body. *)
Definition fileStatus (base target : option SolutionFile.t) : DiffStatus :=
  match base, target with
  | None, Some _ => added
  | Some _, None => removed
  | Some b, Some t =>
      if negb (SolutionFile.content b =? SolutionFile.content t)
      then modified else unchanged
  | None, None => unchanged
  end.

(** [target || base] *)
Definition targetOrBase (base target : option SolutionFile.t)
  : option SolutionFile.t :=
  match target with
  | Some t => Some t
  | None => base
  end.

(** [comp?.type === ty] *)
Definition typeIs (comp : option LogicalComponent.t) (ty : ComponentType)
  : bool :=
  match comp with
  | Some c => ComponentType_eqb (LogicalComponent.type c) ty
  | None => false
  end.

(** [comp?.metadata] *)
Definition metadataOf (comp : option LogicalComponent.t) : option Metadata :=
  match comp with
  | Some c => LogicalComponent.metadata c
  | None => None
  end.

(** [comp.metadata?.fields || []] *)
Definition fieldsOf (m : option Metadata) : list Field.t :=
  match m with
  | Some (TableMeta (Some fs)) => fs
  | _ => []
  end.

(** [(comp.metadata as SecurityRoleMetadata).privileges || []]: the
    property access has no [?.], so an absent [metadata] throws. *)
Definition privilegesOf (m : option Metadata) : Result (list Privilege.t) :=
  match m with
  | None =>
      Throw (TypeError
               "Cannot read properties of undefined (reading 'privileges')")
  | Some (RoleMeta rm) => Ok (SecurityRoleMetadata.privileges rm)
  | Some _ => Ok []
  end.

Definition tableDiff (oldFields newFields : list Field.t) : LogicalDiff :=
  TableDiff
    (filter (fun nf => negb (existsb (fun o => Field.name o =? Field.name nf)
                               oldFields)) newFields)
    (filter (fun o => negb (existsb (fun nf => Field.name nf =? Field.name o)
                              newFields)) oldFields).

Definition sameName (p q : Privilege.t) : bool :=
  Privilege.name p =? Privilege.name q.

(** [op.level !== np.level || op.depth !== np.depth] *)
Definition levelOrDepthDiffers (op np : Privilege.t) : bool :=
  negb (Privilege.level op =? Privilege.level np) ||
  negb (optString_eqb (Privilege.depth op) (Privilege.depth np)).

Definition securityRoleDiff (oldPrivs newPrivs : list Privilege.t)
  : LogicalDiff :=
  SecurityRoleDiff
    (filter (fun np => negb (existsb (fun op => sameName op np) oldPrivs))
       newPrivs)
    (filter (fun op => negb (existsb (fun np => sameName np op) newPrivs))
       oldPrivs)
    (map (fun np =>
            ModifiedItem.mk (Privilege.name np)
              (find (fun o => sameName o np) oldPrivs) np)
       (filter (fun np =>
                  match find (fun o => sameName o np) oldPrivs with
                  | Some op => levelOrDepthDiffers op np
                  | None => false
                  end) newPrivs)).

(** The [logicalDiff] of one changed path. *)
Definition logicalDiffOf (baseComp targetComp : option LogicalComponent.t)
  : Result (option LogicalDiff) :=
  let logicalDiff :=
    if typeIs baseComp Table && typeIs targetComp Table
    then Some (tableDiff (fieldsOf (metadataOf baseComp))
                 (fieldsOf (metadataOf targetComp)))
    else None in
  if typeIs baseComp SecurityRole && typeIs targetComp SecurityRole
  then bind (privilegesOf (metadataOf baseComp)) (fun oldPrivs =>
       bind (privilegesOf (metadataOf targetComp)) (fun newPrivs =>
       Ok (Some (securityRoleDiff oldPrivs newPrivs))))
  else Ok logicalDiff.

(** The variables the loop of [solutionDiff] updates. *)
Module Loop.
Record t : Type := mk
  { fileDiffs : list FileDiff.t;
    added : nat; removed : nat; modified : nat }.
End Loop.

Definition countStatus (s : DiffStatus) (st : Loop.t) : Loop.t :=
  match s with
  | added =>
      Loop.mk (Loop.fileDiffs st) (S (Loop.added st)) (Loop.removed st)
        (Loop.modified st)
  | removed =>
      Loop.mk (Loop.fileDiffs st) (Loop.added st) (S (Loop.removed st))
        (Loop.modified st)
  | modified =>
      Loop.mk (Loop.fileDiffs st) (Loop.added st) (Loop.removed st)
        (S (Loop.modified st))
  | unchanged => st
  end.

Definition pushFileDiff (fd : FileDiff.t) (st : Loop.t) : Loop.t :=
  Loop.mk (Loop.fileDiffs st ++ [fd]) (Loop.added st) (Loop.removed st)
    (Loop.modified st).

(** [c => c.files.includes(path)] *)
Definition ownsPath (path : string) (c : LogicalComponent.t) : bool :=
  arrIncludes (LogicalComponent.files c) path.

Section DiffLoop.
Variables baseFiles targetFiles : Map SolutionFile.t.
Variables baseComps targetComps : Map LogicalComponent.t.

(** The body of [allPaths.forEach(path => ...)]. *)
Definition diffPath (st : Loop.t) (path : string) : Result Loop.t :=
  let base := Map_get baseFiles path in
  let target := Map_get targetFiles path in
  let status := fileStatus base target in
  let st := countStatus status st in
  if isChanged status then
    match targetOrBase base target with
    | None =>
        Throw (TypeError
                 "Cannot read properties of undefined (reading 'name')")
    | Some file =>
        let baseComp := find (ownsPath path) (Map_values baseComps) in
        let targetComp := find (ownsPath path) (Map_values targetComps) in
        bind (logicalDiffOf baseComp targetComp) (fun logicalDiff =>
        Ok (pushFileDiff
              (FileDiff.mk path (SolutionFile.name file) status
                 (option_map SolutionFile.content base)
                 (option_map SolutionFile.content target)
                 (SolutionFile.type file) logicalDiff
                 (metadataOf baseComp) (metadataOf targetComp))
              st))
    end
  else Ok st.
End DiffLoop.

Section Sorting.
(** [a.localeCompare(b)], the collation of the host: negative, zero or
    positive. *)
Variable localeCompare : string -> string -> Z.

(** [fileDiffs.sort((a, b) => a.path.localeCompare(b.path))]; the sort
    of an array is stable. *)
Fixpoint sortInsert (x : FileDiff.t) (l : list FileDiff.t)
  : list FileDiff.t :=
  match l with
  | [] => [x]
  | y :: r =>
      if (localeCompare (FileDiff.path x) (FileDiff.path y) <=? 0)%Z
      then x :: l else y :: sortInsert x r
  end.

Definition sortByPath (l : list FileDiff.t) : list FileDiff.t :=
  fold_right sortInsert [] l.

Definition filesByPath (files : list SolutionFile.t) : Map SolutionFile.t :=
  Map_from (map (fun f => (SolutionFile.path f, f)) files).

Definition compsById (comps : list LogicalComponent.t)
  : Map LogicalComponent.t :=
  Map_from (map (fun c => (LogicalComponent.id c, c)) comps).

Definition solutionDiff (appMode : AppMode)
  (baseSolution targetSolution : option Solution.t)
  : Result (option SolutionDiff.t) :=
  match appMode, baseSolution, targetSolution with
  | Mode_compare, Some base, Some target =>
      let baseFiles := filesByPath (Solution.files base) in
      let targetFiles := filesByPath (Solution.files target) in
      let baseComps :=
        compsById (SolutionMetadata.components (Solution.metadata base)) in
      let targetComps :=
        compsById (SolutionMetadata.components (Solution.metadata target)) in
      let allPaths :=
        Set_from (Map_keys baseFiles ++ Map_keys targetFiles) in
      bind (forEachM (diffPath baseFiles targetFiles baseComps targetComps)
              allPaths (Loop.mk [] 0 0 0))
        (fun st =>
           Ok (Some (SolutionDiff.mk
                       (Solution.metadata base) (Solution.metadata target)
                       (sortByPath (Loop.fileDiffs st))
                       (Stats.mk (Loop.added st) (Loop.removed st)
                          (Loop.modified st)))))
  | _, _, _ => Ok None
  end.
End Sorting.

(* ===================================================================== *)
(** ** Bundle ingestion ([services/zipService.ts], [parseSolutionZip]) *)
(* ===================================================================== *)

(** What the selectors of [parseSolutionZip] read off the parsed XML
    documents.  A field is the result of [getAttribute] or of
    [querySelector(..)?.textContent]: [None] when the attribute or the
    element is missing. *)
Module Dom.
(** [RootComponents > RootComponent] *)
Record RootComponent : Type := mkRootComponent
  { rc_type : option string;
    rc_id : option string;
    rc_schemaName : option string }.

Record SolutionXml : Type := mkSolutionXml
  { sx_UniqueName : option string;
    sx_Version : option string;
    sx_LocalizedName_description : option string;
    sx_Publisher_UniqueName : option string;
    sx_RootComponents : list RootComponent }.

(** [RolePrivileges > RolePrivilege] *)
Record RolePrivilege : Type := mkRolePrivilege
  { rp_name : option string;
    rp_privilegeid : option string;
    rp_level : option string;
    rp_depth : option string }.

(** [Roles > Role] *)
Record Role : Type := mkRole
  { role_id : option string;
    role_name : option string;
    role_ismanaged : option string;
    role_RolePrivileges : list RolePrivilege }.

(** [attribute] below an entity *)
Record Attribute : Type := mkAttribute
  { at_LogicalName : option string;
    at_PhysicalName : option string;
    at_displayname_description : option string;
    at_Type : option string }.

(** [Entities > Entity] *)
Record Entity : Type := mkEntity
  { en_Name : option string;
    en_Name_LocalizedName : option string;
    en_attributes : list Attribute }.

(** [EntityRelationships > EntityRelationship] *)
Record EntityRelationship : Type := mkEntityRelationship
  { er_Name : option string;
    er_EntityRelationshipType : option string;
    er_ReferencedEntityName : option string;
    er_ReferencingEntityName : option string }.

Record AppModuleComponent : Type := mkAppModuleComponent
  { amc_type : option string;
    amc_schemaName : option string;
    amc_id : option string }.

(** [AppModules > AppModule] *)
Record AppModule : Type := mkAppModule
  { am_UniqueName : option string;
    am_LocalizedName_description : option string;
    am_IntroducedVersion : option string;
    am_FormFactor : option string;
    am_ClientType : option string;
    am_NavigationType : option string;
    am_AppModuleComponents : list AppModuleComponent;
    am_RoleMaps : list (option string);
    (* (attribute uniquename, text of name) *)
    am_appelements : list (option string * option string);
    (* (attribute settingdefinitionid.uniquename, text of value) *)
    am_appsettings : list (option string * option string) }.

(** [Workflows > Workflow] *)
Record Workflow : Type := mkWorkflow
  { wf_Name : option string;
    wf_WorkflowId : option string;
    wf_Description : option string;
    wf_FileName : option string }.

Record CustomizationsXml : Type := mkCustomizationsXml
  { cx_Roles : list Role;
    cx_Entities : list Entity;
    cx_EntityRelationships : list EntityRelationship;
    cx_AppModules : list AppModule;
    cx_Workflows : list Workflow }.
End Dom.

(** One entry of the archive, already inflated. *)
Module ZipEntry.
Record t : Type := mk
  { name : string; dir : bool; data : list Byte.byte }.
End ZipEntry.

(** What [zipEntry.async(kind)] resolves to. *)
Inductive EntryContent : Type :=
| AsString (s : string)
| AsUint8Array (bytes : list Byte.byte).

(** The own keys of the table. *)
Definition COMPONENT_TYPE_MAP : list (string * ComponentType) :=
  [ ("1", Table); ("2", Table); ("3", Table); ("9", Table);
    ("20", SecurityRole); ("26", WebResource); ("29", Flow); ("30", App);
    ("60", ModelApp); ("62", Sitemap); ("91", Plugin); ("92", Plugin);
    ("300", App); ("371", ConnectionRef); ("380", EnvVar) ].

(** The properties of [Object.prototype], which the table, an object
    literal, inherits; each holds a truthy value. *)
Definition objectPrototypeKeys : list string :=
  [ "constructor"; "__defineGetter__"; "__defineSetter__"; "hasOwnProperty";
    "__lookupGetter__"; "__lookupSetter__"; "isPrototypeOf";
    "propertyIsEnumerable"; "toString"; "valueOf"; "__proto__";
    "toLocaleString" ].

(** [COMPONENT_TYPE_MAP[typeId] || 'Other']: an own key, else a property
    found on the prototype chain, else ['Other']. *)
Definition componentTypeOf (typeId : string) : ComponentType :=
  match Map_get COMPONENT_TYPE_MAP typeId with
  | Some ty => ty
  | None =>
      if arrIncludes objectPrototypeKeys typeId then Inherited typeId
      else Other
  end.

(** *** Privilege names

    The regular expression of the source is [^prv], then one of
    [Create|Read|Write|Delete|AppendTo|Append|Assign|Share] (group 1),
    then a greedy run of characters other than line terminators
    (group 2), then the end of the input. *)

Definition actionVocabulary : list string :=
  ["Create"; "Read"; "Write"; "Delete"; "AppendTo"; "Append"; "Assign";
   "Share"].

(** Line feed and carriage return: the code units below 256 that [.]
    refuses. *)
Definition isLineTerminator (c : ascii) : bool :=
  (nat_of_ascii c =? 10)%nat || (nat_of_ascii c =? 13)%nat.

(** Group 2 followed by the end of input matches all of [s]. *)
Definition dotStarToEnd (s : string) : bool :=
  negb (existsb isLineTerminator (list_ascii_of_string s)).

(** [s] without the prefix [p], when it starts with [p]. *)
Fixpoint stripPrefix (p s : string) : option string :=
  match p, s with
  | EmptyString, _ => Some s
  | String _ _, EmptyString => None
  | String a p', String b s' =>
      if Ascii.eqb a b then stripPrefix p' s' else None
  end.

(** The alternation, tried from left to right, each followed by
    group 2 and the end of input. *)
Fixpoint matchAlternatives (alts : list string) (s : string)
  : option (string * string) :=
  match alts with
  | [] => None
  | a :: r =>
      match stripPrefix a s with
      | Some rest =>
          if dotStarToEnd rest then Some (a, rest)
          else matchAlternatives r s
      | None => matchAlternatives r s
      end
  end.

(** [privName.match(...)]: the groups 1 and 2 of a match. *)
Definition actionMatch (privName : string) : option (string * string) :=
  match stripPrefix "prv" privName with
  | Some s => matchAlternatives actionVocabulary s
  | None => None
  end.

(** The pair [(action, entity)] computed for one privilege name.  Both
    are typed optional in [SecurityRoleMetadata]. *)
Definition decomposePrivilege (privName : string)
  : option string * option string :=
  match actionMatch privName with
  | Some (act, rest) => (Some act, Some (orElse rest "Global System"))
  | None =>
      if startsWith privName "prv"
      then (None, Some (substringFrom 3 privName))
      else (None, Some privName)
  end.

Definition parsePrivilege (p : Dom.RolePrivilege) : Privilege.t :=
  let privName := optOr (Dom.rp_name p) "" in
  let '(action, entity) := decomposePrivilege privName in
  Privilege.mk (optOr (Dom.rp_privilegeid p) privName) privName
    (optOr (Dom.rp_level p) "") (optOrUndefined (Dom.rp_depth p))
    action entity.

Definition parseRole (node : Dom.Role) : SecurityRoleMetadata.t :=
  SecurityRoleMetadata.mk
    (optOr (Dom.role_id node) "") (optOr (Dom.role_name node) "")
    (optString_eqb (Dom.role_ismanaged node) (Some "1"))
    (map parsePrivilege (Dom.role_RolePrivileges node)).

(** *** Finding a record and mutating it, or pushing a new one *)

(** The effect of [existing.x = ...] on the array that holds
    [existing = arr.find(p)]. *)
Fixpoint updateFirst {A} (p : A -> bool) (f : A -> A) (arr : list A)
  : list A :=
  match arr with
  | [] => []
  | x :: r => if p x then f x :: r else x :: updateFirst p f r
  end.

(** [const existing = arr.find(p); if (existing) { f(existing) } else
    { arr.push(fresh) }] *)
Definition mergeOrPush {A} (p : A -> bool) (f : A -> A) (fresh : A)
  (arr : list A) : list A :=
  match find p arr with
  | Some _ => updateFirst p f arr
  | None => arr ++ [fresh]
  end.

Import LogicalComponent.

Definition setDisplayName (s : string) (c : LogicalComponent.t) :=
  mk (id c) s (logicalName c) (type c) (description c) (files c) (metadata c).
Definition setMetadata (m : Metadata) (c : LogicalComponent.t) :=
  mk (id c) (displayName c) (logicalName c) (type c) (description c)
    (files c) (Some m).
Definition setType (ty : ComponentType) (c : LogicalComponent.t) :=
  mk (id c) (displayName c) (logicalName c) ty (description c) (files c)
    (metadata c).
Definition setFiles (fs : list string) (c : LogicalComponent.t) :=
  mk (id c) (displayName c) (logicalName c) (type c) (description c) fs
    (metadata c).

(** [files.filter(f => p(f.path)).map(f => f.path)] *)
Definition pathsWhere (p : string -> bool) (files : list SolutionFile.t)
  : list string :=
  map SolutionFile.path (filter (fun f => p (SolutionFile.path f)) files).

Section Passes.
Variable files : list SolutionFile.t.

(** **** [solution.xml]: the root components *)
Definition rootComponentStep (components : list LogicalComponent.t)
  (node : Dom.RootComponent) : list LogicalComponent.t :=
  let typeId := optOr (Dom.rc_type node) "" in
  let id := optOr (Dom.rc_id node) "" in
  let schemaName := optOr (Dom.rc_schemaName node) "" in
  if truthy id &&
     negb (existsb (fun c => LogicalComponent.id c =? id) components)
  then components ++
       [ mk id (orElse schemaName id) (orElse schemaName id)
           (componentTypeOf typeId) None
           (pathsWhere (fun p => includes p id ||
                                 (truthy schemaName && includes p schemaName))
              files)
           None ]
  else components.

(** **** [customizations.xml]: security roles *)
Definition roleStep (components : list LogicalComponent.t)
  (node : Dom.Role) : list LogicalComponent.t :=
  let id := optOr (Dom.role_id node) "" in
  let name := optOr (Dom.role_name node) "" in
  let roleMeta := parseRole node in
  mergeOrPush
    (fun c => (LogicalComponent.id c =? id) &&
              ComponentType_eqb (type c) SecurityRole)
    (fun c => setMetadata (RoleMeta roleMeta) (setDisplayName name c))
    (mk id name name SecurityRole None [] (Some (RoleMeta roleMeta)))
    components.

(** **** [customizations.xml]: tables *)
Definition parseField (attr : Dom.Attribute) : Field.t :=
  let fieldLogicalName :=
    match optOrUndefined (Dom.at_LogicalName attr) with
    | Some s => s
    | None => optOr (Dom.at_PhysicalName attr) ""
    end in
  Field.mk fieldLogicalName
    (optOr (Dom.at_displayname_description attr) fieldLogicalName)
    (optOr (Dom.at_Type attr) "string").

Definition parseEntity (node : Dom.Entity) : EntityMetadata.t :=
  let logicalName := optOr (Dom.en_Name node) "" in
  EntityMetadata.mk logicalName
    (optOr (Dom.en_Name_LocalizedName node) logicalName) []
    (Some (map parseField (Dom.en_attributes node))).

Definition entityStep
  (st : Map EntityMetadata.t * list LogicalComponent.t)
  (node : Dom.Entity) : Map EntityMetadata.t * list LogicalComponent.t :=
  let '(entityMap, components) := st in
  let entity := parseEntity node in
  let logicalName := EntityMetadata.logicalName entity in
  let displayName := EntityMetadata.displayName entity in
  (Map_set entityMap logicalName entity,
   mergeOrPush
     (fun c => (LogicalComponent.logicalName c =? logicalName) &&
               ComponentType_eqb (type c) Table)
     (fun c => setMetadata (TableMeta (EntityMetadata.fields entity))
                 (setDisplayName displayName c))
     (mk logicalName displayName logicalName Table None
        (pathsWhere (fun p => startsWith p ("Entities/" ++ logicalName ++ "/"))
           files)
        (Some (TableMeta (EntityMetadata.fields entity))))
     components).
End Passes.

(** **** [customizations.xml]: relationships *)

(** [m.get(k).relationships.push(rel)], when [m.get(k)] is defined. *)
Fixpoint pushRelationship (entityMap : Map EntityMetadata.t) (k : string)
  (rel : EntityRelationship.t) : Map EntityMetadata.t :=
  match entityMap with
  | [] => []
  | (k', e) :: r =>
      if k' =? k
      then (k', EntityMetadata.mk (EntityMetadata.logicalName e)
                  (EntityMetadata.displayName e)
                  (EntityMetadata.relationships e ++ [rel])
                  (EntityMetadata.fields e)) :: r
      else (k', e) :: pushRelationship r k rel
  end.

(** [textContent as any || 'OneToMany'] *)
Definition relationshipTypeOf (text : option string) : RelationshipType :=
  let s := optOr text "OneToMany" in
  if s =? "OneToMany" then OneToMany
  else if s =? "ManyToOne" then ManyToOne
  else if s =? "ManyToMany" then ManyToMany
  else OtherRelationshipType s.

Definition parseRelationship (relNode : Dom.EntityRelationship)
  : EntityRelationship.t :=
  EntityRelationship.mk
    (optOr (Dom.er_Name relNode) "")
    (relationshipTypeOf (Dom.er_EntityRelationshipType relNode))
    (optOr (Dom.er_ReferencedEntityName relNode) "")
    (optOr (Dom.er_ReferencingEntityName relNode) "").

Definition relationshipStep (entityMap : Map EntityMetadata.t)
  (relNode : Dom.EntityRelationship) : Map EntityMetadata.t :=
  let relationship := parseRelationship relNode in
  let from := EntityRelationship.from relationship in
  let to := EntityRelationship.to relationship in
  if truthy from && truthy to
  then pushRelationship (pushRelationship entityMap from relationship)
         to relationship
  else entityMap.

(** **** [customizations.xml]: model-driven apps *)

Definition parseAppModule (node : Dom.AppModule) : ModelAppMetadata.t :=
  let uniqueName := optOr (Dom.am_UniqueName node) "" in
  ModelAppMetadata.mk uniqueName
    (optOr (Dom.am_LocalizedName_description node) uniqueName)
    (optOr (Dom.am_IntroducedVersion node) "1.0.0.0")
    (optOr (Dom.am_FormFactor node) "1")
    (optOr (Dom.am_ClientType node) "4")
    (optOr (Dom.am_NavigationType node) "0")
    (map (fun c =>
            ModelAppMetadata.mkComponent (optOr (Dom.amc_type c) "")
              (optOrUndefined (Dom.amc_schemaName c))
              (optOrUndefined (Dom.amc_id c)))
       (Dom.am_AppModuleComponents node))
    (map (fun r => optOr r "") (Dom.am_RoleMaps node))
    (map (fun e => (optOr (snd e) "", optOr (fst e) ""))
       (Dom.am_appelements node))
    (map (fun s => (optOr (fst s) "", optOr (snd s) ""))
       (Dom.am_appsettings node)).

Section MorePasses.
Variable files : list SolutionFile.t.

Definition appModuleStep (components : list LogicalComponent.t)
  (node : Dom.AppModule) : list LogicalComponent.t :=
  let modelMeta := parseAppModule node in
  let uniqueName := ModelAppMetadata.uniqueName modelMeta in
  let localizedName := ModelAppMetadata.displayName modelMeta in
  mergeOrPush
    (fun c => (logicalName c =? uniqueName) &&
              ComponentType_eqb (type c) ModelApp)
    (fun c => setMetadata (ModelMeta modelMeta)
                (setDisplayName localizedName c))
    (mk uniqueName localizedName uniqueName ModelApp None
       (pathsWhere (fun p => includes p uniqueName) files)
       (Some (ModelMeta modelMeta)))
    components.

(** **** [customizations.xml]: cloud flows *)
Definition workflowStep (components : list LogicalComponent.t)
  (node : Dom.Workflow) : list LogicalComponent.t :=
  let name := optOr (Dom.wf_Name node) "Untitled Flow" in
  let logicalName := optOr (Dom.wf_WorkflowId node) "" in
  let fileName := optOr (Dom.wf_FileName node) "" in
  let normalizedFileName :=
    if startsWith fileName "/" then substringFrom 1 fileName
    else fileName in
  mergeOrPush
    (fun c => id c =? logicalName)
    (fun c =>
       setFiles
         (Set_from
            (LogicalComponent.files c ++
             pathsWhere (fun p => includes p normalizedFileName) files))
         (setDisplayName name c))
    (mk logicalName name logicalName Flow
       (Some (optOr (Dom.wf_Description node) ""))
       (pathsWhere (fun p => includes p normalizedFileName ||
                             includes p logicalName) files)
       None)
    components.

(** **** Canvas apps *)
Definition isCanvasAppFile (f : SolutionFile.t) : bool :=
  startsWith (SolutionFile.path f) "CanvasApps/" &&
  endsWith (SolutionFile.path f) ".xml" &&
  negb (includes (SolutionFile.path f) "_").

Definition canvasStep (components : list LogicalComponent.t)
  (appMeta : CanvasAppMetadata.t) : list LogicalComponent.t :=
  let name := CanvasAppMetadata.name appMeta in
  let appId := CanvasAppMetadata.appId appMeta in
  let displayName := CanvasAppMetadata.displayName appMeta in
  mergeOrPush
    (fun c => (logicalName c =? name) || (id c =? appId))
    (fun c => setMetadata (CanvasMeta appMeta)
                (setDisplayName displayName (setType App c)))
    (mk (orElse appId name) displayName name App
       (Some (CanvasAppMetadata.description appMeta))
       (pathsWhere (fun p => includes p name) files)
       (Some (CanvasMeta appMeta)))
    components.
End MorePasses.

(** The final safety net:
    [components.filter((v, i, a) => a.findIndex(t => t.id === v.id) === i)] *)
Definition dedupComponents (components : list LogicalComponent.t)
  : list LogicalComponent.t :=
  filterIdx
    (fun v i =>
       match findIndex (fun t => id t =? id v) components with
       | Some j => (j =? i)%nat
       | None => false
       end)
    0 components.

(** **** The archive reader *)

Section ArchiveReader.
(** The text [zipEntry.async('string')] decodes from the bytes. *)
Variable decodeString : list Byte.byte -> string.

Definition readEntry (relativePath : string) (zipEntry : ZipEntry.t)
  : EntryContent :=
  if endsWith relativePath ".msapp"
  then AsUint8Array (ZipEntry.data zipEntry)
  else AsString (decodeString (ZipEntry.data zipEntry)).

Definition fileTypeOf (relativePath : string) : FileType :=
  let ext := orElse (toLowerCase (splitPop "." relativePath)) "" in
  if ext =? "xml" then xml
  else if ext =? "xaml" then xaml
  else if ext =? "json" then json
  else if ext =? "js" then js
  else if ext =? "css" then css
  else other.

(** The object pushed on [files] for one entry. *)
Definition toSolutionFile (relativePath : string) (zipEntry : ZipEntry.t)
  : SolutionFile.t :=
  SolutionFile.mk
    (orElse (splitPop "/" (ZipEntry.name zipEntry)) "")
    relativePath
    (match readEntry relativePath zipEntry with
     | AsString s => s
     | AsUint8Array _ => "[Binary Content]"
     end)
    (fileTypeOf relativePath).

(** [zip.forEach(...)] followed by [Promise.all]; [files] is taken in
    the order of the archive. *)
Definition collectFiles (zip : list (string * ZipEntry.t))
  : list SolutionFile.t :=
  map (fun e => toSolutionFile (fst e) (snd e))
    (filter (fun e => negb (ZipEntry.dir (snd e))) zip).

(** The DOM parser with the selectors applied, and the work done per
    canvas-app descriptor (its XML, the JSON sub-documents and the
    nested [.msapp] package), which may throw. *)
Variable parseSolutionXml : string -> Dom.SolutionXml.
Variable parseCustomizationsXml : string -> Dom.CustomizationsXml.
Variable readCanvasApp :
  list (string * ZipEntry.t) -> list SolutionFile.t -> SolutionFile.t ->
  Result CanvasAppMetadata.t.

(** [files.find(f => f.path === p)?.content], when truthy. *)
Definition contentAt (files : list SolutionFile.t) (p : string)
  : option string :=
  match find (fun f => SolutionFile.path f =? p) files with
  | Some f => optOrUndefined (Some (SolutionFile.content f))
  | None => None
  end.

Definition solutionPass (files : list SolutionFile.t)
  (components : list LogicalComponent.t)
  : SolutionMetadata.t * list LogicalComponent.t :=
  match contentAt files "solution.xml" with
  | Some solutionXml =>
      let xmlDoc := parseSolutionXml solutionXml in
      (SolutionMetadata.mk
         (optOr (Dom.sx_UniqueName xmlDoc) "Unknown")
         (optOr (Dom.sx_Version xmlDoc) "0.0.0.0")
         (optOr (Dom.sx_LocalizedName_description xmlDoc) "Unknown Solution")
         (optOr (Dom.sx_Publisher_UniqueName xmlDoc) "Unknown")
         [] [] None,
       fold_left (rootComponentStep files) (Dom.sx_RootComponents xmlDoc)
         components)
  | None =>
      (SolutionMetadata.mk "Unknown" "0.0.0.0" "Unknown Solution" "Unknown"
         [] [] None,
       components)
  end.

Definition customizationsPass (files : list SolutionFile.t)
  (components : list LogicalComponent.t)
  : Map EntityMetadata.t * list LogicalComponent.t :=
  match contentAt files "customizations.xml" with
  | Some customizationsXml =>
      let xmlDoc := parseCustomizationsXml customizationsXml in
      let components := fold_left roleStep (Dom.cx_Roles xmlDoc) components in
      let '(entityMap, components) :=
        fold_left (entityStep files) (Dom.cx_Entities xmlDoc)
          ([], components) in
      let entityMap :=
        fold_left relationshipStep (Dom.cx_EntityRelationships xmlDoc)
          entityMap in
      let components :=
        fold_left (appModuleStep files) (Dom.cx_AppModules xmlDoc)
          components in
      let components :=
        fold_left (workflowStep files) (Dom.cx_Workflows xmlDoc)
          components in
      (entityMap, components)
  | None => ([], components)
  end.

(** [for (const f of canvasAppFiles) { ... }] *)
Definition canvasPass (zip : list (string * ZipEntry.t))
  (files : list SolutionFile.t)
  (st : list CanvasAppMetadata.t * list LogicalComponent.t)
  : Result (list CanvasAppMetadata.t * list LogicalComponent.t) :=
  forEachM
    (fun st f =>
       bind (readCanvasApp zip files f) (fun appMeta =>
       Ok (fst st ++ [appMeta], canvasStep files (snd st) appMeta)))
    (filter isCanvasAppFile files) st.

Definition parseSolutionZip (zip : list (string * ZipEntry.t))
  : Result Solution.t :=
  let files := collectFiles zip in
  let '(metadata, components) := solutionPass files [] in
  let '(entityMap, components) := customizationsPass files components in
  bind (canvasPass zip files ([], components)) (fun st =>
  let '(canvasAppMetadataList, components) := st in
  Ok (Solution.mk files
        (SolutionMetadata.mk
           (SolutionMetadata.uniqueName metadata)
           (SolutionMetadata.version metadata)
           (SolutionMetadata.localizedName metadata)
           (SolutionMetadata.publisher metadata)
           (dedupComponents components)
           (Map_values entityMap)
           (Some canvasAppMetadataList)))).

(** The array [components] as the final filter finds it: what the
    passes have reconciled, in the order in which they pushed it. *)
Definition reconciledComponents (zip : list (string * ZipEntry.t))
  : Result (list LogicalComponent.t) :=
  let files := collectFiles zip in
  let '(_, components) := solutionPass files [] in
  let '(_, components) := customizationsPass files components in
  bind (canvasPass zip files ([], components)) (fun st => Ok (snd st)).

(** **** Loading the archive and reading its entries

    [parseSolutionZip] above is the function from the point where
    [Promise.all] has been awaited, on the entries in the order in which
    their reads were fulfilled (the order in which [files] receives
    them).  Before that point [JSZip.loadAsync] may reject, and so may
    the read of any entry that is not a directory; [Promise.all] then
    rejects with the first rejection. *)
Variable File : Type.
(** [JSZip.loadAsync(file)]: the entries in the order of the archive. *)
Variable loadAsync : File -> Result (list (string * ZipEntry.t)).
(** The entries in the order in which their reads settle. *)
Variable settled : list (string * ZipEntry.t) -> list (string * ZipEntry.t).
(** The error [zipEntry.async] rejects with, when it does. *)
Variable readRejection : string -> ZipEntry.t -> option Exception.

(** The rejection of the read of an entry; no read is started for a
    directory. *)
Definition rejectionOf (entry : string * ZipEntry.t) : option Exception :=
  if ZipEntry.dir (snd entry) then None
  else readRejection (fst entry) (snd entry).

(** [await Promise.all(filePromises)] *)
Definition awaitReads (entries : list (string * ZipEntry.t)) : Result unit :=
  forEachM
    (fun _ entry =>
       match rejectionOf entry with
       | Some error => Throw error
       | None => Ok tt
       end)
    entries tt.

(** The exported function, from the [File] on. *)
Definition parseSolutionFile (file : File) : Result Solution.t :=
  bind (loadAsync file) (fun zip =>
  let entries := settled zip in
  bind (awaitReads entries) (fun _ => parseSolutionZip entries)).
End ArchiveReader.

(* ===================================================================== *)
(** ** The relationship edges ([components/SchemaVisualizer.tsx]) *)
(* ===================================================================== *)

(** [arr.sort()] on strings: ascending by code units. *)
Fixpoint insertString (x : string) (l : list string) : list string :=
  match l with
  | [] => [x]
  | y :: r => if String.leb x y then x :: l else y :: insertString x r
  end.

Definition sortStrings (l : list string) : list string :=
  fold_right insertString [] l.

(** [[rel.from, rel.to, rel.name].sort().join('-')] *)
Definition relationshipKey (rel : EntityRelationship.t) : string :=
  String.concat "-"
    (sortStrings [EntityRelationship.from rel; EntityRelationship.to rel;
                  EntityRelationship.name rel]).

Section SchemaVisualizer.
(** [layout] has one own property per entity, named by its logical
    name and holding an object.  [inherited entities k] is the
    truthiness of [layout[k]] when [k] is not such a name and the
    lookup falls through to the prototype chain. *)
Variable inherited : list EntityMetadata.t -> string -> bool.

Definition layoutHas (entities : list EntityMetadata.t) (k : string)
  : bool :=
  existsb (fun e => EntityMetadata.logicalName e =? k) entities ||
  inherited entities k.

(** The body of the inner [forEach]; the state is [(rels, seen)]. *)
Definition relationshipEdgeStep (entities : list EntityMetadata.t)
  (st : list EntityRelationship.t * list string)
  (rel : EntityRelationship.t)
  : list EntityRelationship.t * list string :=
  if layoutHas entities (EntityRelationship.from rel) &&
     layoutHas entities (EntityRelationship.to rel)
  then
    let key := relationshipKey rel in
    if Set_has (snd st) key then st
    else (fst st ++ [rel], Set_add (snd st) key)
  else st.

Definition allRelationships (entities : list EntityMetadata.t)
  : list EntityRelationship.t :=
  fst (fold_left
         (fun st entity =>
            fold_left (relationshipEdgeStep entities)
              (EntityMetadata.relationships entity) st)
         entities ([], [])).
End SchemaVisualizer.

(* ===================================================================== *)
(** ** The oracle boundary ([services/geminiService.ts]) *)
(* ===================================================================== *)

Module Gemini.

(** A value thrown by the oracle call, seen through
    [error?.message || '']. *)
Record ApiError : Type := mkApiError { message : option string }.

(** What [executeWithRetry] throws: the caught value itself, or a
    [QuotaError] of its own making. *)
Inductive Thrown : Type :=
| Rethrown (error : ApiError)
| QuotaError (msg : string).

(** [errorMsg.includes('429') || errorMsg.includes('RESOURCE_EXHAUSTED')] *)
Definition isQuotaExhaustion (error : ApiError) : bool :=
  let errorMsg := optOr (message error) "" in
  includes errorMsg "429" || includes errorMsg "RESOURCE_EXHAUSTED".

Section Retry.
Variable T : Type.

(** The world the calls act on: how many calls the oracle has
    received, and the delays waited so far. *)
Record World : Type := mkWorld { calls : nat; waited : list nat }.

(** The outcome of the oracle's [n]-th call. *)
Variable oracle : nat -> ApiError + T.

(** [await fn()] *)
Definition fn (w : World) : (ApiError + T) * World :=
  (oracle (calls w), mkWorld (S (calls w)) (waited w)).

(** [await new Promise(resolve => setTimeout(resolve, delay))] *)
Definition sleep (delay : nat) (w : World) : World :=
  mkWorld (calls w) (waited w ++ [delay]).

Fixpoint executeWithRetry (retries delay : nat) (w : World)
  : (Thrown + T) * World :=
  match fn w with
  | (inr v, w') => (inr v, w')
  | (inl error, w') =>
      if isQuotaExhaustion error then
        match retries with
        | S r => executeWithRetry r (delay * 2) (sleep delay w')
        | O => (inl (QuotaError "API rate limit exceeded."), w')
        end
      else (inl (Rethrown error), w')
  end.
End Retry.
End Gemini.

(* ===================================================================== *)
(** ** Reference formulations used by the properties *)
(* ===================================================================== *)

(** The elements of [l] whose id is neither in [seen] nor carried by an
    earlier element of [l]. *)
Fixpoint firstById (seen : list string) (l : list LogicalComponent.t)
  : list LogicalComponent.t :=
  match l with
  | [] => []
  | x :: r =>
      if Set_has seen (id x) then firstById seen r
      else x :: firstById (seen ++ [id x]) r
  end.

(** The file the diff engine finds at a path, and the component it takes
    as the owner of a path. *)
Definition fileAt (files : list SolutionFile.t) (p : string)
  : option SolutionFile.t :=
  Map_get (filesByPath files) p.

Definition hasPath (files : list SolutionFile.t) (p : string) : Prop :=
  In p (map SolutionFile.path files).

Definition ownerOf (components : list LogicalComponent.t) (p : string)
  : option LogicalComponent.t :=
  find (ownsPath p) (Map_values (compsById components)).

(** How many entries of [fileDiffs] are about the path [p]. *)
Definition entriesFor (p : string) (fileDiffs : list FileDiff.t) : nat :=
  List.length (filter (fun fd => FileDiff.path fd =? p) fileDiffs).

(** Ascending order of two entries under the comparator of the sort. *)
Definition pathLe (localeCompare : string -> string -> Z)
  (a b : FileDiff.t) : Prop :=
  (localeCompare (FileDiff.path a) (FileDiff.path b) <= 0)%Z.

(** What the loop body records about a changed path. *)
Definition isEntryFor (baseFiles targetFiles : Map SolutionFile.t)
  (baseComps targetComps : Map LogicalComponent.t) (fd : FileDiff.t)
  : Prop :=
  let p := FileDiff.path fd in
  FileDiff.status fd = fileStatus (Map_get baseFiles p) (Map_get targetFiles p)
  /\ isChanged (FileDiff.status fd) = true
  /\ logicalDiffOf (find (ownsPath p) (Map_values baseComps))
       (find (ownsPath p) (Map_values targetComps))
     = Ok (FileDiff.logicalDiff fd)
  /\ FileDiff.oldContent fd =
     option_map SolutionFile.content (Map_get baseFiles p)
  /\ FileDiff.newContent fd =
     option_map SolutionFile.content (Map_get targetFiles p).

(** Every [SecurityRole] component carries a [metadata] object. *)
Definition rolesCarryMetadata (components : list LogicalComponent.t) : Prop :=
  forall c, In c components -> type c = SecurityRole -> metadata c <> None.

(** *** Sample data: one security role in two versions of a bundle *)

Definition readLocal : Privilege.t :=
  parsePrivilege (Dom.mkRolePrivilege (Some "Read") None (Some "Local") None).
Definition readGlobal : Privilege.t :=
  parsePrivilege (Dom.mkRolePrivilege (Some "Read") None (Some "Global") None).
Definition writeBasic : Privilege.t :=
  parsePrivilege (Dom.mkRolePrivilege (Some "Write") None (Some "Basic") None).

Definition clerkRole (privileges : list Privilege.t) : LogicalComponent.t :=
  mk "{role-1}" "Clerk" "Clerk" SecurityRole None ["Roles/{role-1}.xml"]
    (Some (RoleMeta (SecurityRoleMetadata.mk "{role-1}" "Clerk" false
                       privileges))).

Definition clerkBundle (roleXml : string) (extra : list SolutionFile.t)
  (privileges : list Privilege.t) : Solution.t :=
  Solution.mk
    (SolutionFile.mk "{role-1}.xml" "Roles/{role-1}.xml" roleXml xml :: extra)
    (SolutionMetadata.mk "Sample" "1.0.0.0" "Sample" "contoso"
       [clerkRole privileges] [] (Some [])).

Definition clerkBase : Solution.t :=
  clerkBundle "<Role v='1'/>"
    [SolutionFile.mk "old.js" "WebResources/old.js" "a()" js;
     SolutionFile.mk "same.css" "WebResources/same.css" "b{}" css]
    [readLocal].

Definition clerkTarget : Solution.t :=
  clerkBundle "<Role v='2'/>"
    [SolutionFile.mk "same.css" "WebResources/same.css" "b{}" css;
     SolutionFile.mk "new.json" "Workflows/new.json" "{}" json]
    [readGlobal; writeBasic].

(** A comparator for the samples: code-unit order. *)
Definition codeUnitCompare (a b : string) : Z :=
  match String.compare a b with
  | Lt => (-1)%Z
  | Eq => 0%Z
  | Gt => 1%Z
  end.

(** The three strings of a relationship that its key is built from. *)
Definition relationshipTriple (rel : EntityRelationship.t) : list string :=
  [EntityRelationship.from rel; EntityRelationship.to rel;
   EntityRelationship.name rel].

(** Two relationships have the same three strings, in any arrangement. *)
Definition sameTriple (r1 r2 : EntityRelationship.t) : Prop :=
  Permutation (relationshipTriple r1) (relationshipTriple r2).

(** A string without the character the key is joined with. *)
Definition hyphenFree (s : string) : Prop :=
  forall a b, s <> (a ++ "-" ++ b)%string.

(** The relationships in the order in which the two nested [forEach]
    visit them: entity by entity, each entity's list in turn, only
    those whose two ends are found in [layout]. *)
Definition listedRelationships
  (inherited : list EntityMetadata.t -> string -> bool)
  (entities : list EntityMetadata.t) : list EntityRelationship.t :=
  filter (fun rel =>
            layoutHas inherited entities (EntityRelationship.from rel) &&
            layoutHas inherited entities (EntityRelationship.to rel))
    (flat_map EntityMetadata.relationships entities).

(** How many edges carry the key [k]. *)
Definition edgesWithKey (k : string) (edges : list EntityRelationship.t)
  : nat :=
  List.length (filter (fun e => relationshipKey e =? k) edges).

(** The entity map after the table pass and the relationship pass of
    [customizationsPass]. *)
Definition entityMapOf (files : list SolutionFile.t)
  (components : list LogicalComponent.t)
  (entityNodes : list Dom.Entity) (relNodes : list Dom.EntityRelationship)
  : Map EntityMetadata.t :=
  fold_left relationshipStep relNodes
    (fst (fold_left (entityStep files) entityNodes ([], components))).

(** Code-unit order as a relation. *)
Definition lebP (a b : string) : Prop := String.leb a b = true.

(** Every entry of the entity map is filed under its logical name. *)
Definition filedByName (m : Map EntityMetadata.t) : Prop :=
  forall k e, In (k, e) m -> EntityMetadata.logicalName e = k.

(** The entity filed under [k] lists the relationship [rel]. *)
Definition attached (k : string) (rel : EntityRelationship.t)
  (m : Map EntityMetadata.t) : Prop :=
  exists e, In (k, e) m /\ In rel (EntityMetadata.relationships e).

(** The pattern of the source read as a language: [privName] is [prv],
    then a word of the action vocabulary, then a remainder free of line
    terminators. *)
Definition matchesActionPattern (privName : string) : Prop :=
  exists act rest,
    In act actionVocabulary /\ privName = ("prv" ++ act ++ rest)%string /\
    dotStarToEnd rest = true.

(** The record each pass looks for before it merges: the [existing] of
    the source. *)
Definition existingRole (components : list LogicalComponent.t)
  (node : Dom.Role) : option LogicalComponent.t :=
  find (fun c => (id c =? optOr (Dom.role_id node) "") &&
                 ComponentType_eqb (type c) SecurityRole) components.

Definition existingTable (components : list LogicalComponent.t)
  (node : Dom.Entity) : option LogicalComponent.t :=
  find (fun c => (logicalName c =? optOr (Dom.en_Name node) "") &&
                 ComponentType_eqb (type c) Table) components.

Definition existingModelApp (components : list LogicalComponent.t)
  (node : Dom.AppModule) : option LogicalComponent.t :=
  find (fun c => (logicalName c =? optOr (Dom.am_UniqueName node) "") &&
                 ComponentType_eqb (type c) ModelApp) components.

Definition existingFlow (components : list LogicalComponent.t)
  (node : Dom.Workflow) : option LogicalComponent.t :=
  find (fun c => id c =? optOr (Dom.wf_WorkflowId node) "") components.

Definition existingCanvasApp (components : list LogicalComponent.t)
  (appMeta : CanvasAppMetadata.t) : option LogicalComponent.t :=
  find (fun c => (logicalName c =? CanvasAppMetadata.name appMeta) ||
                 (id c =? CanvasAppMetadata.appId appMeta)) components.

(** The paths a workflow node contributes to an existing record. *)
Definition flowFilePaths (files : list SolutionFile.t) (node : Dom.Workflow)
  : list string :=
  let fileName := optOr (Dom.wf_FileName node) "" in
  pathsWhere
    (fun p => includes p (if startsWith fileName "/"
                          then substringFrom 1 fileName else fileName))
    files.

(** The extension of a path, as the claim uses the word: the text after
    the last dot of the path (the whole path when it has no dot), in
    lower case. *)
Definition hasExtension (relativePath ext : string) : Prop :=
  exists before last,
    relativePath = (before ++ last)%string /\
    (before = "" \/ exists b, before = (b ++ ".")%string) /\
    (forall a b, last <> (a ++ "." ++ b)%string) /\
    toLowerCase last = ext.

(** The quota-exhaustion signal in the oracle's own terms: the message of
    the error carries the HTTP status code [429] or the status name
    [RESOURCE_EXHAUSTED].  An error without a message carries neither. *)
Definition signalsQuotaExhaustion (error : Gemini.ApiError) : Prop :=
  exists msg before after,
    Gemini.message error = Some msg /\
    (msg = (before ++ "429" ++ after)%string \/
     msg = (before ++ "RESOURCE_EXHAUSTED" ++ after)%string).

(** The oracle's [n]-th call fails and signals quota exhaustion. *)
Definition quotaSignalAt {T : Type} (oracle : nat -> Gemini.ApiError + T)
  (n : nat) : Prop :=
  exists error, oracle n = inl error /\ signalsQuotaExhaustion error.

(** The oracle's [n]-th call fails with a quota-exhaustion condition. *)
Definition quotaFailureAt {T : Type} (oracle : nat -> Gemini.ApiError + T)
  (n : nat) : Prop :=
  exists error,
    oracle n = inl error /\ Gemini.isQuotaExhaustion error = true.

(** The diff of the two versions of the sample bundle. *)
Definition clerkDiff : SolutionDiff.t :=
  Eval cbv in
    match solutionDiff codeUnitCompare Mode_compare (Some clerkBase)
            (Some clerkTarget) with
    | Ok (Some d) => d
    | _ => SolutionDiff.mk (Solution.metadata clerkBase)
             (Solution.metadata clerkTarget) [] (Stats.mk 0 0 0)
    end.

(** *** Sample data: a security role without a [Role] element

    The solution descriptor lists a root component of type 20, the
    archive has no customization descriptor, and one file carries the
    role's id in its path. *)

Definition bareRoleZip (roleXml : string) : list (string * ZipEntry.t) :=
  [ ("solution.xml",
     ZipEntry.mk "solution.xml" false (list_byte_of_string "<ImportExportXml/>"));
    ("Roles/{role-1}.xml",
     ZipEntry.mk "Roles/{role-1}.xml" false (list_byte_of_string roleXml)) ].

Definition bareRoleSolutionXml (_ : string) : Dom.SolutionXml :=
  Dom.mkSolutionXml (Some "Sample") (Some "1.0.0.0") (Some "Sample solution")
    (Some "contoso")
    [ Dom.mkRootComponent (Some "20") (Some "{role-1}") None ].

Definition noCustomizationsXml (_ : string) : Dom.CustomizationsXml :=
  Dom.mkCustomizationsXml [] [] [] [] [].

Definition noCanvasApp (_ : list (string * ZipEntry.t))
  (_ : list SolutionFile.t) (_ : SolutionFile.t)
  : Result CanvasAppMetadata.t :=
  Throw (SyntaxError "Unexpected end of JSON input").

(** The model ingested from [bareRoleZip roleXml]. *)
Definition bareRoleBundle (roleXml : string) : Solution.t :=
  Solution.mk
    [ SolutionFile.mk "solution.xml" "solution.xml" "<ImportExportXml/>" xml;
      SolutionFile.mk "{role-1}.xml" "Roles/{role-1}.xml" roleXml xml ]
    (SolutionMetadata.mk "Sample" "1.0.0.0" "Sample solution" "contoso"
       [mk "{role-1}" "{role-1}" "{role-1}" SecurityRole None
          ["Roles/{role-1}.xml"] None]
       [] (Some [])).

(** The second version of that archive: the role file has changed and
    a flow definition has come in. *)
Definition grownRoleZip : list (string * ZipEntry.t) :=
  bareRoleZip "<Role id='1'/>" ++
  [ ("Workflows/new.json",
     ZipEntry.mk "Workflows/new.json" false (list_byte_of_string "{}")) ].

(** The model ingested from [grownRoleZip]. *)
Definition grownRoleBundle : Solution.t :=
  Solution.mk
    [ SolutionFile.mk "solution.xml" "solution.xml" "<ImportExportXml/>" xml;
      SolutionFile.mk "{role-1}.xml" "Roles/{role-1}.xml" "<Role id='1'/>" xml;
      SolutionFile.mk "new.json" "Workflows/new.json" "{}" json ]
    (SolutionMetadata.mk "Sample" "1.0.0.0" "Sample solution" "contoso"
       [mk "{role-1}" "{role-1}" "{role-1}" SecurityRole None
          ["Roles/{role-1}.xml"] None]
       [] (Some [])).

(** *** Sample data: an archive and its parsed documents *)

Definition sampleEntry (name text : string) : string * ZipEntry.t :=
  (name, ZipEntry.mk name false (list_byte_of_string text)).

Definition sampleZip : list (string * ZipEntry.t) :=
  [ sampleEntry "solution.xml" "<ImportExportXml/>";
    sampleEntry "customizations.xml" "<ImportExportXml/>";
    ("Workflows/", ZipEntry.mk "Workflows/" true []);
    sampleEntry "Workflows/OnCreate-{flow-1}.json" "{}";
    sampleEntry "logo.png" "PNG" ].

Definition sampleSolutionXml (_ : string) : Dom.SolutionXml :=
  Dom.mkSolutionXml (Some "Sample") (Some "1.0.0.0") (Some "Sample solution")
    (Some "contoso")
    [ Dom.mkRootComponent (Some "1") (Some "{table-1}") (Some "account");
      Dom.mkRootComponent (Some "29") (Some "{flow-1}") None;
      Dom.mkRootComponent (Some "26") (Some "{shared}") None ].

Definition sampleRole : Dom.Role :=
  Dom.mkRole (Some "{shared}") (Some "Clerk") (Some "0")
    [ Dom.mkRolePrivilege (Some "prvCreateAccount") (Some "{p-1}")
        (Some "Global") (Some "8");
      Dom.mkRolePrivilege (Some "prvAppendTo") None (Some "Basic") None;
      Dom.mkRolePrivilege (Some "prvGoOffline") None (Some "Basic") None ].

Definition sampleRelationship : Dom.EntityRelationship :=
  Dom.mkEntityRelationship (Some "account_contacts") (Some "OneToMany")
    (Some "account") (Some "contact").

Definition sampleWorkflow : Dom.Workflow :=
  Dom.mkWorkflow (Some "On create") (Some "{flow-1}") None
    (Some "/Workflows/OnCreate-{flow-1}.json").

Definition sampleCustomizationsXml (_ : string) : Dom.CustomizationsXml :=
  Dom.mkCustomizationsXml
    [ sampleRole ]
    [ Dom.mkEntity (Some "account") (Some "Account")
        [ Dom.mkAttribute (Some "name") None (Some "Name") (Some "nvarchar") ];
      Dom.mkEntity (Some "contact") None [] ]
    [ sampleRelationship ]
    []
    [ sampleWorkflow ].

(** Two relationships among three entities whose three strings are the
    same in another arrangement: the first joins account and contact
    and is named lead, the second joins lead and account and is named
    contact. *)
Definition crossedRelationship1 : Dom.EntityRelationship :=
  Dom.mkEntityRelationship (Some "lead") (Some "OneToMany")
    (Some "account") (Some "contact").

Definition crossedRelationship2 : Dom.EntityRelationship :=
  Dom.mkEntityRelationship (Some "contact") (Some "OneToMany")
    (Some "lead") (Some "account").

Definition crossedCustomizationsXml (_ : string) : Dom.CustomizationsXml :=
  Dom.mkCustomizationsXml
    []
    [ Dom.mkEntity (Some "account") None [];
      Dom.mkEntity (Some "contact") None [];
      Dom.mkEntity (Some "lead") None [] ]
    [ crossedRelationship1; crossedRelationship2 ]
    []
    [].

(** The sample archive holds no canvas-app descriptor. *)
Definition sampleReadCanvasApp (_ : list (string * ZipEntry.t))
  (_ : list SolutionFile.t) (_ : SolutionFile.t)
  : Result CanvasAppMetadata.t :=
  Throw (SyntaxError "Unexpected end of JSON input").

Definition sampleSolution : Solution.t :=
  Eval cbv in
    match parseSolutionZip string_of_list_byte sampleSolutionXml
            sampleCustomizationsXml sampleReadCanvasApp sampleZip with
    | Ok solution => solution
    | Throw _ =>
        Solution.mk [] (SolutionMetadata.mk "" "" "" "" [] [] None)
    end.

(** *** The diff engine, entry by entry *)

(** The entry the loop body of [solutionDiff] pushes for [path]: none
    for an unchanged path. *)
Definition entryFor (baseFiles targetFiles : Map SolutionFile.t)
  (baseComps targetComps : Map LogicalComponent.t) (path : string)
  : Result (option FileDiff.t) :=
  let base := Map_get baseFiles path in
  let target := Map_get targetFiles path in
  let status := fileStatus base target in
  if isChanged status then
    match targetOrBase base target with
    | None =>
        Throw (TypeError
                 "Cannot read properties of undefined (reading 'name')")
    | Some file =>
        let baseComp := find (ownsPath path) (Map_values baseComps) in
        let targetComp := find (ownsPath path) (Map_values targetComps) in
        bind (logicalDiffOf baseComp targetComp) (fun logicalDiff =>
        Ok (Some (FileDiff.mk path (SolutionFile.name file) status
                    (option_map SolutionFile.content base)
                    (option_map SolutionFile.content target)
                    (SolutionFile.type file) logicalDiff
                    (metadataOf baseComp) (metadataOf targetComp))))
    end
  else Ok None.

Definition DiffStatus_eqb (a b : DiffStatus) : bool :=
  match a, b with
  | added, added | removed, removed | modified, modified
  | unchanged, unchanged => true
  | _, _ => false
  end.

(** How many entries carry the status [s]. *)
Definition entriesWithStatus (s : DiffStatus) (fileDiffs : list FileDiff.t)
  : nat :=
  List.length (filter (fun fd => DiffStatus_eqb (FileDiff.status fd) s)
                 fileDiffs).

(** The status a path gets when base and target change places. *)
Definition swapStatus (s : DiffStatus) : DiffStatus :=
  match s with
  | added => removed
  | removed => added
  | modified => modified
  | unchanged => unchanged
  end.

(** *** Sample data: one table in two versions of a bundle *)

Definition accountTable (fields : list Field.t) : LogicalComponent.t :=
  mk "account" "Account" "account" Table None ["Entities/account/Entity.xml"]
    (Some (TableMeta (Some fields))).

Definition accountBundle (entityXml : string) (fields : list Field.t)
  : Solution.t :=
  Solution.mk
    [SolutionFile.mk "Entity.xml" "Entities/account/Entity.xml" entityXml xml;
     SolutionFile.mk "logo.png" "logo.png" "PNG" other]
    (SolutionMetadata.mk "Sample" "1.0.0.0" "Sample" "contoso"
       [accountTable fields] [] (Some [])).

Definition accountBase : Solution.t :=
  accountBundle "<Entity v='1'/>"
    [Field.mk "id" "Id" "uniqueidentifier"; Field.mk "name" "Name" "string"].

Definition accountTarget : Solution.t :=
  accountBundle "<Entity v='2'/>"
    [Field.mk "id" "Id" "uniqueidentifier"; Field.mk "name" "Name" "memo";
     Field.mk "email" "Email" "string"].

Definition accountDiff : SolutionDiff.t :=
  Eval cbv in
    match solutionDiff codeUnitCompare Mode_compare (Some accountBase)
            (Some accountTarget) with
    | Ok (Some d) => d
    | _ => SolutionDiff.mk (Solution.metadata accountBase)
             (Solution.metadata accountTarget) [] (Stats.mk 0 0 0)
    end.

(** *** What the ingested components keep *)

(** The kind of metadata a component carries is the one its type
    announces: what the casts of the consumers rely on. *)
Definition metadataFitsType (c : LogicalComponent.t) : Prop :=
  match metadata c with
  | Some (RoleMeta _) => type c = SecurityRole
  | Some (TableMeta _) => type c = Table
  | Some (ModelMeta _) => type c = ModelApp
  | Some (CanvasMeta _) => type c = App
  | None => True
  end.

(** Every path a component lists is the path of a file of the bundle. *)
Definition filesAmong (bundleFiles : list SolutionFile.t)
  (c : LogicalComponent.t) : Prop :=
  forall x, In x (LogicalComponent.files c) -> hasPath bundleFiles x.

(** Every relationship an entry of the entity map lists has two
    non-empty ends, one of which is the key of the entry. *)
Definition relationshipsTouch (m : Map EntityMetadata.t) : Prop :=
  forall k e r,
    In (k, e) m -> In r (EntityMetadata.relationships e) ->
    EntityRelationship.from r <> "" /\ EntityRelationship.to r <> "" /\
    (EntityRelationship.from r = k \/ EntityRelationship.to r = k).

(* ===================================================================== *)
(** ** The grid of the schema view ([components/SchemaVisualizer.tsx],
       [layout]) *)
(* ===================================================================== *)

(** [Math.ceil(Math.sqrt(n))] for an array length [n]: the least [k]
    with [n <= k * k].  The square root of a double is correctly
    rounded, and for [n] below [2^32] the rounded root of a non-square
    stays strictly between two integers, so the ceiling is exact. *)
Definition ceilSqrt (n : nat) : nat :=
  let s := Nat.sqrt n in
  if (s * s =? n)%nat then s else S s.

Module Point.
Record t : Type := mk { x : nat; y : nat }.
End Point.

(** [Math.max(3, Math.ceil(Math.sqrt(entities.length)))] *)
Definition gridColumns (entities : list EntityMetadata.t) : nat :=
  Nat.max 3 (ceilSqrt (List.length entities)).

(** The callback of [entities.reduce((acc, entity, i) => ...)], with
    the index carried along. *)
Definition layoutStep (cols : nat) (st : Map Point.t * nat)
  (entity : EntityMetadata.t) : Map Point.t * nat :=
  let '(acc, i) := st in
  let spacingX := 400 in
  let spacingY := 300 in
  (Map_set acc (EntityMetadata.logicalName entity)
     (Point.mk ((i mod cols) * spacingX) ((i / cols) * spacingY)),
   S i).

(** [layout]; [Map_get (layout entities) k] is [layout[k]] for [k] the
    logical name of an entity. *)
Definition layout (entities : list EntityMetadata.t) : Map Point.t :=
  fst (fold_left (layoutStep (gridColumns entities)) entities ([], 0)).

(* ===================================================================== *)
(** ** The component tree ([components/Explorer.tsx]) *)
(* ===================================================================== *)

Section Explorer.
(** The text the value of the inherited property [k] turns into when it
    is used as a property key ([String(v)]): the source text of a native
    function, or ["[object Object]"]. *)
Variable inheritedName : string -> string.
(** [a.localeCompare(b)], the collation of the host. *)
Variable localeCompare : string -> string -> Z.

(** The string a [ComponentType] is, or turns into as a key. *)
Definition typeName (ty : ComponentType) : string :=
  match ty with
  | App => "App" | ModelApp => "ModelApp" | Flow => "Flow"
  | Table => "Table" | WebResource => "WebResource" | EnvVar => "EnvVar"
  | Plugin => "Plugin" | SecurityRole => "SecurityRole"
  | Sitemap => "Sitemap" | ConnectionRef => "ConnectionRef"
  | CustomControl => "CustomControl" | Other => "Other"
  | Inherited k => inheritedName k
  end.

(** The key [comp.type || 'Other'] selects in [groups]. *)
Definition typeKey (comp : LogicalComponent.t) : string :=
  match LogicalComponent.type comp with
  | Inherited k => inheritedName k
  | ty => orElse (typeName ty) "Other"
  end.

(** The type is one of the twelve strings of the declared union. *)
Definition isDeclaredType (ty : ComponentType) : bool :=
  match ty with
  | Inherited _ => false
  | _ => true
  end.

(** [if (!groups[type]) groups[type] = []; groups[type].push(comp)] on
    the record [groups], whose own keys are kept in insertion order. *)
Definition groupStep (groups : Map (list LogicalComponent.t))
  (comp : LogicalComponent.t) : Map (list LogicalComponent.t) :=
  let type := typeKey comp in
  match Map_get groups type with
  | None => Map_set groups type [comp]
  | Some comps => Map_set groups type (comps ++ [comp])
  end.

Definition grouped (components : list LogicalComponent.t)
  : Map (list LogicalComponent.t) :=
  fold_left groupStep components [].

(** The predicate of [comps.filter] in [filteredGroups]. *)
Definition matchesSearch (lower : string) (c : LogicalComponent.t) : bool :=
  includes (toLowerCase (displayName c)) lower ||
  includes (toLowerCase (logicalName c)) lower.

Definition filteredGroups (searchTerm : string)
  (grouped : Map (list LogicalComponent.t))
  : Map (list LogicalComponent.t) :=
  let lower := toLowerCase searchTerm in
  fold_left
    (fun filtered entry =>
       let '(type, comps) := entry in
       let matched := filter (matchesSearch lower) comps in
       if (0 <? List.length matched)%nat then Map_set filtered type matched
       else filtered)
    grouped [].

Definition sectionOrder : list string :=
  ["App"; "ModelApp"; "Flow"; "Table"; "WebResource"; "EnvVar"; "Plugin";
   "SecurityRole"; "Sitemap"; "ConnectionRef"; "CustomControl"; "Other"].

(** [comps.sort((a, b) => a.displayName.localeCompare(b.displayName))];
    the sort of an array is stable. *)
Fixpoint insertByDisplayName (c : LogicalComponent.t)
  (l : list LogicalComponent.t) : list LogicalComponent.t :=
  match l with
  | [] => [c]
  | y :: r =>
      if (localeCompare (displayName c) (displayName y) <=? 0)%Z
      then c :: l else y :: insertByDisplayName c r
  end.

Definition sortByDisplayName (l : list LogicalComponent.t)
  : list LogicalComponent.t :=
  fold_right insertByDisplayName [] l.

(** What one section of the tree shows: its type, the number in its
    badge ([comps.length]), whether it is open, and the components it
    lists (none when it is closed). *)
Record TreeSection : Type := mkTreeSection
  { sectionType : string;
    badge : nat;
    isExpanded : bool;
    listed : list LogicalComponent.t }.

(** The callback of [sectionOrder.map(type => ...)].  The state is the
    memoised [filteredGroups], whose arrays the sort mutates in place,
    and the sections rendered so far. *)
Definition renderSection (expandedSections : list string)
  (searchTerm : string)
  (st : Map (list LogicalComponent.t) * list TreeSection)
  (type : string) : Map (list LogicalComponent.t) * list TreeSection :=
  let '(filteredGroups, rendered) := st in
  match Map_get filteredGroups type with
  | None => st
  | Some comps =>
      let isExpanded :=
        Set_has expandedSections type || (0 <? String.length searchTerm)%nat in
      if isExpanded then
        let sorted := sortByDisplayName comps in
        (Map_set filteredGroups type sorted,
         rendered ++ [mkTreeSection type (List.length comps) true sorted])
      else
        (filteredGroups,
         rendered ++ [mkTreeSection type (List.length comps) false []])
  end.

Definition renderTree (expandedSections : list string) (searchTerm : string)
  (filteredGroups : Map (list LogicalComponent.t))
  : Map (list LogicalComponent.t) * list TreeSection :=
  fold_left (renderSection expandedSections searchTerm) sectionOrder
    (filteredGroups, []).
End Explorer.

(** Ascending order of two components under the comparator of the
    sort. *)
Definition displayNameLe (localeCompare : string -> string -> Z)
  (a b : LogicalComponent.t) : Prop :=
  (localeCompare (displayName a) (displayName b) <= 0)%Z.

(** The source text of a native function, as the usual engines print
    it. *)
Definition nativeFunctionText (k : string) : string :=
  "function " ++ k ++ "() { [native code] }".

(* ===================================================================== *)
(** ** The assistant panel ([services/geminiService.ts], [sendMessage];
       [App.tsx], [handleSendMessage]) *)
(* ===================================================================== *)

(** The code units below 256 that [trim] removes. *)
Definition isWhiteSpace (c : ascii) : bool :=
  let n := nat_of_ascii c in
  (((9 <=? n) && (n <=? 13)) || (n =? 32) || (n =? 160))%nat.

Fixpoint trimStart (s : string) : string :=
  match s with
  | EmptyString => EmptyString
  | String c r => if isWhiteSpace c then trimStart r else s
  end.

Fixpoint trimEnd (s : string) : string :=
  match s with
  | EmptyString => EmptyString
  | String c r =>
      let r' := trimEnd r in
      if isWhiteSpace c && (r' =? "") then EmptyString else String c r'
  end.

(** [s.trim()] *)
Definition trim (s : string) : string := trimEnd (trimStart s).

(** A number in a template literal. *)
Definition numberToString (n : nat) : string :=
  NilEmpty.string_of_uint (Nat.to_uint n).

Inductive ChatRole : Type := user | model.

Module ChatMessage.
Record t : Type := mk { role : ChatRole; text : string }.
End ChatMessage.

Module Chat.

(** What the handler reads of a [GenerateContentResponse]: its [text]. *)
Record Response : Type := mkResponse { text : option string }.

(** The three state variables of [App] the handler writes. *)
Record State : Type := mkState
  { chatHistory : list ChatMessage.t;
    isChatLoading : bool;
    isQuotaExhausted : bool }.

Section Assistant.
(** The outcome of the [n]-th call of [chat.sendMessage({ message })]. *)
Variable oracle : string -> nat -> Gemini.ApiError + Response.

(** [GeminiService.sendMessage]: the retry loop with its default
    [retries] and [delay]. *)
Definition sendMessage (message : string) (w : Gemini.World)
  : (Gemini.Thrown + Response) * Gemini.World :=
  Gemini.executeWithRetry Response (oracle message) 3 1000 w.

(** What the handler closes over: whether a service exists, the mode,
    the memoised diff, the base solution and the selected component. *)
Variable gemini : bool.
Variable appMode : AppMode.
Variable diff : option SolutionDiff.t.
Variable baseSolution : option Solution.t.
Variable selectedComponent : option LogicalComponent.t.

Definition promptFor (message : string) : string :=
  match appMode, diff, baseSolution with
  | Mode_compare, Some d, _ =>
      "Comparing "
      ++ SolutionMetadata.localizedName (SolutionDiff.oldMetadata d)
      ++ " vs "
      ++ SolutionMetadata.localizedName (SolutionDiff.newMetadata d)
      ++ ".
        Changes: "
      ++ numberToString (Stats.added (SolutionDiff.stats d)) ++ " added, "
      ++ numberToString (Stats.removed (SolutionDiff.stats d))
      ++ " removed, "
      ++ numberToString (Stats.modified (SolutionDiff.stats d))
      ++ " modified.
        Question: " ++ message
  | _, _, Some b =>
      "Analyzing solution "
      ++ SolutionMetadata.localizedName (Solution.metadata b)
      ++ ". Context: "
      ++ match selectedComponent with
         | Some c => displayName c
         | None => "Global"
         end
      ++ ". Question: " ++ message
  | _, _, None => message
  end.

Definition pushMessage (m : ChatMessage.t) (st : State) : State :=
  mkState (chatHistory st ++ [m]) (isChatLoading st) (isQuotaExhausted st).
Definition setIsChatLoading (b : bool) (st : State) : State :=
  mkState (chatHistory st) b (isQuotaExhausted st).
Definition setIsQuotaExhausted (b : bool) (st : State) : State :=
  mkState (chatHistory st) (isChatLoading st) b.

Definition handleSendMessage (message : string) (st : State)
  (w : Gemini.World) : State * Gemini.World :=
  if negb gemini || negb (truthy (trim message)) then (st, w)
  else
    let st := pushMessage (ChatMessage.mk user message) st in
    let st := setIsChatLoading true st in
    let prompt := promptFor message in
    let '(outcome, w) := sendMessage prompt w in
    let st :=
      match outcome with
      | inr response =>
          pushMessage (ChatMessage.mk model (optOr (text response) "No response"))
            st
      | inl error =>
          let st :=
            match error with
            | Gemini.QuotaError _ => setIsQuotaExhausted true st
            | Gemini.Rethrown _ => st
            end in
          pushMessage (ChatMessage.mk model "Communication error.") st
      end in
    (setIsChatLoading false st, w).
End Assistant.
End Chat.

(* ===================================================================== *)
(** ** The file shown for a component ([App.tsx], [getActiveFile]) *)
(* ===================================================================== *)

(** The object returned when no file of the bundle is at the main path. *)
Definition placeholderFile (selectedComponent : LogicalComponent.t)
  : SolutionFile.t :=
  SolutionFile.mk (displayName selectedComponent) "logical-component" "" other.

Definition getActiveFile (selectedComponent : option LogicalComponent.t)
  (baseSolution : option Solution.t) : option SolutionFile.t :=
  match selectedComponent, baseSolution with
  | Some selected, Some base =>
      let mainPath := nth_error (LogicalComponent.files selected) 0 in
      match find (fun f => optString_eqb (Some (SolutionFile.path f)) mainPath)
              (Solution.files base) with
      | Some f => Some f
      | None => Some (placeholderFile selected)
      end
  | _, _ => None
  end.

(* ===================================================================== *)
(** * Properties *)
(* ===================================================================== *)

(** ** Facts about the run-time helpers *)

Section ArrayFacts.
Context {A : Type}.
Implicit Types (p : A -> bool) (l : list A).

Lemma findIndex_bound p l i : findIndex p l = Some i -> i < List.length l.
Proof.
  revert i; induction l as [|x r IH]; simpl; intros i H; [discriminate|].
  destruct (p x).
  - injection H as <-. lia.
  - destruct (findIndex p r) as [j|]; [|discriminate].
    injection H as <-. specialize (IH j eq_refl). lia.
Qed.

Lemma findIndex_None p l : findIndex p l = None <-> existsb p l = false.
Proof.
  induction l as [|x r IH]; simpl; [tauto|].
  destruct (p x); simpl.
  - split; discriminate.
  - destruct (findIndex p r); rewrite <- IH; split; congruence.
Qed.

Lemma findIndex_app p l1 l2 :
  findIndex p (l1 ++ l2) =
  match findIndex p l1 with
  | Some i => Some i
  | None => option_map (Nat.add (List.length l1)) (findIndex p l2)
  end.
Proof.
  induction l1 as [|x r IH]; simpl.
  - destruct (findIndex p l2); reflexivity.
  - destruct (p x); [reflexivity|]. rewrite IH.
    destruct (findIndex p r); [reflexivity|].
    destruct (findIndex p l2); reflexivity.
Qed.

Lemma find_None_existsb p l : find p l = None <-> existsb p l = false.
Proof.
  induction l as [|x r IH]; simpl; [tauto|].
  destruct (p x); simpl; [split; discriminate | exact IH].
Qed.

Lemma find_app p l1 l2 :
  find p (l1 ++ l2) =
  match find p l1 with
  | Some x => Some x
  | None => find p l2
  end.
Proof.
  induction l1 as [|x r IH]; simpl; [reflexivity|].
  destruct (p x); [reflexivity | exact IH].
Qed.

(** [find] splits the array at the first match. *)
Lemma find_split p l x :
  find p l = Some x ->
  exists l1 l2, l = l1 ++ x :: l2 /\ p x = true /\ existsb p l1 = false.
Proof.
  induction l as [|y r IH]; simpl; [discriminate|].
  destruct (p y) eqn:Hy; intros H.
  - injection H as <-. exists [], r. auto.
  - destruct (IH H) as (l1 & l2 & -> & Hx & Hl1).
    exists (y :: l1), l2. simpl. rewrite Hy. auto.
Qed.

Lemma updateFirst_split p (f : A -> A) l1 x l2 :
  existsb p l1 = false -> p x = true ->
  updateFirst p f (l1 ++ x :: l2) = l1 ++ f x :: l2.
Proof.
  induction l1 as [|y r IH]; simpl; intros H Hx.
  - now rewrite Hx.
  - apply orb_false_iff in H as [Hy Hr]. rewrite Hy. f_equal. auto.
Qed.
End ArrayFacts.

(** *** The insertion-ordered [Set] *)

Lemma Set_has_In s x : Set_has s x = true <-> In x s.
Proof.
  unfold Set_has. rewrite existsb_exists. split.
  - intros (y & Hy & E). apply String.eqb_eq in E. now subst.
  - intros H. exists x. split; [assumption | apply String.eqb_refl].
Qed.

Lemma Set_has_false s x : Set_has s x = false <-> ~ In x s.
Proof.
  rewrite <- Set_has_In. destruct (Set_has s x); split; congruence.
Qed.

Lemma Set_add_In s x y : In y (Set_add s x) <-> In y s \/ y = x.
Proof.
  unfold Set_add. destruct (Set_has s x) eqn:E.
  - apply Set_has_In in E. split; [tauto|]. intros [H| ->]; assumption.
  - rewrite in_app_iff. simpl. split; intros [H|H]; auto.
    + destruct H as [<-|[]]. auto.
Qed.

Lemma Set_add_NoDup s x : NoDup s -> NoDup (Set_add s x).
Proof.
  intros H. unfold Set_add. destruct (Set_has s x) eqn:E; [assumption|].
  apply Set_has_false in E.
  apply NoDup_rev in H. rewrite <- (rev_involutive (s ++ [x])).
  apply NoDup_rev. rewrite rev_app_distr. simpl. constructor.
  - now rewrite <- in_rev.
  - assumption.
Qed.

Lemma fold_Set_add_In arr s y :
  In y (fold_left Set_add arr s) <-> In y s \/ In y arr.
Proof.
  revert s; induction arr as [|x r IH]; simpl; intros s; [tauto|].
  rewrite IH, Set_add_In. intuition (subst; auto).
Qed.

Lemma fold_Set_add_NoDup arr s : NoDup s -> NoDup (fold_left Set_add arr s).
Proof.
  revert s; induction arr as [|x r IH]; simpl; intros s H; [assumption|].
  apply IH, Set_add_NoDup, H.
Qed.

Lemma Set_from_In arr y : In y (Set_from arr) <-> In y arr.
Proof. unfold Set_from. rewrite fold_Set_add_In. simpl. tauto. Qed.

Lemma Set_from_NoDup arr : NoDup (Set_from arr).
Proof. apply fold_Set_add_NoDup. constructor. Qed.

(** Adding elements that are already there changes nothing. *)
Lemma fold_Set_add_absorb arr s :
  (forall x, In x arr -> In x s) -> fold_left Set_add arr s = s.
Proof.
  revert s; induction arr as [|x r IH]; simpl; intros s H; [reflexivity|].
  assert (E : Set_add s x = s).
  { unfold Set_add. replace (Set_has s x) with true; [reflexivity|].
    symmetry. apply Set_has_In. auto. }
  rewrite E. apply IH. auto.
Qed.

(** A duplicate-free array is the array of its own [Set]. *)
Lemma fold_Set_add_fresh arr s :
  NoDup (s ++ arr) -> fold_left Set_add arr s = s ++ arr.
Proof.
  revert s; induction arr as [|x r IH]; simpl; intros s H.
  - now rewrite app_nil_r.
  - assert (Hx : ~ In x s).
    { apply NoDup_remove_2 in H. rewrite in_app_iff in H. tauto. }
    unfold Set_add at 2. replace (Set_has s x) with false
      by (symmetry; now apply Set_has_false).
    rewrite IH; rewrite <- app_assoc; simpl; [reflexivity | assumption].
Qed.

Lemma Set_from_NoDup_id arr : NoDup arr -> Set_from arr = arr.
Proof. intros H. unfold Set_from. now rewrite fold_Set_add_fresh. Qed.

Lemma Set_from_app arr1 arr2 :
  Set_from (arr1 ++ arr2) = fold_left Set_add arr2 (Set_from arr1).
Proof. unfold Set_from. apply fold_left_app. Qed.

(** *** The insertion-ordered [Map] *)

Section MapFacts.
Context {V : Type}.
Implicit Types (m : Map V) (k : string) (v : V).

Lemma Map_get_set m k v k' :
  Map_get (Map_set m k v) k' = if k =? k' then Some v else Map_get m k'.
Proof.
  induction m as [|[k1 v1] r IH]; simpl.
  - reflexivity.
  - destruct (k1 =? k) eqn:E1; simpl.
    + apply String.eqb_eq in E1. subst k1.
      destruct (k =? k'); reflexivity.
    + rewrite IH. destruct (k1 =? k') eqn:E2; [|reflexivity].
      apply String.eqb_eq in E2. subst k1. now rewrite String.eqb_sym, E1.
Qed.

Lemma Map_keys_set m k v x :
  In x (Map_keys (Map_set m k v)) <-> In x (Map_keys m) \/ x = k.
Proof.
  unfold Map_keys. induction m as [|[k1 v1] r IH]; simpl.
  - intuition.
  - destruct (k1 =? k) eqn:E1; simpl.
    + apply String.eqb_eq in E1. subst k1. intuition.
    + rewrite IH. intuition.
Qed.

Lemma Map_keys_set_NoDup m k v :
  NoDup (Map_keys m) -> NoDup (Map_keys (Map_set m k v)).
Proof.
  unfold Map_keys. induction m as [|[k1 v1] r IH]; simpl; intros H.
  - constructor; [tauto | constructor].
  - inversion H as [|? ? Hk1 Hr]; subst.
    destruct (k1 =? k) eqn:E1; simpl.
    + apply String.eqb_eq in E1. subst k1. now constructor.
    + constructor; [|auto].
      intros Hin. apply (Map_keys_set r k v k1) in Hin.
      apply String.eqb_neq in E1. destruct Hin; [tauto | congruence].
Qed.

Lemma Map_get_None m k : Map_get m k = None <-> ~ In k (Map_keys m).
Proof.
  unfold Map_keys. induction m as [|[k1 v1] r IH]; simpl; [tauto|].
  destruct (k1 =? k) eqn:E1.
  - apply String.eqb_eq in E1. split; [discriminate | tauto].
  - apply String.eqb_neq in E1. rewrite IH. tauto.
Qed.

Lemma Map_get_In m k v : Map_get m k = Some v -> In (k, v) m.
Proof.
  induction m as [|[k1 v1] r IH]; simpl; [discriminate|].
  destruct (k1 =? k) eqn:E1; intros H.
  - apply String.eqb_eq in E1. injection H as <-. subst. now left.
  - right. auto.
Qed.

Lemma Map_set_In m k v k' v' :
  In (k', v') (Map_set m k v) -> In (k', v') m \/ (k', v') = (k, v).
Proof.
  induction m as [|[k1 v1] r IH]; simpl.
  - intros [H|[]]. now right.
  - destruct (k1 =? k); simpl; intros [H|H]; auto.
    destruct (IH H); auto.
Qed.

Section FromEntries.
Variable key : V -> string.

(** [new Map(arr.map(x => [key(x), x]))] *)
Let index (arr : list V) (m : Map V) : Map V :=
  fold_left (fun m kv => Map_set m (fst kv) (snd kv))
    (map (fun x => (key x, x)) arr) m.

Lemma Map_index_keys arr m x :
  In x (Map_keys (index arr m)) <-> In x (Map_keys m) \/ In x (map key arr).
Proof.
  subst index. revert m; induction arr as [|a r IH]; simpl; intros m.
  - tauto.
  - rewrite IH, Map_keys_set. intuition.
Qed.

Lemma Map_index_keys_NoDup arr m :
  NoDup (Map_keys m) -> NoDup (Map_keys (index arr m)).
Proof.
  subst index. revert m; induction arr as [|a r IH]; simpl; intros m H.
  - assumption.
  - apply IH, Map_keys_set_NoDup, H.
Qed.

Lemma Map_index_values arr m k v :
  In (k, v) (index arr m) -> In (k, v) m \/ (In v arr /\ key v = k).
Proof.
  subst index. revert m; induction arr as [|a r IH]; simpl;
    intros m H.
  - now left.
  - destruct (IH _ H) as [H1|[H1 H2]].
    + apply Map_set_In in H1 as [H1|H1]; [now left|].
      injection H1 as -> ->. right. auto.
    + right. auto.
Qed.
End FromEntries.

Lemma Map_from_keys (key : V -> string) arr x :
  In x (Map_keys (Map_from (map (fun a => (key a, a)) arr))) <->
  In x (map key arr).
Proof.
  unfold Map_from. rewrite Map_index_keys. simpl. tauto.
Qed.

Lemma Map_from_keys_NoDup (key : V -> string) arr :
  NoDup (Map_keys (Map_from (map (fun a => (key a, a)) arr))).
Proof. unfold Map_from. apply Map_index_keys_NoDup. constructor. Qed.

Lemma Map_from_get_Some (key : V -> string) arr k v :
  Map_get (Map_from (map (fun a => (key a, a)) arr)) k = Some v ->
  In v arr /\ key v = k.
Proof.
  intros H. apply Map_get_In in H. unfold Map_from in H.
  apply Map_index_values in H. destruct H as [[]|H]. exact H.
Qed.

Lemma Map_from_get_None (key : V -> string) arr k :
  Map_get (Map_from (map (fun a => (key a, a)) arr)) k = None <->
  ~ In k (map key arr).
Proof. rewrite Map_get_None, Map_from_keys. tauto. Qed.
End MapFacts.

(** ** The final deduplication of [components] *)

Lemma existsb_id_Set_has (pre : list LogicalComponent.t) (x : LogicalComponent.t) :
  existsb (fun t => id t =? id x) pre = Set_has (map id pre) (id x).
Proof.
  unfold Set_has. induction pre as [|y r IH]; simpl; [reflexivity|].
  rewrite IH. now rewrite (String.eqb_sym (id y) (id x)).
Qed.

Lemma firstById_ext s1 s2 l :
  (forall z, Set_has s1 z = Set_has s2 z) -> firstById s1 l = firstById s2 l.
Proof.
  revert s1 s2; induction l as [|c l IHl]; intros s1 s2 Hs; simpl;
    [reflexivity|].
  rewrite (Hs (id c)). destruct (Set_has s2 (id c)); [now apply IHl|].
  f_equal. apply IHl. intros z. unfold Set_has in *.
  rewrite !existsb_app. now rewrite Hs.
Qed.

Lemma firstById_absorb seen a l :
  Set_has seen a = true -> firstById (seen ++ [a]) l = firstById seen l.
Proof.
  intros Ha. apply firstById_ext. intros z. unfold Set_has in *.
  rewrite existsb_app. simpl. rewrite orb_false_r.
  destruct (z =? a) eqn:E; [|now rewrite orb_false_r].
  apply String.eqb_eq in E. subst z. now rewrite Ha.
Qed.

Lemma dedup_suffix (pre suf : list LogicalComponent.t) :
  filterIdx
    (fun v i =>
       match findIndex (fun t => id t =? id v) (pre ++ suf) with
       | Some j => (j =? i)%nat
       | None => false
       end)
    (List.length pre) suf
  = firstById (map id pre) suf.
Proof.
  revert pre; induction suf as [|x r IH]; intros pre; simpl; [reflexivity|].
  rewrite findIndex_app. simpl. rewrite String.eqb_refl. simpl.
  rewrite <- existsb_id_Set_has.
  specialize (IH (pre ++ [x])).
  rewrite <- app_assoc, length_app, map_app in IH. simpl in IH.
  replace (List.length pre + 1) with (S (List.length pre)) in IH by lia.
  destruct (findIndex (fun t => id t =? id x) pre) as [j|] eqn:E.
  - assert (Hj := findIndex_bound _ _ _ E).
    replace (j =? List.length pre)%nat with false
      by (symmetry; apply Nat.eqb_neq; lia).
    assert (Hex : existsb (fun t => id t =? id x) pre = true).
    { destruct (existsb (fun t => id t =? id x) pre) eqn:E'; [reflexivity|].
      apply findIndex_None in E'. congruence. }
    rewrite Hex, IH. apply firstById_absorb.
    now rewrite <- existsb_id_Set_has.
  - rewrite Nat.add_0_r, Nat.eqb_refl.
    apply findIndex_None in E. rewrite E. f_equal. exact IH.
Qed.

Lemma dedupComponents_firstById components :
  dedupComponents components = firstById [] components.
Proof. exact (dedup_suffix [] components). Qed.

Lemma firstById_In seen l c :
  In c (firstById seen l) -> In c l /\ ~ In (id c) seen.
Proof.
  revert seen; induction l as [|x r IH]; simpl; intros seen H; [tauto|].
  destruct (Set_has seen (id x)) eqn:E.
  - destruct (IH _ H). tauto.
  - destruct H as [<-|H].
    + apply Set_has_false in E. tauto.
    + destruct (IH _ H) as [H1 H2]. rewrite in_app_iff in H2. tauto.
Qed.

Lemma firstById_NoDup seen l : NoDup (map id (firstById seen l)).
Proof.
  revert seen; induction l as [|x r IH]; simpl; intros seen; [constructor|].
  destruct (Set_has seen (id x)); [apply IH|].
  simpl. constructor; [|apply IH].
  rewrite in_map_iff. intros (c & Hc & Hin).
  apply firstById_In in Hin as [_ Hin]. apply Hin.
  rewrite in_app_iff. simpl. auto.
Qed.

(** Every kept component is the first of the array with its id. *)
Lemma firstById_first seen l c :
  In c (firstById seen l) -> find (fun t => id t =? id c) l = Some c.
Proof.
  revert seen; induction l as [|x r IH]; simpl; intros seen H; [tauto|].
  destruct (Set_has seen (id x)) eqn:E.
  - destruct (id x =? id c) eqn:Exc.
    + apply String.eqb_eq in Exc. apply firstById_In in H as [_ H].
      apply Set_has_In in E. rewrite Exc in E. tauto.
    + eauto.
  - destruct H as [<-|H].
    + now rewrite String.eqb_refl.
    + destruct (id x =? id c) eqn:Exc; [|eauto].
      apply String.eqb_eq in Exc. apply firstById_In in H as [_ H].
      exfalso. apply H. rewrite in_app_iff. simpl. auto.
Qed.

(** No id is lost. *)
Lemma firstById_complete seen l c :
  In c l -> ~ In (id c) seen ->
  exists c', In c' (firstById seen l) /\ id c' = id c.
Proof.
  revert seen; induction l as [|x r IH]; simpl; intros seen H Hs; [tauto|].
  destruct (Set_has seen (id x)) eqn:E.
  - destruct H as [->|H]; [|eauto].
    apply Set_has_In in E. tauto.
  - destruct (String.eqb_spec (id x) (id c)) as [Exc|Exc].
    + exists x. simpl. auto.
    + destruct H as [->|H]; [congruence|].
      destruct (IH (seen ++ [id x]) H) as (c' & H1 & H2).
      * rewrite in_app_iff. simpl. intuition congruence.
      * exists c'. simpl. auto.
Qed.

(** A component is kept exactly when it is the first of the array to
    carry its id. *)
Lemma firstById_iff l c :
  In c (firstById [] l) <-> find (fun t => id t =? id c) l = Some c.
Proof.
  split; [apply firstById_first|].
  intros H. pose proof (find_some _ _ H) as [Hin _].
  destruct (firstById_complete [] l c Hin (fun F => F)) as (c' & Hc' & E).
  pose proof (firstById_first _ _ _ Hc') as H'. rewrite E in H'.
  congruence.
Qed.

(** C3.  Whatever the bundle, when [parseSolutionZip] returns a
    [SolutionMetadata], no two entries of its final [components] share
    an [id]: the list is the result of the final pass over the array the
    passes have reconciled, and that pass keeps, in their order, exactly
    the components that are the first of the array to carry their [id]
    (first occurrence wins), so every id of the array is still there. *)
Theorem parseSolutionZip_component_ids_unique :
  forall decodeString parseSolutionXml parseCustomizationsXml readCanvasApp
         zip solution,
    parseSolutionZip decodeString parseSolutionXml parseCustomizationsXml
      readCanvasApp zip = Ok solution ->
    let final := SolutionMetadata.components (Solution.metadata solution) in
    NoDup (map LogicalComponent.id final) /\
    exists components,
      reconciledComponents decodeString parseSolutionXml
        parseCustomizationsXml readCanvasApp zip = Ok components /\
      final = dedupComponents components /\
      final = firstById [] components /\
      (forall c, In c final <->
                 find (fun t => LogicalComponent.id t =? LogicalComponent.id c)
                   components = Some c) /\
      (forall c, In c components ->
                 exists c', In c' final /\
                            LogicalComponent.id c' = LogicalComponent.id c).
Proof.
  intros dS pS pC rC zip solution.
  unfold parseSolutionZip, reconciledComponents.
  destruct (solutionPass pS (collectFiles dS zip) []) as [md cs0].
  destruct (customizationsPass pC (collectFiles dS zip) cs0) as [em cs1].
  destruct (canvasPass rC zip (collectFiles dS zip) ([], cs1))
    as [[apps cs2]|e]; simpl; [|discriminate].
  intros H. injection H as <-. simpl.
  rewrite dedupComponents_firstById. split; [apply firstById_NoDup|].
  exists cs2. split; [reflexivity|].
  split; [symmetry; apply dedupComponents_firstById|].
  split; [reflexivity|]. split.
  - intros c. apply firstById_iff.
  - intros c Hc. apply firstById_complete; [assumption | tauto].
Qed.

(** ** The diff engine *)

Lemma fileStatus_added base target :
  fileStatus base target = added <-> base = None /\ target <> None.
Proof.
  destruct base as [b|], target as [t|]; simpl;
    try destruct (negb _); split; try discriminate; try tauto;
    try (intros [H1 H2]; congruence);
    try (intros _; split; congruence).
Qed.

Lemma fileStatus_removed base target :
  fileStatus base target = removed <-> base <> None /\ target = None.
Proof.
  destruct base as [b|], target as [t|]; simpl;
    try destruct (negb _); split; try discriminate; try tauto;
    try (intros [H1 H2]; congruence);
    try (intros _; split; congruence).
Qed.

Lemma fileStatus_modified base target :
  fileStatus base target = modified <->
  exists b t, base = Some b /\ target = Some t /\
              SolutionFile.content b <> SolutionFile.content t.
Proof.
  destruct base as [b|], target as [t|]; simpl.
  - destruct (String.eqb_spec (SolutionFile.content b)
                (SolutionFile.content t)) as [E|E]; simpl.
    + split; [discriminate|]. intros (b' & t' & Hb & Ht & Hne).
      congruence.
    + split; [|reflexivity]. intros _. exists b, t. auto.
  - split; [discriminate|]. intros (b' & t' & _ & Ht & _). discriminate.
  - split; [discriminate|]. intros (b' & t' & Hb & _). discriminate.
  - split; [discriminate|]. intros (b' & t' & Hb & _). discriminate.
Qed.

Lemma fileStatus_unchanged base target :
  fileStatus base target = unchanged <->
  (base = None /\ target = None) \/
  (exists b t, base = Some b /\ target = Some t /\
               SolutionFile.content b = SolutionFile.content t).
Proof.
  destruct base as [b|], target as [t|]; simpl.
  - destruct (String.eqb_spec (SolutionFile.content b)
                (SolutionFile.content t)) as [E|E]; simpl.
    + split; [|reflexivity]. intros _. right. exists b, t. auto.
    + split; [discriminate|].
      intros [[H _]|(b' & t' & Hb & Ht & He)]; congruence.
  - split; [discriminate|].
    intros [[H _]|(b' & t' & _ & Ht & _)]; discriminate.
  - split; [discriminate|].
    intros [[_ H]|(b' & t' & Hb & _)]; discriminate.
  - split; auto.
Qed.

Lemma countStatus_fileDiffs s st :
  Loop.fileDiffs (countStatus s st) = Loop.fileDiffs st.
Proof. destruct s; reflexivity. Qed.

Section DiffLoopFacts.
Variables baseFiles targetFiles : Map SolutionFile.t.
Variables baseComps targetComps : Map LogicalComponent.t.

Let body := diffPath baseFiles targetFiles baseComps targetComps.
Let changed (p : string) : bool :=
  isChanged (fileStatus (Map_get baseFiles p) (Map_get targetFiles p)).

(** One round of the loop either skips an unchanged path or pushes one
    entry about it. *)
Lemma diffPath_Ok st p st' :
  body st p = Ok st' ->
  (changed p = false /\ Loop.fileDiffs st' = Loop.fileDiffs st) \/
  (changed p = true /\
   exists fd, Loop.fileDiffs st' = Loop.fileDiffs st ++ [fd] /\
              FileDiff.path fd = p /\
              isEntryFor baseFiles targetFiles baseComps targetComps fd).
Proof.
  subst body changed. unfold diffPath. cbv zeta.
  destruct (isChanged (fileStatus (Map_get baseFiles p)
                         (Map_get targetFiles p))) eqn:Hc.
  - destruct (targetOrBase (Map_get baseFiles p) (Map_get targetFiles p))
      as [file|]; [|discriminate].
    destruct (logicalDiffOf _ _) as [ld|e] eqn:Hld; simpl; [|discriminate].
    intros H. injection H as <-. right. split; [reflexivity|].
    eexists. split.
    { simpl. rewrite countStatus_fileDiffs. reflexivity. }
    split; [reflexivity|].
    unfold isEntryFor. simpl. rewrite Hld. auto.
  - intros H. injection H as <-. left. split; [reflexivity|].
    apply countStatus_fileDiffs.
Qed.

(** The loop pushes, in the order of the paths, one entry per changed
    path. *)
Lemma forEach_diffPath_Ok paths st st' :
  forEachM body paths st = Ok st' ->
  exists fds,
    Loop.fileDiffs st' = Loop.fileDiffs st ++ fds /\
    map FileDiff.path fds = filter changed paths /\
    Forall (isEntryFor baseFiles targetFiles baseComps targetComps) fds.
Proof.
  revert st; induction paths as [|p r IH]; simpl; intros st H.
  - injection H as <-. exists []. rewrite app_nil_r. auto.
  - destruct (body st p) as [st1|e] eqn:Hb; simpl in H; [|discriminate].
    destruct (IH _ H) as (fds & Hfds & Hpaths & Hall).
    apply diffPath_Ok in Hb as [[Hc Hst]|[Hc (fd & Hst & Hp & Hfd)]];
      rewrite Hc.
    + exists fds. rewrite Hfds, Hst. auto.
    + exists (fd :: fds). rewrite Hfds, Hst, <- app_assoc. simpl.
      rewrite Hp, Hpaths. auto.
Qed.
End DiffLoopFacts.

Section SortFacts.
Variable localeCompare : string -> string -> Z.
Hypothesis total :
  forall a b, (localeCompare a b <= 0)%Z \/ (localeCompare b a <= 0)%Z.
Hypothesis transitive :
  forall a b c, (localeCompare a b <= 0)%Z -> (localeCompare b c <= 0)%Z ->
                (localeCompare a c <= 0)%Z.

Lemma sortInsert_perm x l :
  Permutation (sortInsert localeCompare x l) (x :: l).
Proof.
  induction l as [|y r IH]; simpl; [reflexivity|].
  destruct (_ <=? 0)%Z; [reflexivity|].
  rewrite IH. apply perm_swap.
Qed.

Lemma sortByPath_perm l : Permutation (sortByPath localeCompare l) l.
Proof.
  induction l as [|x r IH]; simpl; [reflexivity|].
  rewrite sortInsert_perm. now constructor.
Qed.

Lemma sortInsert_sorted x l :
  StronglySorted (pathLe localeCompare) l ->
  StronglySorted (pathLe localeCompare) (sortInsert localeCompare x l).
Proof.
  induction 1 as [|y r Hr IH Hy]; simpl.
  - constructor; constructor.
  - destruct (Z.leb_spec (localeCompare (FileDiff.path x) (FileDiff.path y))
                0) as [Hle|Hgt].
    + constructor; [now constructor|].
      constructor; [exact Hle|].
      rewrite Forall_forall in *. intros z Hz.
      unfold pathLe in *. eauto.
    + constructor; [exact IH|].
      rewrite Forall_forall in *. intros z Hz.
      apply (Permutation_in _ (sortInsert_perm x r)) in Hz.
      destruct Hz as [<-|Hz]; [|auto].
      unfold pathLe. destruct (total (FileDiff.path x) (FileDiff.path y));
        [lia | assumption].
Qed.

Lemma sortByPath_sorted l :
  StronglySorted (pathLe localeCompare) (sortByPath localeCompare l).
Proof.
  induction l as [|x r IH]; simpl; [constructor|].
  now apply sortInsert_sorted.
Qed.
End SortFacts.

Lemma entriesFor_perm p l1 l2 :
  Permutation l1 l2 -> entriesFor p l1 = entriesFor p l2.
Proof.
  unfold entriesFor. induction 1; simpl;
    repeat destruct (_ =? p); simpl; congruence.
Qed.

Lemma entriesFor_absent p l :
  ~ In p (map FileDiff.path l) -> entriesFor p l = 0.
Proof.
  unfold entriesFor. induction l as [|x r IH]; simpl; intros H; [reflexivity|].
  destruct (String.eqb_spec (FileDiff.path x) p); [tauto|]. apply IH. tauto.
Qed.

Lemma entriesFor_NoDup p l :
  NoDup (map FileDiff.path l) -> In p (map FileDiff.path l) ->
  entriesFor p l = 1.
Proof.
  induction l as [|x r IH]; simpl; intros Hnd Hin; [tauto|].
  inversion Hnd as [|? ? Hx Hr]; subst.
  unfold entriesFor in *. simpl.
  destruct (String.eqb_spec (FileDiff.path x) p) as [E|E]; simpl.
  - f_equal. apply entriesFor_absent. now rewrite <- E.
  - apply IH; [assumption | tauto].
Qed.

Lemma fileAt_None files p : fileAt files p = None <-> ~ hasPath files p.
Proof. unfold fileAt, filesByPath, hasPath. apply Map_from_get_None. Qed.

Lemma fileAt_Some files p f :
  fileAt files p = Some f -> In f files /\ SolutionFile.path f = p.
Proof. unfold fileAt, filesByPath. apply Map_from_get_Some. Qed.

Lemma fileAt_not_None files p : fileAt files p <> None <-> hasPath files p.
Proof.
  rewrite fileAt_None. unfold hasPath. split; [|tauto].
  intros H. destruct (in_dec string_dec p (map SolutionFile.path files));
    tauto.
Qed.

(** What a returned diff is made of: the entries the loop pushed, one
    per changed path of the union, then sorted. *)
Lemma solutionDiff_Ok localeCompare base target d :
  solutionDiff localeCompare Mode_compare (Some base) (Some target)
  = Ok (Some d) ->
  let baseFiles := filesByPath (Solution.files base) in
  let targetFiles := filesByPath (Solution.files target) in
  let baseComps :=
    compsById (SolutionMetadata.components (Solution.metadata base)) in
  let targetComps :=
    compsById (SolutionMetadata.components (Solution.metadata target)) in
  exists fds,
    SolutionDiff.fileDiffs d = sortByPath localeCompare fds /\
    map FileDiff.path fds =
      filter (fun p => isChanged (fileStatus (Map_get baseFiles p)
                                    (Map_get targetFiles p)))
        (Set_from (Map_keys baseFiles ++ Map_keys targetFiles)) /\
    Forall (isEntryFor baseFiles targetFiles baseComps targetComps) fds.
Proof.
  unfold solutionDiff. cbv zeta.
  destruct (forEachM _ _ _) as [st|e] eqn:Hloop; simpl; [|discriminate].
  intros H. injection H as <-. simpl.
  apply forEach_diffPath_Ok in Hloop as (fds & Hfds & Hpaths & Hall).
  simpl in Hfds. exists fds. rewrite Hfds. auto.
Qed.


Lemma ownerOf_In components p c :
  ownerOf components p = Some c -> In c components.
Proof.
  unfold ownerOf, compsById, Map_values. intros H.
  apply find_some in H as [H _]. apply in_map_iff in H as ([k v] & <- & H).
  unfold Map_from in H. apply Map_index_values in H as [[]|[H _]]. exact H.
Qed.

Lemma typeIs_true comp ty :
  typeIs comp ty = true <-> exists c, comp = Some c /\ type c = ty.
Proof.
  destruct comp as [c|]; simpl.
  - split.
    + intros H. exists c. split; [reflexivity|].
      destruct (type c), ty; simpl in H; try congruence.
      apply String.eqb_eq in H. congruence.
    + intros (c' & E & <-). injection E as <-.
      destruct (type c); try reflexivity. apply String.eqb_refl.
  - split; [discriminate|]. intros (c & E & _). discriminate.
Qed.

Lemma solutionDiff_returns localeCompare base target :
  rolesCarryMetadata (SolutionMetadata.components (Solution.metadata base)) ->
  rolesCarryMetadata (SolutionMetadata.components (Solution.metadata target)) ->
  exists d,
    solutionDiff localeCompare Mode_compare (Some base) (Some target)
    = Ok (Some d).
Proof.
  intros Hb Ht. unfold solutionDiff. cbv zeta.
  match goal with
  | |- context [forEachM ?body ?paths ?st] =>
      assert (H : exists st', forEachM body paths st = Ok st')
  end.
  { generalize (Loop.mk [] 0 0 0).
    induction (Set_from _) as [|p r IH]; intros st; simpl; [eauto|].
    assert (Hstep : exists st1,
               diffPath (filesByPath (Solution.files base))
                 (filesByPath (Solution.files target))
                 (compsById (SolutionMetadata.components
                               (Solution.metadata base)))
                 (compsById (SolutionMetadata.components
                               (Solution.metadata target))) st p = Ok st1).
    { unfold diffPath. cbv zeta.
      destruct (Map_get (filesByPath (Solution.files base)) p) as [b|] eqn:Eb;
        destruct (Map_get (filesByPath (Solution.files target)) p) as [t|]
          eqn:Et; simpl; try destruct (negb _); simpl; eauto.
      all: unfold logicalDiffOf;
        destruct (typeIs _ SecurityRole && typeIs _ SecurityRole) eqn:Er;
        [|simpl; eauto];
        apply andb_true_iff in Er as [E1 E2];
        apply typeIs_true in E1 as (bc & E1 & Tb);
        apply typeIs_true in E2 as (tc & E2 & Tt);
        rewrite E1, E2; simpl;
        pose proof (Hb bc (ownerOf_In _ _ _ E1) Tb) as Mb;
        pose proof (Ht tc (ownerOf_In _ _ _ E2) Tt) as Mt;
        destruct (metadata bc) as [[]|]; [| | | |congruence];
        destruct (metadata tc) as [[]|]; simpl; eauto; congruence. }
    destruct Hstep as (st1 & ->). simpl. apply IH. }
  destruct H as (st' & ->). simpl. eauto.
Qed.

(** X21.  For every pair of models the diff engine returns a diff as
    soon as the security-role components carry their metadata, and in
    every diff it returns: each path of the union of both file
    sets has an 'added' entry exactly when only the target has it, a
    'removed' entry exactly when only the base has it, a 'modified' entry
    exactly when both have it and the contents differ, and no entry when
    it is unchanged; a path present in exactly one of base/target has
    exactly one entry; and [fileDiffs] is sorted ascending by path under
    the comparator of the sort. *)
Theorem solutionDiff_classifies_paths :
  forall (localeCompare : string -> string -> Z),
    (forall a b, (localeCompare a b <= 0)%Z \/ (localeCompare b a <= 0)%Z) ->
    (forall a b c, (localeCompare a b <= 0)%Z -> (localeCompare b c <= 0)%Z ->
                   (localeCompare a c <= 0)%Z) ->
    forall base target,
      (rolesCarryMetadata
         (SolutionMetadata.components (Solution.metadata base)) ->
       rolesCarryMetadata
         (SolutionMetadata.components (Solution.metadata target)) ->
       exists d,
         solutionDiff localeCompare Mode_compare (Some base) (Some target)
         = Ok (Some d)) /\
      forall d,
      solutionDiff localeCompare Mode_compare (Some base) (Some target)
      = Ok (Some d) ->
      let fds := SolutionDiff.fileDiffs d in
      let bfiles := Solution.files base in
      let tfiles := Solution.files target in
      (forall fd, In fd fds ->
                  hasPath bfiles (FileDiff.path fd) \/
                  hasPath tfiles (FileDiff.path fd)) /\
      (forall p, (exists fd, In fd fds /\ FileDiff.path fd = p /\
                             FileDiff.status fd = added) <->
                 ~ hasPath bfiles p /\ hasPath tfiles p) /\
      (forall p, (exists fd, In fd fds /\ FileDiff.path fd = p /\
                             FileDiff.status fd = removed) <->
                 hasPath bfiles p /\ ~ hasPath tfiles p) /\
      (forall p, (exists fd, In fd fds /\ FileDiff.path fd = p /\
                             FileDiff.status fd = modified) <->
                 exists b t, fileAt bfiles p = Some b /\
                             fileAt tfiles p = Some t /\
                             SolutionFile.content b <> SolutionFile.content t) /\
      (forall fd, In fd fds -> FileDiff.status fd <> unchanged) /\
      (forall p b t, fileAt bfiles p = Some b -> fileAt tfiles p = Some t ->
                     SolutionFile.content b = SolutionFile.content t ->
                     entriesFor p fds = 0) /\
      (forall p, entriesFor p fds <= 1) /\
      (forall p, (hasPath bfiles p /\ ~ hasPath tfiles p) \/
                 (~ hasPath bfiles p /\ hasPath tfiles p) ->
                 entriesFor p fds = 1) /\
      StronglySorted (pathLe localeCompare) fds.
Proof.
  intros cmp total transitive base target.
  split; [apply solutionDiff_returns|].
  intros d Hd fds bfiles tfiles.
  destruct (solutionDiff_Ok _ _ _ _ Hd) as (l & Hsort & Hpaths & Hall).
  fold bfiles tfiles in Hpaths, Hall. fold fds in Hsort.
  assert (Hperm : Permutation fds l)
    by (rewrite Hsort; apply sortByPath_perm).
  set (st p := fileStatus (fileAt bfiles p) (fileAt tfiles p)).
  rewrite Forall_forall in Hall.
  assert (Hin : forall fd, In fd fds ->
                  FileDiff.status fd = st (FileDiff.path fd) /\
                  isChanged (FileDiff.status fd) = true).
  { intros fd Hfd. apply (Permutation_in _ Hperm), Hall in Hfd.
    destruct Hfd as (H1 & H2 & _). auto. }
  assert (Hmem : forall p, In p (map FileDiff.path l) <->
                           isChanged (st p) = true).
  { intros p. rewrite Hpaths, filter_In, Set_from_In, in_app_iff.
    unfold filesByPath. rewrite !Map_from_keys.
    split; [tauto|]. intros Hc. split; [|exact Hc].
    unfold st in Hc.
    destruct (fileAt bfiles p) eqn:Eb.
    - left. apply fileAt_not_None. congruence.
    - destruct (fileAt tfiles p) eqn:Et; [|discriminate].
      right. apply fileAt_not_None. congruence. }
  assert (Hnd : NoDup (map FileDiff.path l)).
  { rewrite Hpaths. apply NoDup_filter, Set_from_NoDup. }
  assert (Hex : forall p s, isChanged s = true ->
            ((exists fd, In fd fds /\ FileDiff.path fd = p /\
                         FileDiff.status fd = s) <-> st p = s)).
  { intros p s Hs. split.
    - intros (fd & Hfd & <- & <-). symmetry. apply Hin, Hfd.
    - intros Hst. assert (Hp : In p (map FileDiff.path l))
        by (apply Hmem; now rewrite Hst).
      apply in_map_iff in Hp as (fd & Hp & Hfd).
      apply (Permutation_in _ (Permutation_sym Hperm)) in Hfd.
      exists fd. split; [assumption|]. split; [assumption|].
      rewrite <- Hst, <- Hp. apply Hin, Hfd. }
  assert (Hcount : forall p, entriesFor p fds = entriesFor p l)
    by (intros p; now apply entriesFor_perm).
  split.
  { intros fd Hfd. destruct (Hin fd Hfd) as [H1 H2]. rewrite H1 in H2.
    unfold st in H2. rewrite <- !fileAt_not_None.
    destruct (fileAt bfiles (FileDiff.path fd)); [left; congruence|].
    destruct (fileAt tfiles (FileDiff.path fd)); [right; congruence|].
    discriminate. }
  split.
  { intros p. rewrite (Hex p added eq_refl). unfold st.
    now rewrite fileStatus_added, fileAt_None, fileAt_not_None. }
  split.
  { intros p. rewrite (Hex p removed eq_refl). unfold st.
    now rewrite fileStatus_removed, fileAt_not_None, fileAt_None. }
  split.
  { intros p. rewrite (Hex p modified eq_refl). unfold st.
    apply fileStatus_modified. }
  split.
  { intros fd Hfd E. destruct (Hin fd Hfd) as [_ H]. rewrite E in H.
    discriminate. }
  split.
  { intros p b t Hb Ht E. rewrite Hcount. apply entriesFor_absent.
    rewrite Hmem. unfold st. rewrite Hb, Ht. simpl.
    apply String.eqb_eq in E. now rewrite E. }
  split.
  { intros p. rewrite Hcount.
    destruct (in_dec string_dec p (map FileDiff.path l)) as [Hp|Hp].
    - now rewrite entriesFor_NoDup.
    - rewrite entriesFor_absent; auto. }
  split.
  { intros p Hp. rewrite Hcount. apply entriesFor_NoDup; [assumption|].
    apply Hmem. unfold st.
    destruct Hp as [[H1 H2]|[H1 H2]].
    - apply fileAt_not_None in H1. apply fileAt_None in H2. rewrite H2.
      destruct (fileAt bfiles p); [reflexivity | congruence].
    - apply fileAt_None in H1. apply fileAt_not_None in H2. rewrite H1.
      destruct (fileAt tfiles p); [reflexivity | congruence]. }
  rewrite Hsort. now apply sortByPath_sorted.
Qed.

(** *** The logical diff of two security roles *)

Lemma sameName_iff p q :
  sameName p q = true <-> Privilege.name p = Privilege.name q.
Proof. unfold sameName. apply String.eqb_eq. Qed.

Lemma optString_eqb_eq a b : optString_eqb a b = true <-> a = b.
Proof.
  destruct a as [x|], b as [y|]; simpl; try (split; congruence).
  rewrite String.eqb_eq. split; congruence.
Qed.

Lemma levelOrDepthDiffers_iff op np :
  levelOrDepthDiffers op np = true <->
  Privilege.level op <> Privilege.level np \/
  Privilege.depth op <> Privilege.depth np.
Proof.
  unfold levelOrDepthDiffers. rewrite orb_true_iff, !negb_true_iff.
  rewrite String.eqb_neq.
  destruct (optString_eqb (Privilege.depth op) (Privilege.depth np)) eqn:E.
  - apply optString_eqb_eq in E. split; intros [H|H]; auto; congruence.
  - split; intros [H|H]; auto. right. intros E'.
    apply optString_eqb_eq in E'. congruence.
Qed.

(** The privileges of one side whose name occurs on no privilege of the
    other side. *)
Lemma In_unmatched (mine others : list Privilege.t) p :
  In p (filter (fun x => negb (existsb (fun o => sameName o x) others)) mine)
  <-> In p mine /\
      forall o, In o others -> Privilege.name o <> Privilege.name p.
Proof.
  rewrite filter_In, negb_true_iff. split; intros [H1 H2]; split; auto.
  - intros o Ho E. rewrite <- not_true_iff_false in H2. apply H2.
    apply existsb_exists. exists o. split; [assumption|].
    now apply sameName_iff.
  - apply not_true_iff_false. intros H. apply existsb_exists in H.
    destruct H as (o & Ho & E). apply sameName_iff in E. now apply (H2 o).
Qed.

Lemma securityRoleDiff_spec oldPrivs newPrivs :
  exists added removed modified,
    securityRoleDiff oldPrivs newPrivs
    = SecurityRoleDiff added removed modified /\
    (forall p, In p added <->
               In p newPrivs /\
               forall o, In o oldPrivs ->
                         Privilege.name o <> Privilege.name p) /\
    (forall p, In p removed <->
               In p oldPrivs /\
               forall n, In n newPrivs ->
                         Privilege.name n <> Privilege.name p) /\
    (forall m, In m modified <->
               exists op np,
                 m = ModifiedItem.mk (Privilege.name np) (Some op) np /\
                 In np newPrivs /\
                 find (fun o => sameName o np) oldPrivs = Some op /\
                 (Privilege.level op <> Privilege.level np \/
                  Privilege.depth op <> Privilege.depth np)).
Proof.
  unfold securityRoleDiff. do 3 eexists. split; [reflexivity|].
  split; [intros p; apply In_unmatched|].
  split; [intros p; apply In_unmatched|].
  intros m. rewrite in_map_iff. split.
  - intros (np & <- & Hnp). apply filter_In in Hnp as [Hnp Hf].
    destruct (find (fun o => sameName o np) oldPrivs) as [op|] eqn:E;
      [|discriminate].
    exists op, np. rewrite levelOrDepthDiffers_iff in Hf. auto.
  - intros (op & np & -> & Hnp & E & Hd). exists np. rewrite E.
    split; [reflexivity|]. apply filter_In. split; [assumption|].
    rewrite E. now apply levelOrDepthDiffers_iff.
Qed.

(** With unique names on the base side, the privilege [find] returns is
    the base privilege of that name. *)
Lemma find_sameName_unique oldPrivs op np :
  NoDup (map Privilege.name oldPrivs) ->
  In op oldPrivs -> Privilege.name op = Privilege.name np ->
  find (fun o => sameName o np) oldPrivs = Some op.
Proof.
  induction oldPrivs as [|x r IH]; simpl; intros Hnd Hin E; [tauto|].
  inversion Hnd as [|? ? Hx Hr]; subst.
  destruct (sameName x np) eqn:Ex.
  - destruct Hin as [->|Hin]; [reflexivity|].
    apply sameName_iff in Ex. exfalso. apply Hx.
    rewrite Ex, <- E. now apply in_map.
  - destruct Hin as [->|Hin]; [|auto].
    apply sameName_iff in E. congruence.
Qed.

(** X22.  The logical diff of security roles in every diff the engine
    returns: every entry whose owning component is a [SecurityRole] on
    both sides carries a logical diff in which [added]
    holds exactly the target privileges whose name is on no base
    privilege, [removed] exactly the base privileges whose name is on no
    target privilege, and [modified] exactly, for each target privilege
    whose name the base has with another level or depth, the name paired
    with the old and the new record. *)
Lemma securityRole_logical_diff :
  forall localeCompare base target d fd bc tc,
    solutionDiff localeCompare Mode_compare (Some base) (Some target)
    = Ok (Some d) ->
    In fd (SolutionDiff.fileDiffs d) ->
    ownerOf (SolutionMetadata.components (Solution.metadata base))
      (FileDiff.path fd) = Some bc ->
    ownerOf (SolutionMetadata.components (Solution.metadata target))
      (FileDiff.path fd) = Some tc ->
    type bc = SecurityRole ->
    type tc = SecurityRole ->
    (exists oldPrivs newPrivs added removed modified,
       privilegesOf (metadata bc) = Ok oldPrivs /\
       privilegesOf (metadata tc) = Ok newPrivs /\
       FileDiff.logicalDiff fd = Some (SecurityRoleDiff added removed modified)
       /\
       (forall p, In p added <->
                  In p newPrivs /\
                  forall o, In o oldPrivs ->
                            Privilege.name o <> Privilege.name p) /\
       (forall p, In p removed <->
                  In p oldPrivs /\
                  forall n, In n newPrivs ->
                            Privilege.name n <> Privilege.name p) /\
       (forall m, In m modified <->
                  exists op np,
                    m = ModifiedItem.mk (Privilege.name np) (Some op) np /\
                    In np newPrivs /\
                    find (fun o => sameName o np) oldPrivs = Some op /\
                    (Privilege.level op <> Privilege.level np \/
                     Privilege.depth op <> Privilege.depth np))) /\
    (exists d0,
       solutionDiff localeCompare Mode_compare
         (Some (clerkBundle "<Role v='1'/>" [] [readLocal]))
         (Some (clerkBundle "<Role v='2'/>" [] [readGlobal; writeBasic]))
       = Ok (Some d0) /\
       map FileDiff.logicalDiff (SolutionDiff.fileDiffs d0) =
       [Some (SecurityRoleDiff [writeBasic] []
                [ModifiedItem.mk "Read" (Some readLocal) readGlobal])]).
Proof.
  intros cmp base target d fd bc tc Hd Hfd Hbc Htc Tb Tt.
  split; [|eexists; split; reflexivity].
  destruct (solutionDiff_Ok _ _ _ _ Hd) as (l & Hsort & _ & Hall).
  rewrite Hsort in Hfd.
  apply (Permutation_in _ (sortByPath_perm cmp l)) in Hfd.
  rewrite Forall_forall in Hall.
  destruct (Hall fd Hfd) as (_ & _ & Hld & _).
  unfold ownerOf in Hbc, Htc. rewrite Hbc, Htc in Hld.
  unfold logicalDiffOf in Hld. simpl in Hld. rewrite Tb, Tt in Hld.
  simpl in Hld.
  destruct (privilegesOf (metadata bc)) as [oldPrivs|] eqn:Eo;
    [|discriminate].
  destruct (privilegesOf (metadata tc)) as [newPrivs|] eqn:En;
    [|discriminate].
  simpl in Hld. injection Hld as Hld.
  destruct (securityRoleDiff_spec oldPrivs newPrivs)
    as (a & r & m & E & Ha & Hr & Hm).
  exists oldPrivs, newPrivs, a, r, m. rewrite <- Hld, E. auto 10.
Qed.

(** ** Code-unit order on strings *)

Lemma ascii_compare_refl c : Ascii.compare c c = Eq.
Proof. unfold Ascii.compare. apply N.compare_refl. Qed.

Lemma ascii_compare_lt_trans a b c :
  Ascii.compare a b = Lt -> Ascii.compare b c = Lt -> Ascii.compare a c = Lt.
Proof.
  unfold Ascii.compare. rewrite !N.compare_lt_iff. apply N.lt_trans.
Qed.

Lemma string_compare_lt_trans a b c :
  String.compare a b = Lt -> String.compare b c = Lt ->
  String.compare a c = Lt.
Proof.
  revert b c; induction a as [|x a IH]; intros [|y b] [|z c]; simpl;
    try discriminate; auto.
  destruct (Ascii.compare x y) eqn:Exy; try discriminate;
    destruct (Ascii.compare y z) eqn:Eyz; try discriminate.
  - apply Ascii.compare_eq_iff in Exy, Eyz. subst.
    rewrite ascii_compare_refl. apply IH.
  - apply Ascii.compare_eq_iff in Exy. subst. now rewrite Eyz.
  - apply Ascii.compare_eq_iff in Eyz. subst. now rewrite Exy.
  - now rewrite (ascii_compare_lt_trans _ _ _ Exy Eyz).
Qed.

Lemma string_compare_refl a : String.compare a a = Eq.
Proof.
  induction a as [|x a IH]; simpl; [reflexivity|].
  now rewrite ascii_compare_refl.
Qed.

Lemma string_leb_trans a b c :
  String.leb a b = true -> String.leb b c = true -> String.leb a c = true.
Proof.
  unfold String.leb.
  destruct (String.compare a b) eqn:Eab; try discriminate;
    destruct (String.compare b c) eqn:Ebc; try discriminate; intros _ _.
  - apply String.compare_eq_iff in Eab, Ebc. subst.
    now rewrite string_compare_refl.
  - apply String.compare_eq_iff in Eab. subst. now rewrite Ebc.
  - apply String.compare_eq_iff in Ebc. subst. now rewrite Eab.
  - now rewrite (string_compare_lt_trans _ _ _ Eab Ebc).
Qed.

Lemma codeUnitCompare_le a b :
  (codeUnitCompare a b <= 0)%Z <-> String.leb a b = true.
Proof.
  unfold codeUnitCompare, String.leb.
  destruct (String.compare a b); split; intros; try lia; congruence.
Qed.

Lemma codeUnitCompare_total a b :
  (codeUnitCompare a b <= 0)%Z \/ (codeUnitCompare b a <= 0)%Z.
Proof. rewrite !codeUnitCompare_le. apply String.leb_total. Qed.

Lemma codeUnitCompare_trans a b c :
  (codeUnitCompare a b <= 0)%Z -> (codeUnitCompare b c <= 0)%Z ->
  (codeUnitCompare a c <= 0)%Z.
Proof. rewrite !codeUnitCompare_le. apply string_leb_trans. Qed.

(** *** [sort()] on strings yields the one sorted arrangement *)

Lemma insertString_perm x l : Permutation (insertString x l) (x :: l).
Proof.
  induction l as [|y r IH]; simpl; [reflexivity|].
  destruct (String.leb x y); [reflexivity|].
  rewrite IH. apply perm_swap.
Qed.

Lemma sortStrings_perm l : Permutation (sortStrings l) l.
Proof.
  induction l as [|x r IH]; simpl; [reflexivity|].
  rewrite insertString_perm. now constructor.
Qed.

Lemma insertString_sorted x l :
  StronglySorted lebP l -> StronglySorted lebP (insertString x l).
Proof.
  induction 1 as [|y r Hr IH Hy]; simpl.
  - constructor; constructor.
  - destruct (String.leb x y) eqn:E.
    + constructor; [now constructor|]. constructor; [exact E|].
      rewrite Forall_forall in *. intros z Hz.
      apply (string_leb_trans _ y); auto. apply Hy, Hz.
    + constructor; [exact IH|].
      rewrite Forall_forall in *. intros z Hz.
      apply (Permutation_in _ (insertString_perm x r)) in Hz.
      destruct Hz as [<-|Hz]; [|auto].
      destruct (String.leb_total x y); [congruence | assumption].
Qed.

Lemma sortStrings_sorted l : StronglySorted lebP (sortStrings l).
Proof.
  induction l as [|x r IH]; simpl; [constructor|].
  now apply insertString_sorted.
Qed.

Lemma sorted_perm_unique l1 l2 :
  StronglySorted lebP l1 -> StronglySorted lebP l2 -> Permutation l1 l2 ->
  l1 = l2.
Proof.
  intros H1; revert l2; induction H1 as [|x r Hr IH Hx]; intros l2 H2 Hp.
  - apply Permutation_nil in Hp. now subst.
  - destruct H2 as [|y s Hs Hy].
    + apply Permutation_sym, Permutation_nil in Hp. discriminate.
    + assert (E : x = y).
      { rewrite Forall_forall in Hx, Hy.
        assert (Hyin : In y (x :: r))
          by (apply (Permutation_in _ (Permutation_sym Hp)); now left).
        assert (Hxin : In x (y :: s))
          by (apply (Permutation_in _ Hp); now left).
        destruct Hyin as [E|Hyin]; [assumption|].
        destruct Hxin as [E|Hxin]; [now symmetry|].
        apply String.leb_antisym; [apply Hx | apply Hy]; assumption. }
      subst y. f_equal. apply IH; [assumption|].
      now apply Permutation_cons_inv in Hp.
Qed.

Lemma sortStrings_order_independent l1 l2 :
  Permutation l1 l2 -> sortStrings l1 = sortStrings l2.
Proof.
  intros Hp. apply sorted_perm_unique; try apply sortStrings_sorted.
  rewrite !sortStrings_perm. exact Hp.
Qed.

(** ** Relationship edges *)

Lemma relationshipKey_order_independent name ty1 ty2 ty3 a b :
  relationshipKey (EntityRelationship.mk name ty1 a b) =
  relationshipKey (EntityRelationship.mk name ty2 b a) /\
  relationshipKey (EntityRelationship.mk name ty1 a b) =
  relationshipKey (EntityRelationship.mk a ty3 name b).
Proof.
  unfold relationshipKey. simpl EntityRelationship.from.
  simpl EntityRelationship.to. simpl EntityRelationship.name.
  split; f_equal; apply sortStrings_order_independent.
  - apply perm_swap.
  - (* [a; b; name] and [name; b; a] *)
    apply Permutation_trans with (l' := [a; name; b]).
    + apply perm_skip, perm_swap.
    + apply Permutation_trans with (l' := [name; a; b]).
      * apply perm_swap.
      * apply perm_skip, perm_swap.
Qed.

Lemma edgesWithKey_absent k l :
  ~ In k (map relationshipKey l) -> edgesWithKey k l = 0.
Proof.
  unfold edgesWithKey. induction l as [|x r IH]; simpl; intros H;
    [reflexivity|].
  destruct (String.eqb_spec (relationshipKey x) k); [tauto|]. apply IH.
  tauto.
Qed.

Lemma edgesWithKey_NoDup k l :
  NoDup (map relationshipKey l) -> In k (map relationshipKey l) ->
  edgesWithKey k l = 1.
Proof.
  induction l as [|x r IH]; simpl; intros Hnd Hin; [tauto|].
  inversion Hnd as [|? ? Hx Hr]; subst.
  unfold edgesWithKey in *. simpl.
  destruct (String.eqb_spec (relationshipKey x) k) as [E|E]; simpl.
  - f_equal. apply edgesWithKey_absent. now rewrite <- E.
  - apply IH; [assumption | tauto].
Qed.

Section EdgeFacts.
Variable inherited : list EntityMetadata.t -> string -> bool.
Variable entities : list EntityMetadata.t.

Let eligible (rel : EntityRelationship.t) : bool :=
  layoutHas inherited entities (EntityRelationship.from rel) &&
  layoutHas inherited entities (EntityRelationship.to rel).
Let step := relationshipEdgeStep inherited entities.

(** [seen] holds the keys of [rels], each once. *)
Let coherent (st : list EntityRelationship.t * list string) : Prop :=
  snd st = map relationshipKey (fst st) /\ NoDup (snd st).

Lemma edgeStep_coherent st rel : coherent st -> coherent (step st rel).
Proof.
  subst step coherent. unfold relationshipEdgeStep. simpl.
  intros [Hs Hnd]. destruct (_ && _); [|auto].
  destruct (Set_has (snd st) (relationshipKey rel)) eqn:E; [auto|].
  simpl. split.
  - unfold Set_add. rewrite E, map_app, Hs. reflexivity.
  - now apply Set_add_NoDup.
Qed.

Lemma edgeStep_seen st rel k :
  In k (snd (step st rel)) <->
  In k (snd st) \/ (eligible rel = true /\ relationshipKey rel = k).
Proof.
  subst step eligible. unfold relationshipEdgeStep. simpl.
  destruct (_ && _).
  - destruct (Set_has (snd st) (relationshipKey rel)) eqn:E; simpl.
    + apply Set_has_In in E. split; [auto|].
      intros [H|[_ <-]]; assumption.
    + rewrite Set_add_In. intuition.
  - intuition discriminate.
Qed.

Lemma edgeSteps_coherent rels st :
  coherent st -> coherent (fold_left step rels st).
Proof.
  revert st; induction rels as [|r rs IH]; simpl; intros st H; [exact H|].
  apply IH, edgeStep_coherent, H.
Qed.

Lemma edgeSteps_seen rels st k :
  In k (snd (fold_left step rels st)) <->
  In k (snd st) \/
  exists rel, In rel rels /\ eligible rel = true /\ relationshipKey rel = k.
Proof.
  revert st; induction rels as [|r rs IH]; simpl; intros st.
  - split; [auto|]. intros [H|(rel & [] & _)]. exact H.
  - rewrite IH, edgeStep_seen. split.
    + intros [[H|[H1 H2]]|(rel & H1 & H2)]; eauto 6.
    + intros [H|(rel & [<-|H1] & H2)]; eauto 6.
Qed.

Lemma edgeSteps_subset rels st rel :
  In rel (fst (fold_left step rels st)) ->
  In rel (fst st) \/ (In rel rels /\ eligible rel = true).
Proof.
  revert st; induction rels as [|r rs IH]; simpl; intros st H; [auto|].
  apply IH in H as [H|[H1 H2]]; [|auto].
  subst step eligible. unfold relationshipEdgeStep in H.
  destruct (_ && _) eqn:El; [|auto].
  destruct (Set_has _ _); [auto|]. simpl in H.
  apply in_app_iff in H as [H|[<-|[]]]; auto.
Qed.

Lemma nested_forEach (st : list EntityRelationship.t * list string)
  (l : list EntityMetadata.t) :
  fold_left
    (fun st entity =>
       fold_left step (EntityMetadata.relationships entity) st) l st
  = fold_left step (flat_map EntityMetadata.relationships l) st.
Proof.
  revert st; induction l as [|e r IH]; simpl; intros st; [reflexivity|].
  now rewrite IH, fold_left_app.
Qed.
End EdgeFacts.

(** The edges carry pairwise different keys; a key is present exactly
    when some relationship between two laid-out entities has it. *)
Lemma allRelationships_keys inherited entities :
  NoDup (map relationshipKey (allRelationships inherited entities)) /\
  forall k,
    In k (map relationshipKey (allRelationships inherited entities)) <->
    exists e rel,
      In e entities /\ In rel (EntityMetadata.relationships e) /\
      layoutHas inherited entities (EntityRelationship.from rel) = true /\
      layoutHas inherited entities (EntityRelationship.to rel) = true /\
      relationshipKey rel = k.
Proof.
  unfold allRelationships. rewrite nested_forEach.
  pose proof (edgeSteps_coherent inherited entities
                (flat_map EntityMetadata.relationships entities) ([], []))
    as Hc.
  simpl in Hc. destruct Hc as [Hs Hnd]; [split; [reflexivity | constructor]|].
  rewrite <- Hs. split; [exact Hnd|].
  intros k. rewrite edgeSteps_seen. simpl. split.
  - intros [[]|(rel & Hin & El & Hk)].
    apply in_flat_map in Hin as (e & He & Hrel).
    apply andb_true_iff in El as [E1 E2]. exists e, rel. auto.
  - intros (e & rel & He & Hrel & E1 & E2 & Hk). right. exists rel.
    split; [apply in_flat_map; eauto|]. now rewrite E1, E2.
Qed.

(** *** The entity map built by the table and relationship passes *)

Lemma pushRelationship_keys m k rel :
  Map_keys (pushRelationship m k rel) = Map_keys m.
Proof.
  unfold Map_keys. induction m as [|[k1 e1] r IH]; simpl; [reflexivity|].
  destruct (k1 =? k); simpl; [reflexivity | now rewrite IH].
Qed.

Lemma pushRelationship_filedByName m k rel :
  filedByName m -> filedByName (pushRelationship m k rel).
Proof.
  unfold filedByName. induction m as [|[k1 e1] r IH]; simpl; intros H k' e';
    [tauto|].
  destruct (k1 =? k); simpl.
  - intros [E|Hin]; [|eauto]. injection E as <- <-. simpl. eauto.
  - intros [E|Hin]; [eauto|]. apply IH; eauto.
Qed.

Lemma pushRelationship_attaches m k rel :
  In k (Map_keys m) -> attached k rel (pushRelationship m k rel).
Proof.
  unfold attached, Map_keys. induction m as [|[k1 e1] r IH]; simpl; [tauto|].
  destruct (String.eqb_spec k1 k) as [E|E]; intros H.
  - subst k1. eexists. split; [left; reflexivity|]. simpl.
    rewrite in_app_iff. simpl. auto.
  - destruct H as [H|H]; [congruence|].
    destruct (IH H) as (e & He & Hrel). exists e. simpl. auto.
Qed.

Lemma pushRelationship_keeps m k rel k' rel' :
  attached k rel m -> attached k rel (pushRelationship m k' rel').
Proof.
  unfold attached. induction m as [|[k1 e1] r IH]; simpl;
    intros (e & He & Hrel); [tauto|].
  destruct (k1 =? k') eqn:E1.
  - destruct He as [E|He].
    + injection E as <- <-. eexists. split; [left; reflexivity|]. simpl.
      rewrite in_app_iff. auto.
    + exists e. simpl. auto.
  - destruct He as [E|He].
    + exists e. simpl. auto.
    + destruct IH as (e' & He' & Hrel'); [eauto|]. exists e'. simpl. auto.
Qed.

Lemma relationshipStep_keys m relNode :
  Map_keys (relationshipStep m relNode) = Map_keys m.
Proof.
  unfold relationshipStep. cbv zeta. destruct (_ && _); [|reflexivity].
  now rewrite !pushRelationship_keys.
Qed.

Lemma relationshipStep_filedByName m relNode :
  filedByName m -> filedByName (relationshipStep m relNode).
Proof.
  unfold relationshipStep. cbv zeta. destruct (_ && _); [|auto].
  intros H. now apply pushRelationship_filedByName,
              pushRelationship_filedByName.
Qed.

Lemma relationshipStep_keeps m relNode k rel :
  attached k rel m -> attached k rel (relationshipStep m relNode).
Proof.
  unfold relationshipStep. cbv zeta. destruct (_ && _); [|auto].
  intros H. now apply pushRelationship_keeps, pushRelationship_keeps.
Qed.

Lemma relationshipSteps_keys relNodes m :
  Map_keys (fold_left relationshipStep relNodes m) = Map_keys m.
Proof.
  revert m; induction relNodes as [|n r IH]; simpl; intros m; [reflexivity|].
  now rewrite IH, relationshipStep_keys.
Qed.

Lemma relationshipSteps_filedByName relNodes m :
  filedByName m -> filedByName (fold_left relationshipStep relNodes m).
Proof.
  revert m; induction relNodes as [|n r IH]; simpl; intros m H; [exact H|].
  apply IH, relationshipStep_filedByName, H.
Qed.

Lemma relationshipSteps_keep relNodes m k rel :
  attached k rel m -> attached k rel (fold_left relationshipStep relNodes m).
Proof.
  revert m; induction relNodes as [|n r IH]; simpl; intros m H; [exact H|].
  apply IH, relationshipStep_keeps, H.
Qed.

(** A relationship whose two ends are non-empty is pushed on the list of
    each end that is in the map. *)
Lemma relationshipSteps_attach relNodes m relNode :
  In relNode relNodes ->
  let rel := parseRelationship relNode in
  EntityRelationship.from rel <> "" -> EntityRelationship.to rel <> "" ->
  (In (EntityRelationship.from rel) (Map_keys m) ->
   attached (EntityRelationship.from rel) rel
     (fold_left relationshipStep relNodes m)) /\
  (In (EntityRelationship.to rel) (Map_keys m) ->
   attached (EntityRelationship.to rel) rel
     (fold_left relationshipStep relNodes m)).
Proof.
  intros Hin rel Hf Ht.
  revert m; induction relNodes as [|n r IH]; simpl; intros m; [destruct Hin|].
  destruct Hin as [->|Hin].
  - assert (E : relationshipStep m relNode =
                pushRelationship
                  (pushRelationship m (EntityRelationship.from rel) rel)
                  (EntityRelationship.to rel) rel).
    { unfold relationshipStep. cbv zeta. fold rel. unfold truthy.
      apply String.eqb_neq in Hf, Ht. now rewrite Hf, Ht. }
    rewrite E. split; intros Hk; apply relationshipSteps_keep.
    + apply pushRelationship_keeps, pushRelationship_attaches, Hk.
    + apply pushRelationship_attaches. now rewrite pushRelationship_keys.
  - specialize (IH Hin (relationshipStep m n)).
    now rewrite relationshipStep_keys in IH.
Qed.

Lemma entitySteps_filedByName files entityNodes st :
  filedByName (fst st) ->
  filedByName (fst (fold_left (entityStep files) entityNodes st)).
Proof.
  revert st; induction entityNodes as [|n r IH]; simpl; intros st H;
    [exact H|].
  apply IH. destruct st as [m cs]. unfold entityStep. cbv zeta. simpl fst in *.
  intros k e Hin. apply Map_set_In in Hin as [Hin|E]; [eauto|].
  injection E as -> ->. reflexivity.
Qed.

Lemma entityMapOf_filedByName files components entityNodes relNodes :
  filedByName (entityMapOf files components entityNodes relNodes).
Proof.
  apply relationshipSteps_filedByName, entitySteps_filedByName.
  intros k e [].
Qed.

Lemma filedByName_names m k :
  filedByName m ->
  (In k (map EntityMetadata.logicalName (Map_values m)) <-> In k (Map_keys m)).
Proof.
  unfold Map_values, Map_keys. intros H. rewrite map_map, !in_map_iff.
  split; intros ([k' e] & E & Hin); exists (k', e); simpl in *;
    (split; [|assumption]); rewrite <- E; [symmetry|]; eauto.
Qed.

(** A relationship between two entities of the bundle is listed by both
    and gives exactly one edge. *)
Lemma relationship_one_edge inherited files components entityNodes relNodes
  relNode :
  let entityMap := entityMapOf files components entityNodes relNodes in
  let entities := Map_values entityMap in
  let rel := parseRelationship relNode in
  In relNode relNodes ->
  EntityRelationship.from rel <> "" -> EntityRelationship.to rel <> "" ->
  In (EntityRelationship.from rel)
    (map EntityMetadata.logicalName entities) ->
  In (EntityRelationship.to rel) (map EntityMetadata.logicalName entities) ->
  (exists eFrom eTo,
     In eFrom entities /\
     EntityMetadata.logicalName eFrom = EntityRelationship.from rel /\
     In rel (EntityMetadata.relationships eFrom) /\
     In eTo entities /\
     EntityMetadata.logicalName eTo = EntityRelationship.to rel /\
     In rel (EntityMetadata.relationships eTo)) /\
  edgesWithKey (relationshipKey rel) (allRelationships inherited entities) = 1.
Proof.
  intros entityMap entities rel Hin Hf Ht Hfrom Hto.
  pose proof (entityMapOf_filedByName files components entityNodes relNodes)
    as Hnamed. fold entityMap in Hnamed.
  apply (filedByName_names _ _ Hnamed) in Hfrom, Hto.
  unfold entityMap, entityMapOf in Hfrom, Hto.
  rewrite relationshipSteps_keys in Hfrom, Hto.
  destruct (relationshipSteps_attach relNodes
              (fst (fold_left (entityStep files) entityNodes ([], components)))
              relNode Hin Hf Ht) as [Ha Hb].
  destruct (Ha Hfrom) as (eFrom & HeF & HrF).
  destruct (Hb Hto) as (eTo & HeT & HrT).
  fold rel in HeF, HrF, HeT, HrT.
  change (fold_left relationshipStep relNodes _) with entityMap in HeF, HeT.
  assert (HinF : In eFrom entities)
    by (apply in_map_iff; exists (EntityRelationship.from rel, eFrom); auto).
  assert (HinT : In eTo entities)
    by (apply in_map_iff; exists (EntityRelationship.to rel, eTo); auto).
  pose proof (Hnamed _ _ HeF) as NF. pose proof (Hnamed _ _ HeT) as NT.
  split; [exists eFrom, eTo; auto 10|].
  destruct (allRelationships_keys inherited entities) as [Hnd Hkeys].
  apply edgesWithKey_NoDup; [exact Hnd|]. apply Hkeys.
  exists eFrom, rel. split; [assumption|]. split; [assumption|].
  assert (G : forall e, In e entities ->
                layoutHas inherited entities (EntityMetadata.logicalName e)
                = true).
  { intros e He. unfold layoutHas. apply orb_true_iff. left.
    apply existsb_exists. exists e.
    split; [assumption | apply String.eqb_refl]. }
  rewrite <- NF at 1. rewrite <- NT at 1. auto.
Qed.

Lemma customizationsPass_entityMap parseCustomizationsXml files components
  customizationsXml :
  contentAt files "customizations.xml" = Some customizationsXml ->
  exists components',
    fst (customizationsPass parseCustomizationsXml files components) =
    entityMapOf files components'
      (Dom.cx_Entities (parseCustomizationsXml customizationsXml))
      (Dom.cx_EntityRelationships (parseCustomizationsXml customizationsXml)).
Proof.
  intros E. unfold customizationsPass. rewrite E. cbv zeta.
  exists (fold_left roleStep
            (Dom.cx_Roles (parseCustomizationsXml customizationsXml))
            components).
  unfold entityMapOf.
  destruct (fold_left (entityStep files) _ _) as [entityMap cs].
  reflexivity.
Qed.

(** *** Which relationship becomes the edge of a key *)

Section EdgeChoice.
Variable inherited : list EntityMetadata.t -> string -> bool.
Variable entities : list EntityMetadata.t.

Let eligible (rel : EntityRelationship.t) : bool :=
  layoutHas inherited entities (EntityRelationship.from rel) &&
  layoutHas inherited entities (EntityRelationship.to rel).
Let step := relationshipEdgeStep inherited entities.

(** A relationship is pushed exactly when it is the first one with its
    key among those that pass the [layout] test, and the key was not
    seen before. *)
Lemma edgeSteps_first rels st r :
  In r (fst (fold_left step rels st)) <->
  In r (fst st) \/
  (~ In (relationshipKey r) (snd st) /\
   find (fun r' => relationshipKey r' =? relationshipKey r)
     (filter eligible rels) = Some r).
Proof.
  revert st; induction rels as [|r0 rs IH]; intros st.
  - simpl. split; [auto|]. intros [H|[_ H]]; [exact H | discriminate].
  - cbn [fold_left]. rewrite IH. clear IH.
    assert (Estep : step st r0 =
                    if eligible r0
                    then if Set_has (snd st) (relationshipKey r0) then st
                         else (fst st ++ [r0],
                               Set_add (snd st) (relationshipKey r0))
                    else st) by reflexivity.
    rewrite Estep. clear Estep. cbn [filter].
    destruct (eligible r0); [|reflexivity].
    cbn [find].
    destruct (Set_has (snd st) (relationshipKey r0)) eqn:Eseen.
    + apply Set_has_In in Eseen.
      destruct (String.eqb_spec (relationshipKey r0) (relationshipKey r))
        as [E|Hne]; [|reflexivity].
      rewrite <- E. tauto.
    + assert (Hnew : ~ In (relationshipKey r0) (snd st)).
      { intros H. apply Set_has_In in H. congruence. }
      cbn [fst snd]. rewrite Set_add_In, in_app_iff.
      destruct (String.eqb_spec (relationshipKey r0) (relationshipKey r))
        as [E|Hne].
      * rewrite <- E. split.
        -- intros [[H|[<-|[]]]|[H _]]; auto. tauto.
        -- intros [H|[_ H]]; [auto|]. injection H as <-. simpl. auto.
      * split.
        -- intros [[H|[<-|[]]]|[H1 H2]]; auto; [congruence|]. right. tauto.
        -- intros [H|[H1 H2]]; [auto|]. right. split; [|exact H2].
           intros [H|H]; [tauto | congruence].
Qed.
End EdgeChoice.

(** The edges are the first listed relationship of each key. *)
Lemma allRelationships_first inherited entities r :
  In r (allRelationships inherited entities) <->
  find (fun r' => relationshipKey r' =? relationshipKey r)
    (listedRelationships inherited entities) = Some r.
Proof.
  unfold allRelationships, listedRelationships. rewrite nested_forEach.
  rewrite edgeSteps_first. simpl. split.
  - intros [[]|[_ H]]. exact H.
  - intros H. right. split; [tauto | exact H].
Qed.

Lemma filter_singleton {A} (p : A -> bool) (l : list A) :
  List.length (filter p l) = 1 ->
  exists pre x post,
    l = pre ++ x :: post /\ filter p l = [x] /\ p x = true /\
    forall y, In y (pre ++ post) -> p y = false.
Proof.
  induction l as [|a r IH]; simpl; [discriminate|].
  destruct (p a) eqn:E; simpl; intros H.
  - exists [], a, r. injection H as H.
    apply length_zero_iff_nil in H. rewrite H.
    split; [reflexivity|]. split; [reflexivity|]. split; [exact E|].
    simpl. intros y Hy. destruct (p y) eqn:Ey; [|reflexivity].
    assert (Hin : In y (filter p r)) by (apply filter_In; auto).
    rewrite H in Hin. destruct Hin.
  - destruct (IH H) as (pre & x & post & -> & Hf & Hx & Hrest).
    exists (a :: pre), x, post. split; [reflexivity|].
    split; [exact Hf|]. split; [exact Hx|].
    simpl. intros y [<-|Hy]; auto.
Qed.

Lemma find_first {A} (p : A -> bool) (l : list A) x :
  find p l = Some x ->
  exists pre post,
    l = pre ++ x :: post /\ p x = true /\
    forall y, In y pre -> p y = false.
Proof.
  induction l as [|a r IH]; simpl; [discriminate|].
  destruct (p a) eqn:E.
  - intros H. injection H as <-. exists [], r.
    split; [reflexivity|]. split; [exact E|]. intros y [].
  - intros H. destruct (IH H) as (pre & post & -> & Hx & Hpre).
    exists (a :: pre), post. split; [reflexivity|]. split; [exact Hx|].
    simpl. intros y [<-|Hy]; auto.
Qed.

Lemma find_agree {A} (p q : A -> bool) (l : list A) :
  (forall x, p x = q x) -> find p l = find q l.
Proof.
  intros H. induction l as [|a r IH]; simpl; [reflexivity|].
  now rewrite H, IH.
Qed.

(** *** The key tells the three strings, up to their order *)

Lemma hyphenFree_tail c s : hyphenFree (String c s) -> hyphenFree s.
Proof.
  unfold hyphenFree. intros H a b E. apply (H (String c a) b).
  simpl. now rewrite E.
Qed.

Lemma hyphen_split x x' s s' :
  hyphenFree x -> hyphenFree x' ->
  (x ++ "-" ++ s = x' ++ "-" ++ s')%string -> x = x' /\ s = s'.
Proof.
  revert x'; induction x as [|c x IH]; intros [|c' x'] Hx Hx' E.
  - simpl in E. injection E as E. auto.
  - simpl in E. injection E as <- E. destruct (Hx' "" x'). reflexivity.
  - simpl in E. injection E as -> E. destruct (Hx "" x). reflexivity.
  - simpl in E. injection E as <- E.
    destruct (IH x' (hyphenFree_tail _ _ Hx) (hyphenFree_tail _ _ Hx') E)
      as [-> ->].
    auto.
Qed.

Lemma insertString_length x l :
  List.length (insertString x l) = S (List.length l).
Proof.
  induction l as [|y r IH]; simpl; [reflexivity|].
  destruct (String.leb x y); simpl; [reflexivity | now rewrite IH].
Qed.

Lemma sortStrings_length l : List.length (sortStrings l) = List.length l.
Proof.
  induction l as [|x r IH]; simpl; [reflexivity|].
  now rewrite insertString_length, IH.
Qed.

Lemma joined_triples_equal (l1 l2 : list string) :
  List.length l1 = 3 -> List.length l2 = 3 ->
  Forall hyphenFree l1 -> Forall hyphenFree l2 ->
  String.concat "-" l1 = String.concat "-" l2 -> l1 = l2.
Proof.
  destruct l1 as [|a [|b [|c [|]]]]; try discriminate.
  destruct l2 as [|a' [|b' [|c' [|]]]]; try discriminate.
  intros _ _ H1 H2 E.
  inversion H1 as [|? ? Ha H1']; subst. inversion H1' as [|? ? Hb _]; subst.
  inversion H2 as [|? ? Ha' H2']; subst. inversion H2' as [|? ? Hb' _]; subst.
  cbn [String.concat] in E.
  apply hyphen_split in E as [-> E]; [|assumption|assumption].
  apply hyphen_split in E as [-> ->]; [|assumption|assumption].
  reflexivity.
Qed.

(** Relationships with the same three strings in any order have the
    same key. *)
Lemma sameTriple_key r1 r2 :
  sameTriple r1 r2 -> relationshipKey r1 = relationshipKey r2.
Proof.
  intros H. unfold relationshipKey. f_equal.
  apply sortStrings_order_independent. exact H.
Qed.

(** Without hyphens in the strings, the same key means the same three
    strings in some order. *)
Lemma key_sameTriple r1 r2 :
  Forall hyphenFree (relationshipTriple r1) ->
  Forall hyphenFree (relationshipTriple r2) ->
  relationshipKey r1 = relationshipKey r2 -> sameTriple r1 r2.
Proof.
  intros H1 H2 E. unfold sameTriple.
  change (String.concat "-" (sortStrings (relationshipTriple r1)) =
          String.concat "-" (sortStrings (relationshipTriple r2))) in E.
  apply joined_triples_equal in E.
  - rewrite <- (sortStrings_perm (relationshipTriple r1)), E.
    apply sortStrings_perm.
  - now rewrite sortStrings_length.
  - now rewrite sortStrings_length.
  - eapply Permutation_Forall; [|exact H1].
    apply Permutation_sym, sortStrings_perm.
  - eapply Permutation_Forall; [|exact H2].
    apply Permutation_sym, sortStrings_perm.
Qed.

(** The entities of an ingested bundle with a customization descriptor
    are the values of the entity map of its two passes. *)
Lemma parseSolutionZip_entities decodeString parseSolutionXml
  parseCustomizationsXml readCanvasApp zip solution customizationsXml :
  parseSolutionZip decodeString parseSolutionXml parseCustomizationsXml
    readCanvasApp zip = Ok solution ->
  contentAt (Solution.files solution) "customizations.xml"
  = Some customizationsXml ->
  exists components',
    SolutionMetadata.entities (Solution.metadata solution) =
    Map_values
      (entityMapOf (collectFiles decodeString zip) components'
         (Dom.cx_Entities (parseCustomizationsXml customizationsXml))
         (Dom.cx_EntityRelationships
            (parseCustomizationsXml customizationsXml))).
Proof.
  unfold parseSolutionZip.
  destruct (solutionPass parseSolutionXml (collectFiles decodeString zip) [])
    as [md cs0].
  destruct (customizationsPass parseCustomizationsXml
              (collectFiles decodeString zip) cs0) as [em cs1] eqn:Ecp.
  destruct (canvasPass readCanvasApp zip (collectFiles decodeString zip)
              ([], cs1)) as [[apps cs2]|e]; simpl; [|discriminate].
  intros H. injection H as <-. simpl. intros Htext.
  destruct (customizationsPass_entityMap parseCustomizationsXml _ cs0 _ Htext)
    as (cs' & E).
  rewrite Ecp in E. simpl in E. exists cs'. now rewrite E.
Qed.

(** C4, counterexample.  A relationship declared from both of its
    entities' perspectives need not become an edge.  The bundle has the
    entities account, contact and lead; its first relationship joins
    account and contact and is named lead, its second joins lead and
    account and is named contact.  Both are listed by both of their
    entities.  The three strings of the second are those of the first
    in another order, so both have the key [account-contact-lead]: the
    aggregate holds the first relationship only, and no edge joins lead
    and account. *)
Lemma relationship_with_rearranged_names_yields_no_edge :
  exists solution,
    parseSolutionZip string_of_list_byte sampleSolutionXml
      crossedCustomizationsXml sampleReadCanvasApp sampleZip = Ok solution /\
    let entities := SolutionMetadata.entities (Solution.metadata solution) in
    let rel := parseRelationship crossedRelationship2 in
    let edges := allRelationships (fun _ _ => false) entities in
    map EntityMetadata.logicalName entities = ["account"; "contact"; "lead"] /\
    EntityRelationship.from rel = "lead" /\
    EntityRelationship.to rel = "account" /\
    (exists eFrom eTo,
       In eFrom entities /\
       EntityMetadata.logicalName eFrom = EntityRelationship.from rel /\
       In rel (EntityMetadata.relationships eFrom) /\
       In eTo entities /\
       EntityMetadata.logicalName eTo = EntityRelationship.to rel /\
       In rel (EntityMetadata.relationships eTo)) /\
    relationshipKey rel = "account-contact-lead" /\
    relationshipKey (parseRelationship crossedRelationship1)
    = "account-contact-lead" /\
    edges = [parseRelationship crossedRelationship1] /\
    ~ In rel edges /\
    existsb (fun e => (EntityRelationship.from e =? "lead") &&
                      (EntityRelationship.to e =? "account")) edges = false.
Proof.
  eexists. split; [vm_compute; reflexivity|]. cbv zeta.
  split; [reflexivity|]. split; [reflexivity|]. split; [reflexivity|].
  split.
  { eexists _, _. split; [right; right; left; reflexivity|].
    split; [reflexivity|]. split; [simpl; auto|].
    split; [left; reflexivity|]. split; [reflexivity|]. simpl; auto. }
  split; [reflexivity|]. split; [reflexivity|]. split; [reflexivity|].
  split; [|reflexivity].
  intros [H|[]]. discriminate H.
Qed.

(** C4, amended.  For every bundle that is ingested, a relationship of
    the customization descriptor between two entities of the bundle is
    listed by both of them (once per side), and the aggregate
    [allRelationships] holds exactly one edge with its key: the first
    relationship with that key in the order in which the entities list
    them.  That edge is the relationship itself when no other listed
    relationship has its key.  The key joins the sorted strings (from,
    to, name) with a hyphen: relationships whose three strings are the
    same in any order have the same key, and when the strings hold no
    hyphen only those have.  So among hyphen-free names, exactly one
    edge has the three strings of the relationship in some order, and it
    is the first listed relationship that has them. *)
Theorem relationship_declared_on_both_sides_is_one_edge :
  forall inherited decodeString parseSolutionXml parseCustomizationsXml
         readCanvasApp zip solution customizationsXml relNode,
    parseSolutionZip decodeString parseSolutionXml parseCustomizationsXml
      readCanvasApp zip = Ok solution ->
    contentAt (Solution.files solution) "customizations.xml"
    = Some customizationsXml ->
    In relNode
      (Dom.cx_EntityRelationships (parseCustomizationsXml customizationsXml)) ->
    let rel := parseRelationship relNode in
    let entities := SolutionMetadata.entities (Solution.metadata solution) in
    let edges := allRelationships inherited entities in
    let listed := listedRelationships inherited entities in
    EntityRelationship.from rel <> "" ->
    EntityRelationship.to rel <> "" ->
    In (EntityRelationship.from rel)
      (map EntityMetadata.logicalName entities) ->
    In (EntityRelationship.to rel)
      (map EntityMetadata.logicalName entities) ->
    (exists eFrom eTo,
       In eFrom entities /\
       EntityMetadata.logicalName eFrom = EntityRelationship.from rel /\
       In rel (EntityMetadata.relationships eFrom) /\
       In eTo entities /\
       EntityMetadata.logicalName eTo = EntityRelationship.to rel /\
       In rel (EntityMetadata.relationships eTo)) /\
    In rel listed /\
    edgesWithKey (relationshipKey rel) edges = 1 /\
    NoDup (map relationshipKey edges) /\
    (exists edge,
        find (fun r => relationshipKey r =? relationshipKey rel) listed
        = Some edge /\
        filter (fun e => relationshipKey e =? relationshipKey rel) edges
        = [edge]) /\
    (In rel edges <->
     find (fun r => relationshipKey r =? relationshipKey rel) listed
     = Some rel) /\
    ((forall r, In r listed -> relationshipKey r = relationshipKey rel ->
                r = rel) ->
     filter (fun e => relationshipKey e =? relationshipKey rel) edges
     = [rel]) /\
    (forall r1 r2, sameTriple r1 r2 -> relationshipKey r1 = relationshipKey r2) /\
    (forall r1 r2,
        Forall hyphenFree (relationshipTriple r1) ->
        Forall hyphenFree (relationshipTriple r2) ->
        relationshipKey r1 = relationshipKey r2 -> sameTriple r1 r2) /\
    (Forall hyphenFree (relationshipTriple rel) ->
     (forall r, In r listed -> Forall hyphenFree (relationshipTriple r)) ->
     exists edge before after earlier later,
       edges = before ++ edge :: after /\
       sameTriple edge rel /\
       (forall e, In e (before ++ after) -> ~ sameTriple e rel) /\
       listed = earlier ++ edge :: later /\
       (forall r, In r earlier -> ~ sameTriple r rel) /\
       ((forall r, In r listed -> sameTriple r rel -> r = rel) ->
        edge = rel)) /\
    (forall name ty ty' a b,
        relationshipKey (EntityRelationship.mk name ty a b) =
        relationshipKey (EntityRelationship.mk name ty' b a)).
Proof.
  intros inh dS pS pC rC zip solution text relNode Hparse Htext Hin
    rel entities edges listed Hf Ht Hfrom Hto.
  destruct (parseSolutionZip_entities dS pS pC rC zip solution text
              Hparse Htext) as (cs' & Hent).
  fold entities in Hent.
  assert (Hone :
            (exists eFrom eTo,
                In eFrom entities /\
                EntityMetadata.logicalName eFrom = EntityRelationship.from rel /\
                In rel (EntityMetadata.relationships eFrom) /\
                In eTo entities /\
                EntityMetadata.logicalName eTo = EntityRelationship.to rel /\
                In rel (EntityMetadata.relationships eTo)) /\
            edgesWithKey (relationshipKey rel) edges = 1).
  { subst edges. rewrite Hent in *.
    apply (relationship_one_edge inh _ cs' _ _ relNode); assumption. }
  destruct Hone as [Hboth Hcount].
  assert (Hnd : NoDup (map relationshipKey edges))
    by apply allRelationships_keys.
  assert (Hlisted : In rel listed).
  { destruct Hboth as (eFrom & _ & HeF & NF & HrF & _).
    subst listed. unfold listedRelationships. apply filter_In. split.
    - apply in_flat_map. eauto.
    - assert (G : forall k, In k (map EntityMetadata.logicalName entities) ->
                    layoutHas inh entities k = true).
      { intros k Hk. apply in_map_iff in Hk as (e & <- & He).
        unfold layoutHas. apply orb_true_iff. left.
        apply existsb_exists. exists e.
        split; [assumption | apply String.eqb_refl]. }
      now rewrite !G. }
  assert (Hfirst : forall r, In r edges <->
                     find (fun r' => relationshipKey r' =? relationshipKey r)
                       listed = Some r)
    by (intros r; apply allRelationships_first).
  assert (Hedge : exists edge before after,
             edges = before ++ edge :: after /\
             filter (fun e => relationshipKey e =? relationshipKey rel) edges
             = [edge] /\
             relationshipKey edge = relationshipKey rel /\
             (forall e, In e (before ++ after) ->
                        relationshipKey e <> relationshipKey rel) /\
             find (fun r => relationshipKey r =? relationshipKey rel) listed
             = Some edge).
  { destruct (filter_singleton _ _ Hcount)
      as (before & edge & after & E & Hfil & Hk & Hrest).
    apply String.eqb_eq in Hk.
    exists edge, before, after. split; [exact E|]. split; [exact Hfil|].
    split; [exact Hk|]. split.
    - intros e He. apply String.eqb_neq, Hrest, He.
    - assert (He : In edge edges)
        by (rewrite E; apply in_app_iff; simpl; auto).
      apply Hfirst in He. rewrite <- He. apply find_agree.
      intros x. now rewrite Hk. }
  destruct Hedge as (edge & before & after & Eedges & Hfil & Hk & Hrest
                     & Hfind).
  assert (Hself : (forall r, In r listed ->
                             relationshipKey r = relationshipKey rel ->
                             r = rel) -> edge = rel).
  { intros Honly. apply find_some in Hfind as [H1 H2].
    apply String.eqb_eq in H2. auto. }
  split; [exact Hboth|]. split; [exact Hlisted|]. split; [exact Hcount|].
  split; [exact Hnd|].
  split; [exists edge; auto|].
  split; [apply Hfirst|].
  split; [intros Honly; rewrite Hfil; f_equal; apply Hself, Honly|].
  split; [apply sameTriple_key|].
  split; [apply key_sameTriple|].
  split.
  - intros Hrel Hall.
    destruct (find_first _ _ _ Hfind) as (earlier & later & El & _ & Hpre).
    assert (Hedge : Forall hyphenFree (relationshipTriple edge)).
    { apply Hall. fold listed. rewrite El. apply in_app_iff. simpl. auto. }
    assert (Hsub : forall e, In e edges -> In e listed).
    { intros e He. apply Hfirst in He. apply find_some in He. tauto. }
    exists edge, before, after, earlier, later.
    split; [exact Eedges|].
    split; [now apply key_sameTriple|].
    split.
    { intros e He Hs. apply (Hrest e He). now apply sameTriple_key. }
    split; [exact El|].
    split.
    { intros r Hr Hs. apply sameTriple_key in Hs.
      apply String.eqb_eq in Hs. rewrite (Hpre r Hr) in Hs. discriminate. }
    intros Honly. apply Hself. intros r Hr Hkey.
    apply Honly; [exact Hr|]. apply key_sameTriple; auto.
  - intros name ty ty' a b.
    apply (relationshipKey_order_independent name ty ty' ty a b).
Qed.

(** ** Privilege names *)

Lemma stripPrefix_Some p s r : stripPrefix p s = Some r <-> s = (p ++ r)%string.
Proof.
  revert s; induction p as [|a p IH]; intros s; simpl.
  - split; congruence.
  - destruct s as [|b s]; [split; discriminate|].
    destruct (Ascii.eqb_spec a b) as [->|Hne].
    + rewrite IH. split; congruence.
    + split; [discriminate | congruence].
Qed.

Lemma stripPrefix_app p r : stripPrefix p (p ++ r)%string = Some r.
Proof. now apply stripPrefix_Some. Qed.

Lemma stripPrefix_None p s :
  stripPrefix p s = None <-> forall r, s <> (p ++ r)%string.
Proof.
  split.
  - intros H r E. apply stripPrefix_Some in E. congruence.
  - intros H. destruct (stripPrefix p s) as [r|] eqn:E; [|reflexivity].
    apply stripPrefix_Some in E. now destruct (H r).
Qed.

Lemma startsWith_stripPrefix s p :
  startsWith s p = true <-> exists r, s = (p ++ r)%string.
Proof.
  unfold startsWith. revert s; induction p as [|a p IH]; intros [|b s]; simpl.
  - split; eauto.
  - split; eauto.
  - split; [discriminate | intros (r & E); discriminate].
  - destruct (Ascii.ascii_dec a b) as [->|Hne].
    + rewrite IH. split; intros (r & E); exists r; congruence.
    + split; [discriminate | intros (r & E); congruence].
Qed.

Lemma matchAlternatives_Some alts s act rest :
  matchAlternatives alts s = Some (act, rest) ->
  In act alts /\ s = (act ++ rest)%string /\ dotStarToEnd rest = true.
Proof.
  induction alts as [|a r IH]; simpl; [discriminate|].
  destruct (stripPrefix a s) as [rest'|] eqn:E.
  - destruct (dotStarToEnd rest') eqn:Ed.
    + intros H. injection H as <- <-. apply stripPrefix_Some in E. auto.
    + intros H. destruct (IH H) as (H1 & H2 & H3). auto.
  - intros H. destruct (IH H) as (H1 & H2 & H3). auto.
Qed.

Lemma matchAlternatives_None alts s :
  matchAlternatives alts s = None <->
  forall act rest, In act alts -> s = (act ++ rest)%string ->
                   dotStarToEnd rest = false.
Proof.
  induction alts as [|a r IH]; simpl.
  - split; [intros _ ? ? [] | reflexivity].
  - destruct (stripPrefix a s) as [rest'|] eqn:E.
    + destruct (dotStarToEnd rest') eqn:Ed.
      * split; [discriminate|]. intros H.
        apply stripPrefix_Some in E. specialize (H a rest' (or_introl eq_refl) E).
        congruence.
      * rewrite IH. split.
        -- intros H act rest [<-|Hin] Hs; [|eauto].
           apply stripPrefix_Some in Hs. congruence.
        -- intros H act rest Hin. apply H. now right.
    + rewrite IH. split.
      * intros H act rest [<-|Hin] Hs; [|eauto].
        apply stripPrefix_Some in Hs. congruence.
      * intros H act rest Hin. apply H. now right.
Qed.

Lemma actionMatch_Some privName act rest :
  actionMatch privName = Some (act, rest) ->
  In act actionVocabulary /\ privName = ("prv" ++ act ++ rest)%string /\
  dotStarToEnd rest = true.
Proof.
  unfold actionMatch. destruct (stripPrefix "prv" privName) as [s|] eqn:E;
    [|discriminate].
  intros H. apply matchAlternatives_Some in H as (H1 & H2 & H3).
  apply stripPrefix_Some in E. subst. auto.
Qed.

(** The match fails exactly on the names outside the pattern. *)
Lemma actionMatch_None privName :
  actionMatch privName = None <-> ~ matchesActionPattern privName.
Proof.
  unfold actionMatch, matchesActionPattern. split.
  - intros H (act & rest & Hin & E & Hd). subst privName.
    rewrite stripPrefix_app in H.
    rewrite matchAlternatives_None in H.
    specialize (H act rest Hin eq_refl). congruence.
  - intros H. destruct (stripPrefix "prv" privName) as [s|] eqn:E;
      [|reflexivity].
    apply stripPrefix_Some in E. apply matchAlternatives_None.
    intros act rest Hin Hs. destruct (dotStarToEnd rest) eqn:Hd;
      [|reflexivity].
    exfalso. apply H. exists act, rest. subst. auto.
Qed.

Lemma orElse_spec s d : orElse s d = if s =? "" then d else s.
Proof. unfold orElse, truthy. now destruct (s =? ""). Qed.

(** C5.  The decomposition of a privilege name follows the pattern
    prv<Action><Entity> over the vocabulary {Create, Read, Write, Delete,
    AppendTo, Append, Assign, Share}: [prvCreateAccount] gives action
    Create and entity Account; when the pattern matches, the action is
    the matched word and the entity the remainder, or "Global System"
    when the remainder is empty; a name that starts with no prv<Action>
    gets no action, and as entity the name without its [prv] prefix, if
    it has one. *)
Theorem decomposePrivilege_pattern :
  forall privName,
    decomposePrivilege "prvCreateAccount" = (Some "Create", Some "Account") /\
    (forall act rest,
        actionMatch privName = Some (act, rest) ->
        In act actionVocabulary /\ privName = ("prv" ++ act ++ rest)%string /\
        decomposePrivilege privName =
        (Some act, Some (if rest =? "" then "Global System" else rest))) /\
    (matchesActionPattern privName ->
     exists act rest, actionMatch privName = Some (act, rest)) /\
    (forall act,
        In act actionVocabulary -> privName = ("prv" ++ act)%string ->
        decomposePrivilege privName = (Some act, Some "Global System")) /\
    ((forall act rest,
         In act actionVocabulary -> privName <> ("prv" ++ act ++ rest)%string) ->
     exists entity,
       decomposePrivilege privName = (None, Some entity) /\
       (forall r, privName = ("prv" ++ r)%string -> entity = r) /\
       ((forall r, privName <> ("prv" ++ r)%string) -> entity = privName)).
Proof.
  intros privName. split; [reflexivity|].
  split.
  { intros act rest H. destruct (actionMatch_Some _ _ _ H) as (H1 & H2 & _).
    split; [assumption|]. split; [assumption|].
    unfold decomposePrivilege. now rewrite H, orElse_spec. }
  split.
  { intros H. destruct (actionMatch privName) as [[act rest]|] eqn:E;
      [eauto|].
    apply actionMatch_None in E. contradiction. }
  split.
  { intros act Hin ->. simpl in Hin.
    repeat (destruct Hin as [<-|Hin]; [reflexivity|]). destruct Hin. }
  intros Hno.
  assert (E : actionMatch privName = None).
  { apply actionMatch_None. intros (act & rest & Hin & Hs & _).
    exact (Hno act rest Hin Hs). }
  unfold decomposePrivilege. rewrite E.
  destruct (startsWith privName "prv") eqn:Es.
  - apply startsWith_stripPrefix in Es as (r0 & ->).
    exists r0. split; [reflexivity|]. split.
    + intros r Hr. injection Hr as Hr. congruence.
    + intros H. now destruct (H r0).
  - exists privName. split; [reflexivity|]. split; [|reflexivity].
    intros r Hr. assert (startsWith privName "prv" = true)
      by (apply startsWith_stripPrefix; eauto). congruence.
Qed.

(** C10.  Every privilege record of a security role parsed from the
    customization descriptor has a defined [entity]: each branch of the
    decomposition assigns one.  Its [action] is undefined exactly when
    the pattern of the source fails to match the privilege name, that is
    exactly when the name is not prv<Action> followed by a remainder
    without line terminator.  Both fields are optional in the declared
    type. *)
Theorem parsed_privileges_have_entity :
  forall (node : Dom.Role) (p : Privilege.t),
    In p (SecurityRoleMetadata.privileges (parseRole node)) ->
    (exists entity, Privilege.entity p = Some entity) /\
    (Privilege.action p = None <-> actionMatch (Privilege.name p) = None) /\
    (Privilege.action p = None <-> ~ matchesActionPattern (Privilege.name p)).
Proof.
  intros node p Hin. unfold parseRole in Hin. simpl in Hin.
  apply in_map_iff in Hin as (n & <- & _).
  unfold parsePrivilege.
  assert (G : forall s,
             (exists entity, snd (decomposePrivilege s) = Some entity) /\
             (fst (decomposePrivilege s) = None <-> actionMatch s = None)).
  { intros s. unfold decomposePrivilege.
    destruct (actionMatch s) as [[act rest]|].
    - simpl. split; [eauto|]. split; discriminate.
    - destruct (startsWith s "prv"); simpl; split; eauto; tauto. }
  specialize (G (optOr (Dom.rp_name n) "")).
  destruct (decomposePrivilege (optOr (Dom.rp_name n) "")) as [action entity].
  simpl in *. destruct G as [G1 G2].
  split; [exact G1|]. split; [exact G2|].
  rewrite G2. apply actionMatch_None.
Qed.

(** ** The archive reader *)

Lemma substring_split s k m :
  k + m = String.length s ->
  s = (substring 0 k s ++ substring k m s)%string.
Proof.
  revert k m; induction s as [|c s IH]; intros k m H; simpl in H.
  - assert (k = 0) by lia. assert (m = 0) by lia. subst. reflexivity.
  - destruct k as [|k]; simpl.
    + destruct m as [|m]; [discriminate|]. simpl. f_equal.
      injection H as H. rewrite (IH 0 m H) at 1.
      now destruct s.
    + f_equal. apply IH. lia.
Qed.

Lemma endsWith_suffix s suf :
  endsWith s suf = true -> exists pre, s = (pre ++ suf)%string.
Proof.
  unfold endsWith. intros H. apply andb_true_iff in H as [Hle Heq].
  apply Nat.leb_le in Hle. apply String.eqb_eq in Heq.
  exists (substring 0 (String.length s - String.length suf) s).
  pose proof (substring_split s (String.length s - String.length suf)
                (String.length suf)) as E.
  rewrite Heq in E. apply E. lia.
Qed.

Lemma list_ascii_of_string_app a b :
  list_ascii_of_string (a ++ b) =
  list_ascii_of_string a ++ list_ascii_of_string b.
Proof. induction a as [|c a IH]; simpl; [reflexivity | now rewrite IH]. Qed.

(** After the last separator comes what [split(sep).pop()] returns. *)
Lemma splitPop_last sep pre r :
  existsb (Ascii.eqb sep) (list_ascii_of_string r) = false ->
  splitPop sep (pre ++ String sep r) = r.
Proof.
  intros Hr. induction pre as [|c pre IH]; simpl.
  - now rewrite Hr, Ascii.eqb_refl.
  - rewrite list_ascii_of_string_app, existsb_app. simpl.
    rewrite Ascii.eqb_refl, orb_true_r. exact IH.
Qed.

Lemma msapp_is_other relativePath :
  endsWith relativePath ".msapp" = true -> fileTypeOf relativePath = other.
Proof.
  intros H. apply endsWith_suffix in H as (pre & ->).
  unfold fileTypeOf. change ".msapp" with (String "." "msapp").
  now rewrite splitPop_last.
Qed.

(** C7, counterexample.  Not every file whose extension is not
    text-decodable has its content replaced by the binary marker: the
    entry [notes/readme.txt] is of type 'other' and its content is the
    decoded text "hello". *)
Lemma other_extension_keeps_decoded_text :
  let zipEntry :=
    ZipEntry.mk "notes/readme.txt" false (list_byte_of_string "hello") in
  let f := toSolutionFile string_of_list_byte "notes/readme.txt" zipEntry in
  ZipEntry.dir zipEntry = false /\
  fileTypeOf "notes/readme.txt" = other /\
  SolutionFile.type f = other /\
  SolutionFile.content f = "hello" /\
  SolutionFile.content f <> "[Binary Content]".
Proof.
  cbv zeta. repeat split; try reflexivity. vm_compute. discriminate.
Qed.

Lemma splitPop_no_separator sep s :
  existsb (Ascii.eqb sep) (list_ascii_of_string (splitPop sep s)) = false.
Proof.
  induction s as [|c r IH]; [reflexivity|]. cbn [splitPop].
  destruct (existsb _ (list_ascii_of_string r)) eqn:Er; [exact IH|].
  destruct (Ascii.eqb_spec c sep) as [->|Hne]; [exact Er|].
  cbn [list_ascii_of_string existsb]. rewrite Er, orb_false_r.
  apply Ascii.eqb_neq. congruence.
Qed.

Lemma splitPop_suffix sep s :
  exists pre,
    s = (pre ++ splitPop sep s)%string /\
    (pre = "" \/ exists pre', pre = (pre' ++ String sep "")%string).
Proof.
  induction s as [|c r IH]; [exists ""; auto|]. cbn [splitPop].
  destruct (existsb _ (list_ascii_of_string r)) eqn:Er.
  - destruct IH as (pre & E & Hpre). exists (String c pre). simpl.
    split; [now rewrite <- E|]. right.
    destruct Hpre as [->|(pre' & ->)].
    + simpl in E. rewrite E, splitPop_no_separator in Er. discriminate.
    + exists (String c pre'). reflexivity.
  - destruct (Ascii.eqb_spec c sep) as [->|Hne].
    + exists (String sep ""). split; [reflexivity|]. right. now exists "".
    + exists "". auto.
Qed.

Lemma orElse_empty s : orElse s "" = s.
Proof. rewrite orElse_spec. destruct (String.eqb_spec s ""); congruence. Qed.

Lemma string_app_assoc (a b c : string) :
  ((a ++ b) ++ c = a ++ (b ++ c))%string.
Proof. induction a as [|x a IH]; simpl; [reflexivity | now rewrite IH]. Qed.

Lemma has_separator sep s :
  existsb (Ascii.eqb sep) (list_ascii_of_string s) = true <->
  exists a b, s = (a ++ String sep b)%string.
Proof.
  split.
  - induction s as [|c r IH]; simpl; [discriminate|].
    destruct (Ascii.eqb_spec sep c) as [->|Hne]; simpl.
    + intros _. exists "", r. reflexivity.
    + intros H. destruct (IH H) as (a & b & ->).
      exists (String c a), b. reflexivity.
  - intros (a & b & ->).
    rewrite list_ascii_of_string_app, existsb_app. simpl.
    rewrite Ascii.eqb_refl. apply orb_true_r.
Qed.

Lemma splitPop_whole sep s :
  existsb (Ascii.eqb sep) (list_ascii_of_string s) = false ->
  splitPop sep s = s.
Proof.
  destruct s as [|c r]; [reflexivity|]. cbn [list_ascii_of_string existsb].
  intros H. apply orb_false_iff in H as [Hc Hr]. cbn [splitPop].
  rewrite Hr, Ascii.eqb_sym, Hc. reflexivity.
Qed.

(** The text the reader lower-cases and compares is the extension. *)
Lemma hasExtension_iff relativePath ext :
  hasExtension relativePath ext <->
  toLowerCase (splitPop "." relativePath) = ext.
Proof.
  unfold hasExtension. split.
  - intros (before & last & -> & Hb & Hlast & <-).
    assert (Hno : existsb (Ascii.eqb ".") (list_ascii_of_string last) = false).
    { apply not_true_is_false. intros H.
      apply has_separator in H as (a & b & E). exact (Hlast a b E). }
    destruct Hb as [->|(b & ->)].
    + simpl. now rewrite splitPop_whole.
    + rewrite string_app_assoc. change ("." ++ last)%string
        with (String "." last). now rewrite splitPop_last.
  - intros <-. destruct (splitPop_suffix "." relativePath) as (pre & E & Hpre).
    exists pre, (splitPop "." relativePath). split; [exact E|].
    split; [exact Hpre|]. split; [|reflexivity].
    intros a b Hab.
    pose proof (splitPop_no_separator "." relativePath) as Hno.
    rewrite Hab, !list_ascii_of_string_app, !existsb_app in Hno.
    simpl in Hno. rewrite orb_true_r in Hno. discriminate.
Qed.

Lemma length_append (a b : string) :
  String.length (a ++ b) = String.length a + String.length b.
Proof. induction a as [|c a IH]; simpl; [reflexivity | now rewrite IH]. Qed.

Lemma substring_suffix (pre suf : string) :
  substring (String.length pre) (String.length suf) (pre ++ suf) = suf.
Proof.
  induction pre as [|c pre IH]; simpl; [|exact IH].
  induction suf as [|d suf IHs]; simpl; [reflexivity|]. now rewrite IHs.
Qed.

(** [s.endsWith(suf)] holds exactly of the strings that end with [suf]. *)
Lemma endsWith_iff s suf :
  endsWith s suf = true <-> exists pre, s = (pre ++ suf)%string.
Proof.
  split; [apply endsWith_suffix|].
  intros (pre & ->). unfold endsWith. cbv zeta.
  rewrite length_append.
  replace (String.length pre + String.length suf - String.length suf)
    with (String.length pre) by lia.
  rewrite substring_suffix, String.eqb_refl, andb_true_r.
  apply Nat.leb_le. lia.
Qed.

(** C7, amended.  For every archive entry that is not a directory the
    reader records one file under the entry's path.  A file whose path
    ends in [.msapp] has the binary marker as its content and the type
    'other'; every other file, whatever its extension, has its content
    decoded as text, in particular every file whose type is not
    'other'.  The type is xml, xaml, json, js or css exactly when the
    extension of the path (the text after its last dot, in lower case)
    is that word, and 'other' exactly when it is none of the five. *)
Theorem content_is_text_unless_msapp :
  forall decodeString relativePath zipEntry,
    let f := toSolutionFile decodeString relativePath zipEntry in
    let endsInMsapp := exists pre, relativePath = (pre ++ ".msapp")%string in
    SolutionFile.path f = relativePath /\
    SolutionFile.type f = fileTypeOf relativePath /\
    (endsWith relativePath ".msapp" = true <-> endsInMsapp) /\
    (endsWith relativePath ".msapp" = true ->
     SolutionFile.content f = "[Binary Content]" /\
     SolutionFile.type f = other) /\
    (endsWith relativePath ".msapp" = false ->
     SolutionFile.content f = decodeString (ZipEntry.data zipEntry)) /\
    (endsInMsapp ->
     SolutionFile.content f = "[Binary Content]" /\
     SolutionFile.type f = other) /\
    (~ endsInMsapp ->
     SolutionFile.content f = decodeString (ZipEntry.data zipEntry)) /\
    (SolutionFile.type f <> other ->
     SolutionFile.content f = decodeString (ZipEntry.data zipEntry)) /\
    (SolutionFile.type f = xml <-> hasExtension relativePath "xml") /\
    (SolutionFile.type f = xaml <-> hasExtension relativePath "xaml") /\
    (SolutionFile.type f = json <-> hasExtension relativePath "json") /\
    (SolutionFile.type f = js <-> hasExtension relativePath "js") /\
    (SolutionFile.type f = css <-> hasExtension relativePath "css") /\
    (SolutionFile.type f = other <->
     forall ext, In ext ["xml"; "xaml"; "json"; "js"; "css"] ->
                 ~ hasExtension relativePath ext) /\
    (forall pre,
        fileTypeOf (pre ++ ".xml") = xml /\
        fileTypeOf (pre ++ ".xaml") = xaml /\
        fileTypeOf (pre ++ ".json") = json /\
        fileTypeOf (pre ++ ".js") = js /\
        fileTypeOf (pre ++ ".css") = css) /\
    (forall zip,
        collectFiles decodeString zip =
        map (fun e => toSolutionFile decodeString (fst e) (snd e))
          (filter (fun e => negb (ZipEntry.dir (snd e))) zip)).
Proof.
  intros decode relativePath zipEntry f endsInMsapp. subst f endsInMsapp.
  unfold toSolutionFile, readEntry.
  cbn [SolutionFile.path SolutionFile.type SolutionFile.content].
  pose proof (endsWith_iff relativePath ".msapp") as Hends.
  assert (Hmarker : endsWith relativePath ".msapp" = true ->
                    (match (if endsWith relativePath ".msapp"
                            then AsUint8Array (ZipEntry.data zipEntry)
                            else AsString (decode (ZipEntry.data zipEntry)))
                     with
                     | AsString s => s
                     | AsUint8Array _ => "[Binary Content]"
                     end) = "[Binary Content]" /\
                    fileTypeOf relativePath = other).
  { intros H. rewrite H. split; [reflexivity | now apply msapp_is_other]. }
  assert (Htext : endsWith relativePath ".msapp" = false ->
                  (match (if endsWith relativePath ".msapp"
                          then AsUint8Array (ZipEntry.data zipEntry)
                          else AsString (decode (ZipEntry.data zipEntry)))
                   with
                   | AsString s => s
                   | AsUint8Array _ => "[Binary Content]"
                   end) = decode (ZipEntry.data zipEntry)).
  { intros H. now rewrite H. }
  assert (Hext : forall ext,
             hasExtension relativePath ext <->
             toLowerCase (splitPop "." relativePath) = ext)
    by (intros ext; apply hasExtension_iff).
  assert (Htype : fileTypeOf relativePath
                  = let e := toLowerCase (splitPop "." relativePath) in
                    if e =? "xml" then xml
                    else if e =? "xaml" then xaml
                    else if e =? "json" then json
                    else if e =? "js" then js
                    else if e =? "css" then css
                    else other).
  { unfold fileTypeOf. cbv zeta. now rewrite orElse_empty. }
  split; [reflexivity|]. split; [reflexivity|].
  split; [exact Hends|]. split; [exact Hmarker|]. split; [exact Htext|].
  split; [intros H; apply Hmarker, Hends, H|].
  split.
  { intros H. apply Htext. apply not_true_is_false. intros E.
    apply H, Hends, E. }
  split.
  { intros H. destruct (endsWith relativePath ".msapp") eqn:E;
      [|reflexivity].
    apply msapp_is_other in E. contradiction. }
  rewrite Htype. cbv zeta. rewrite !Hext.
  set (e := toLowerCase (splitPop "." relativePath)) in *. clearbody e.
  assert (Hcases : e = "xml" \/ e = "xaml" \/ e = "json" \/ e = "js" \/
                   e = "css" \/
                   (e <> "xml" /\ e <> "xaml" /\ e <> "json" /\ e <> "js" /\
                    e <> "css")).
  { destruct (String.eqb_spec e "xml"); [tauto|].
    destruct (String.eqb_spec e "xaml"); [tauto|].
    destruct (String.eqb_spec e "json"); [tauto|].
    destruct (String.eqb_spec e "js"); [tauto|].
    destruct (String.eqb_spec e "css"); tauto. }
  assert (Htag : (if e =? "xml" then xml
                  else if e =? "xaml" then xaml
                  else if e =? "json" then json
                  else if e =? "js" then js
                  else if e =? "css" then css
                  else other) = other ->
                 e <> "xml" /\ e <> "xaml" /\ e <> "json" /\ e <> "js" /\
                 e <> "css").
  { destruct Hcases as [->|[->|[->|[->|[->|H]]]]];
      try discriminate. intros _. exact H. }
  split; [|split; [|split; [|split; [|split; [|split; [|split]]]]]].
  - destruct Hcases as [->|[->|[->|[->|[->|(N1 & N2 & N3 & N4 & N5)]]]]];
      try (cbn; split; [reflexivity || discriminate | reflexivity || discriminate]).
    apply String.eqb_neq in N1, N2, N3, N4, N5.
    rewrite N1, N2, N3, N4, N5. apply String.eqb_neq in N1.
    split; [discriminate | contradiction].
  - destruct Hcases as [->|[->|[->|[->|[->|(N1 & N2 & N3 & N4 & N5)]]]]];
      try (cbn; split; [reflexivity || discriminate | reflexivity || discriminate]).
    apply String.eqb_neq in N1, N2, N3, N4, N5.
    rewrite N1, N2, N3, N4, N5. apply String.eqb_neq in N2.
    split; [discriminate | contradiction].
  - destruct Hcases as [->|[->|[->|[->|[->|(N1 & N2 & N3 & N4 & N5)]]]]];
      try (cbn; split; [reflexivity || discriminate | reflexivity || discriminate]).
    apply String.eqb_neq in N1, N2, N3, N4, N5.
    rewrite N1, N2, N3, N4, N5. apply String.eqb_neq in N3.
    split; [discriminate | contradiction].
  - destruct Hcases as [->|[->|[->|[->|[->|(N1 & N2 & N3 & N4 & N5)]]]]];
      try (cbn; split; [reflexivity || discriminate | reflexivity || discriminate]).
    apply String.eqb_neq in N1, N2, N3, N4, N5.
    rewrite N1, N2, N3, N4, N5. apply String.eqb_neq in N4.
    split; [discriminate | contradiction].
  - destruct Hcases as [->|[->|[->|[->|[->|(N1 & N2 & N3 & N4 & N5)]]]]];
      try (cbn; split; [reflexivity || discriminate | reflexivity || discriminate]).
    apply String.eqb_neq in N1, N2, N3, N4, N5.
    rewrite N1, N2, N3, N4, N5. apply String.eqb_neq in N5.
    split; [discriminate | contradiction].
  - split.
    + intros H ext Hin E. rewrite Hext in E. subst ext.
      destruct (Htag H) as (N1 & N2 & N3 & N4 & N5).
      simpl in Hin. intuition congruence.
    + intros H.
      assert (N1 : e <> "xml")
        by (intros E; apply (H "xml"); [simpl; tauto | now apply Hext]).
      assert (N2 : e <> "xaml")
        by (intros E; apply (H "xaml"); [simpl; tauto | now apply Hext]).
      assert (N3 : e <> "json")
        by (intros E; apply (H "json"); [simpl; tauto | now apply Hext]).
      assert (N4 : e <> "js")
        by (intros E; apply (H "js"); [simpl; tauto | now apply Hext]).
      assert (N5 : e <> "css")
        by (intros E; apply (H "css"); [simpl; tauto | now apply Hext]).
      apply String.eqb_neq in N1, N2, N3, N4, N5.
      now rewrite N1, N2, N3, N4, N5.
  - intros pre. unfold fileTypeOf.
    change ".xml" with (String "." "xml").
    change ".xaml" with (String "." "xaml").
    change ".json" with (String "." "json").
    change ".js" with (String "." "js").
    change ".css" with (String "." "css").
    rewrite !splitPop_last by reflexivity. auto.
  - reflexivity.
Qed.

(** ** Reconciliation: merging a contribution into the components *)

Section MergeFacts.
Context {A : Type}.
Variables (p : A -> bool) (f : A -> A) (fresh : A).

(** When a record matches, the first match is mutated in place and
    nothing else changes. *)
Lemma mergeOrPush_existing arr c :
  find p arr = Some c ->
  exists l1 l2,
    arr = l1 ++ c :: l2 /\ existsb p l1 = false /\ p c = true /\
    mergeOrPush p f fresh arr = l1 ++ f c :: l2.
Proof.
  intros H. unfold mergeOrPush. rewrite H.
  apply find_split in H as (l1 & l2 & -> & Hc & Hl1).
  exists l1, l2. split; [reflexivity|]. split; [assumption|].
  split; [assumption|]. now apply updateFirst_split.
Qed.

Lemma mergeOrPush_fresh arr :
  find p arr = None -> mergeOrPush p f fresh arr = arr ++ [fresh].
Proof. intros H. unfold mergeOrPush. now rewrite H. Qed.

Hypothesis match_kept : forall c, p c = true -> p (f c) = true.
Hypothesis update_once : forall c, p c = true -> f (f c) = f c.
Hypothesis fresh_matches : p fresh = true.
Hypothesis fresh_updated : f fresh = fresh.

Lemma mergeOrPush_idempotent arr :
  mergeOrPush p f fresh (mergeOrPush p f fresh arr)
  = mergeOrPush p f fresh arr.
Proof.
  destruct (find p arr) as [c|] eqn:E.
  - destruct (mergeOrPush_existing arr c E)
      as (l1 & l2 & -> & Hl1 & Hc & ->).
    unfold mergeOrPush. rewrite find_app.
    replace (find p l1) with (@None A)
      by (symmetry; now apply find_None_existsb).
    simpl. rewrite (match_kept c Hc).
    rewrite updateFirst_split by auto. now rewrite update_once.
  - rewrite (mergeOrPush_fresh arr E).
    unfold mergeOrPush. rewrite find_app, E. simpl.
    rewrite fresh_matches.
    rewrite updateFirst_split by (try apply find_None_existsb; auto).
    now rewrite fresh_updated.
Qed.
End MergeFacts.

(** C6, counterexample.  A merge does not overwrite [displayName] only
    when the incoming value is non-empty: a role without a [name]
    attribute, merged into the record seeded for it by the root-component
    pass, replaces the display name "Clerk" by the empty string. *)
Lemma displayName_overwritten_by_empty_value :
  let seeded := mk "{role-1}" "Clerk" "Clerk" SecurityRole None [] None in
  let node := Dom.mkRole (Some "{role-1}") None None [] in
  existingRole [seeded] node = Some seeded /\
  optOr (Dom.role_name node) "" = "" /\
  displayName seeded = "Clerk" /\
  map displayName (roleStep [seeded] node) = [""].
Proof. cbv zeta. repeat split; reflexivity. Qed.

(** C6, amended.  Every merge of a later contribution into an existing
    record mutates that record alone and overwrites [displayName]
    with the incoming value whether or not it is empty.  The role, table,
    model-app and canvas-app passes also overwrite [metadata]; the
    canvas-app pass sets [type] to 'App', the other passes keep it.  The
    [files] list is never replaced: the flow pass unions the incoming
    paths into it, the other passes leave it as it is. *)
Theorem merge_overwrites_and_keeps_files :
  forall files components,
    (forall node c,
        existingRole components node = Some c ->
        exists l1 l2,
          components = l1 ++ c :: l2 /\
          roleStep components node =
          l1 ++ LogicalComponent.mk (LogicalComponent.id c)
                  (optOr (Dom.role_name node) "") (logicalName c)
                  (type c) (description c) (LogicalComponent.files c)
                  (Some (RoleMeta (parseRole node))) :: l2) /\
    (forall appMeta c,
        existingCanvasApp components appMeta = Some c ->
        exists l1 l2,
          components = l1 ++ c :: l2 /\
          canvasStep files components appMeta =
          l1 ++ LogicalComponent.mk (LogicalComponent.id c)
                  (CanvasAppMetadata.displayName appMeta)
                  (logicalName c) App (description c)
                  (LogicalComponent.files c) (Some (CanvasMeta appMeta))
             :: l2) /\
    (forall entityMap node c,
        existingTable components node = Some c ->
        exists l1 l2,
          components = l1 ++ c :: l2 /\
          snd (entityStep files (entityMap, components) node) =
          l1 ++ LogicalComponent.mk (LogicalComponent.id c)
                  (EntityMetadata.displayName (parseEntity node))
                  (logicalName c) (type c) (description c)
                  (LogicalComponent.files c)
                  (Some (TableMeta (EntityMetadata.fields (parseEntity node))))
             :: l2) /\
    (forall node c,
        existingModelApp components node = Some c ->
        exists l1 l2,
          components = l1 ++ c :: l2 /\
          appModuleStep files components node =
          l1 ++ LogicalComponent.mk (LogicalComponent.id c)
                  (ModelAppMetadata.displayName (parseAppModule node))
                  (logicalName c) (type c) (description c)
                  (LogicalComponent.files c)
                  (Some (ModelMeta (parseAppModule node))) :: l2) /\
    (forall node c,
        existingFlow components node = Some c ->
        exists l1 l2 merged,
          components = l1 ++ c :: l2 /\
          workflowStep files components node =
          l1 ++ LogicalComponent.mk (LogicalComponent.id c)
                  (optOr (Dom.wf_Name node) "Untitled Flow")
                  (logicalName c) (type c) (description c) merged
                  (metadata c) :: l2 /\
          NoDup merged /\
          (forall x, In x merged <->
                     In x (LogicalComponent.files c) \/
                     In x (flowFilePaths files node))).
Proof.
  intros files components.
  split; [|split; [|split; [|split]]].
  - intros node c H. unfold existingRole in H.
    destruct (mergeOrPush_existing _
                (fun c => setMetadata (RoleMeta (parseRole node))
                            (setDisplayName (optOr (Dom.role_name node) "") c))
                (mk (optOr (Dom.role_id node) "")
                   (optOr (Dom.role_name node) "")
                   (optOr (Dom.role_name node) "") SecurityRole None []
                   (Some (RoleMeta (parseRole node))))
                _ _ H) as (l1 & l2 & E & _ & _ & R).
    exists l1, l2. split; [exact E | exact R].
  - intros appMeta c H. unfold existingCanvasApp in H.
    destruct (mergeOrPush_existing _
                (fun c => setMetadata (CanvasMeta appMeta)
                            (setDisplayName
                               (CanvasAppMetadata.displayName appMeta)
                               (setType App c)))
                (mk (orElse (CanvasAppMetadata.appId appMeta)
                       (CanvasAppMetadata.name appMeta))
                   (CanvasAppMetadata.displayName appMeta)
                   (CanvasAppMetadata.name appMeta) App
                   (Some (CanvasAppMetadata.description appMeta))
                   (pathsWhere
                      (fun p => includes p (CanvasAppMetadata.name appMeta))
                      files)
                   (Some (CanvasMeta appMeta)))
                _ _ H) as (l1 & l2 & E & _ & _ & R).
    exists l1, l2. split; [exact E | exact R].
  - intros entityMap node c H. unfold existingTable in H.
    unfold entityStep. cbv zeta. simpl snd.
    match goal with
    | |- context [mergeOrPush ?p ?f ?fresh components] =>
        destruct (mergeOrPush_existing p f fresh _ _ H)
          as (l1 & l2 & E & _ & _ & R)
    end.
    exists l1, l2. split; [exact E | exact R].
  - intros node c H. unfold existingModelApp in H.
    unfold appModuleStep. cbv zeta.
    match goal with
    | |- context [mergeOrPush ?p ?f ?fresh components] =>
        destruct (mergeOrPush_existing p f fresh _ _ H)
          as (l1 & l2 & E & _ & _ & R)
    end.
    exists l1, l2. split; [exact E | exact R].
  - intros node c H. unfold existingFlow in H.
    unfold workflowStep. cbv zeta.
    match goal with
    | |- context [mergeOrPush ?p ?f ?fresh components] =>
        destruct (mergeOrPush_existing p f fresh _ _ H)
          as (l1 & l2 & E & _ & _ & R)
    end.
    exists l1, l2. eexists. split; [exact E|]. split; [exact R|].
    split; [apply Set_from_NoDup|].
    intros x. rewrite Set_from_In, in_app_iff. reflexivity.
Qed.

(** *** Merging the same contribution twice *)

Lemma pathsWhere_NoDup q files :
  NoDup (map SolutionFile.path files) -> NoDup (pathsWhere q files).
Proof.
  unfold pathsWhere. induction files as [|f r IH]; simpl; intros H;
    [constructor|].
  inversion H as [|? ? Hf Hr]; subst.
  destruct (q (SolutionFile.path f)); simpl; [|auto].
  constructor; [|auto]. intros Hin. apply Hf.
  apply in_map_iff in Hin as (g & E & Hg). apply filter_In in Hg as [Hg _].
  rewrite <- E. now apply in_map.
Qed.

Lemma pathsWhere_In q files x :
  In x (pathsWhere q files) <->
  In x (map SolutionFile.path files) /\ q x = true.
Proof.
  unfold pathsWhere. rewrite !in_map_iff. split.
  - intros (f & <- & Hf). apply filter_In in Hf as [Hf Hq].
    split; [eauto | assumption].
  - intros [(f & <- & Hf) Hq]. exists f. split; [reflexivity|].
    now apply filter_In.
Qed.

Lemma Map_set_twice {V} (m : Map V) k v :
  Map_set (Map_set m k v) k v = Map_set m k v.
Proof.
  induction m as [|[k1 v1] r IH]; simpl.
  - now rewrite String.eqb_refl.
  - destruct (k1 =? k) eqn:E; simpl.
    + now rewrite String.eqb_refl.
    + now rewrite E, IH.
Qed.

Lemma ComponentType_eqb_refl ty : ComponentType_eqb ty ty = true.
Proof. destruct ty; try reflexivity. apply String.eqb_refl. Qed.

(** C8.  Reconciliation is idempotent: merging the same contribution
    into the component state a second time changes nothing, for each of
    the passes that contribute components (root components, security
    roles, tables, model-driven apps, cloud flows, canvas apps).  In
    particular the second merge duplicates no entry of [files] and
    changes no field.  The paths of the bundle's files are pairwise
    different, as the keys of an archive are. *)
Theorem reconciliation_idempotent :
  forall files,
    NoDup (map SolutionFile.path files) ->
    (forall components node,
        rootComponentStep files (rootComponentStep files components node) node
        = rootComponentStep files components node) /\
    (forall components node,
        roleStep (roleStep components node) node = roleStep components node) /\
    (forall st node,
        entityStep files (entityStep files st node) node
        = entityStep files st node) /\
    (forall components node,
        appModuleStep files (appModuleStep files components node) node
        = appModuleStep files components node) /\
    (forall components node,
        workflowStep files (workflowStep files components node) node
        = workflowStep files components node) /\
    (forall components appMeta,
        canvasStep files (canvasStep files components appMeta) appMeta
        = canvasStep files components appMeta).
Proof.
  intros files Hfiles.
  split; [|split; [|split; [|split; [|split]]]].
  - intros components node. unfold rootComponentStep. cbv zeta.
    destruct (truthy (optOr (Dom.rc_id node) "")) eqn:Et; simpl;
      [|reflexivity].
    destruct (existsb _ components) eqn:Ex; simpl.
    + now rewrite Ex.
    + rewrite existsb_app. simpl. now rewrite String.eqb_refl, orb_true_r.
  - intros components node. unfold roleStep. cbv zeta.
    apply mergeOrPush_idempotent; simpl; auto.
    now rewrite String.eqb_refl.
  - intros [entityMap components] node. unfold entityStep. cbv zeta.
    rewrite Map_set_twice. f_equal.
    apply mergeOrPush_idempotent; simpl; auto.
    now rewrite String.eqb_refl.
  - intros components node. unfold appModuleStep. cbv zeta.
    apply mergeOrPush_idempotent; simpl; auto.
    now rewrite String.eqb_refl.
  - intros components node. unfold workflowStep. cbv zeta.
    apply mergeOrPush_idempotent; simpl; auto.
    + intros c _. unfold setFiles, setDisplayName. simpl. f_equal.
      rewrite Set_from_app, Set_from_NoDup_id by apply Set_from_NoDup.
      apply fold_Set_add_absorb. intros x Hx.
      apply Set_from_In, in_app_iff. now right.
    + apply String.eqb_refl.
    + unfold setFiles, setDisplayName. simpl. f_equal.
      rewrite Set_from_app, Set_from_NoDup_id
        by (apply pathsWhere_NoDup, Hfiles).
      apply fold_Set_add_absorb. intros x Hx.
      apply pathsWhere_In in Hx as [Hx Hq]. apply pathsWhere_In.
      split; [assumption|]. now rewrite Hq.
  - intros components appMeta. unfold canvasStep. cbv zeta.
    apply mergeOrPush_idempotent; simpl; auto.
    now rewrite String.eqb_refl.
Qed.

(** ** The oracle boundary *)

Section RetryFacts.
Import Gemini.
Variable T : Type.
Variable oracle : nat -> ApiError + T.

Let run := executeWithRetry T oracle.

(** Either every attempt failed on quota and the retries are used up,
    or the first attempt that did not fail on quota decided. *)
Lemma executeWithRetry_cases retries delay w :
  ((forall i, i <= retries -> quotaFailureAt oracle (calls w + i)) /\
   fst (run retries delay w) = inl (QuotaError "API rate limit exceeded.")
   /\ calls (snd (run retries delay w)) = calls w + retries + 1)
  \/
  (exists i,
      i <= retries /\
      (forall j, j < i -> quotaFailureAt oracle (calls w + j)) /\
      calls (snd (run retries delay w)) = calls w + i + 1 /\
      ((exists error,
           oracle (calls w + i) = inl error /\
           isQuotaExhaustion error = false /\
           fst (run retries delay w) = inl (Rethrown error)) \/
       (exists v,
           oracle (calls w + i) = inr v /\
           fst (run retries delay w) = inr v))).
Proof.
  subst run. revert delay w; induction retries as [|r IH]; intros delay w;
    simpl; unfold fn.
  - destruct (oracle (calls w)) as [error|v] eqn:Eo.
    + destruct (isQuotaExhaustion error) eqn:Eq; simpl.
      * left. split; [|split; [reflexivity | lia]].
        intros i Hi. assert (i = 0) by lia. subst.
        rewrite Nat.add_0_r. exists error. auto.
      * right. exists 0. rewrite Nat.add_0_r.
        split; [lia|]. split; [intros j Hj; lia|]. split; [lia|].
        left. exists error. auto.
    + right. exists 0. rewrite Nat.add_0_r. simpl.
      split; [lia|]. split; [intros j Hj; lia|]. split; [lia|].
      right. exists v. auto.
  - destruct (oracle (calls w)) as [error|v] eqn:Eo.
    + destruct (isQuotaExhaustion error) eqn:Eq; simpl.
      * specialize (IH (delay * 2)
                       (sleep delay (mkWorld (S (calls w)) (waited w)))).
        simpl in IH.
        assert (Hshift : forall k, S (calls w) + k = calls w + S k)
          by (intros; lia).
        destruct IH as [(Hall & Hr & Hc)|(i & Hi & Hpre & Hc & Hres)].
        -- left. split; [|split; [exact Hr | lia]].
           intros [|i] Hi.
           ++ rewrite Nat.add_0_r. exists error. auto.
           ++ rewrite <- Hshift. apply Hall. lia.
        -- right. exists (S i). rewrite <- Hshift.
           split; [lia|]. split; [|split; [lia | exact Hres]].
           intros [|j] Hj.
           ++ rewrite Nat.add_0_r. exists error. auto.
           ++ rewrite <- Hshift. apply Hpre. lia.
      * right. exists 0. rewrite Nat.add_0_r.
        split; [lia|]. split; [intros j Hj; lia|]. split; [lia|].
        left. exists error. auto.
    + right. exists 0. rewrite Nat.add_0_r. simpl.
      split; [lia|]. split; [intros j Hj; lia|]. split; [lia|].
      right. exists v. auto.
Qed.

End RetryFacts.

(** The three outcomes of [executeWithRetry], by the test the code
    applies to the caught error. *)
Lemma executeWithRetry_outcomes :
  forall (T : Type) (oracle : nat -> Gemini.ApiError + T)
         (retries delay : nat) (w : Gemini.World),
    let r := Gemini.executeWithRetry T oracle retries delay w in
    ((exists msg, fst r = inl (Gemini.QuotaError msg)) <->
     (forall i, i <= retries ->
                quotaFailureAt oracle (Gemini.calls w + i))) /\
    (forall msg,
        fst r = inl (Gemini.QuotaError msg) ->
        msg = "API rate limit exceeded." /\
        Gemini.calls (snd r) = Gemini.calls w + retries + 1) /\
    (forall error,
        fst r = inl (Gemini.Rethrown error) <->
        Gemini.isQuotaExhaustion error = false /\
        exists i,
          i <= retries /\ oracle (Gemini.calls w + i) = inl error /\
          (forall j, j < i -> quotaFailureAt oracle (Gemini.calls w + j))) /\
    (forall v,
        fst r = inr v <->
        exists i,
          i <= retries /\ oracle (Gemini.calls w + i) = inr v /\
          (forall j, j < i -> quotaFailureAt oracle (Gemini.calls w + j))).
Proof.
  intros T oracle retries delay w r.
  pose proof (executeWithRetry_cases T oracle retries delay w) as Hcases.
  fold r in Hcases.
  (* the attempt that decides is unique *)
  assert (Huniq : forall i i',
             i <= retries ->
             (forall j, j < i -> quotaFailureAt oracle (Gemini.calls w + j)) ->
             ~ quotaFailureAt oracle (Gemini.calls w + i) ->
             (forall j, j < i' ->
                        quotaFailureAt oracle (Gemini.calls w + j)) ->
             ~ quotaFailureAt oracle (Gemini.calls w + i') ->
             i = i').
  { intros i i' _ Hi Hni Hi' Hni'.
    destruct (Nat.lt_trichotomy i i') as [Hlt|[E|Hgt]]; [|exact E|].
    - destruct Hni. now apply Hi'.
    - destruct Hni'. now apply Hi. }
  assert (Hnq_err : forall n error,
             oracle n = inl error ->
             Gemini.isQuotaExhaustion error = false ->
             ~ quotaFailureAt oracle n).
  { intros n error E Hq (e & E' & Hq'). congruence. }
  assert (Hnq_val : forall n v,
             oracle n = inr v -> ~ quotaFailureAt oracle n).
  { intros n v E (e & E' & _). congruence. }
  destruct Hcases as [(Hall & Hr & Hc)
                     |(i & Hi & Hpre & Hc & [(error & Eo & Hq & Hr)
                                            |(v & Eo & Hr)])].
  - (* all attempts failed on quota *)
    split; [split; [auto | eauto]|].
    split.
    { intros msg H. rewrite Hr in H. injection H as <-. auto. }
    split.
    { intros error. split.
      - rewrite Hr. discriminate.
      - intros (Hq & i & Hi & Eo & _). exfalso.
        exact (Hnq_err _ _ Eo Hq (Hall i Hi)). }
    intros v. split.
    + rewrite Hr. discriminate.
    + intros (i & Hi & Eo & _). exfalso.
      exact (Hnq_val _ _ Eo (Hall i Hi)).
  - (* attempt [i] failed otherwise *)
    split.
    { split.
      - intros (msg & H). rewrite Hr in H. discriminate.
      - intros Hall. exfalso. exact (Hnq_err _ _ Eo Hq (Hall i Hi)). }
    split.
    { intros msg H. rewrite Hr in H. discriminate. }
    split.
    { intros error'. split.
      - intros H. rewrite Hr in H. injection H as <-. eauto.
      - intros (Hq' & i' & Hi' & Eo' & Hpre').
        assert (i = i')
          by (apply Huniq; eauto using Hnq_err).
        subst i'. rewrite Hr. congruence. }
    intros v. split.
    + rewrite Hr. discriminate.
    + intros (i' & Hi' & Eo' & Hpre').
      assert (i = i') by (apply Huniq; eauto using Hnq_err, Hnq_val).
      subst i'. congruence.
  - (* attempt [i] succeeded *)
    split.
    { split.
      - intros (msg & H). rewrite Hr in H. discriminate.
      - intros Hall. exfalso. exact (Hnq_val _ _ Eo (Hall i Hi)). }
    split.
    { intros msg H. rewrite Hr in H. discriminate. }
    split.
    { intros error'. split.
      - rewrite Hr. discriminate.
      - intros (Hq' & i' & Hi' & Eo' & Hpre').
        assert (i = i') by (apply Huniq; eauto using Hnq_err, Hnq_val).
        subst i'. congruence. }
    intros v'. split.
    + intros H. rewrite Hr in H. injection H as <-. eauto.
    + intros (i' & Hi' & Eo' & Hpre').
      assert (i = i') by (apply Huniq; eauto using Hnq_err, Hnq_val).
      subst i'. rewrite Hr. congruence.
Qed.

(** *** The quota signal *)

Lemma includes_unfold s sub :
  includes s sub
  = prefix sub s || match s with
                    | EmptyString => false
                    | String _ r => includes r sub
                    end.
Proof. destruct s; reflexivity. Qed.

(** [s.includes(sub)] holds exactly of the strings that have [sub]
    somewhere inside. *)
Lemma includes_iff s sub :
  includes s sub = true <->
  exists before after, s = (before ++ sub ++ after)%string.
Proof.
  split.
  - induction s as [|c r IH]; rewrite includes_unfold, orb_true_iff.
    + intros [H|H]; [|discriminate].
      apply (startsWith_stripPrefix "" sub) in H as (after & E).
      exists "", after. exact E.
    + intros [H|H].
      * apply (startsWith_stripPrefix (String c r) sub) in H as (after & E).
        exists "", after. exact E.
      * destruct (IH H) as (before & after & ->).
        exists (String c before), after. reflexivity.
  - intros (before & after & ->). induction before as [|c b IH].
    + rewrite includes_unfold. cbn [append].
      replace (prefix sub (sub ++ after)) with true; [reflexivity|].
      symmetry. apply (startsWith_stripPrefix (sub ++ after) sub). eauto.
    + rewrite includes_unfold. cbn [append]. rewrite IH. apply orb_true_r.
Qed.

(** The test of the code recognises exactly the quota signal. *)
Lemma isQuotaExhaustion_iff error :
  Gemini.isQuotaExhaustion error = true <-> signalsQuotaExhaustion error.
Proof.
  unfold Gemini.isQuotaExhaustion, signalsQuotaExhaustion. cbv zeta.
  rewrite orb_true_iff, !includes_iff.
  destruct (Gemini.message error) as [msg|]; simpl optOr.
  - assert (Eo : orElse msg "" = msg)
      by (rewrite orElse_spec; destruct (String.eqb_spec msg ""); congruence).
    rewrite Eo. split.
    + intros [(b & a & E)|(b & a & E)]; exists msg, b, a; auto.
    + intros (msg' & b & a & E & [H|H]); injection E as <-; eauto.
  - split.
    + intros [(b & a & E)|(b & a & E)]; exfalso;
        destruct b; discriminate E.
    + intros (msg & b & a & E & _). discriminate E.
Qed.

Lemma quotaFailureAt_iff {T} (oracle : nat -> Gemini.ApiError + T) n :
  quotaFailureAt oracle n <-> quotaSignalAt oracle n.
Proof.
  unfold quotaFailureAt, quotaSignalAt.
  split; intros (error & E & H); exists error; (split; [exact E|]);
    now apply isQuotaExhaustion_iff.
Qed.

(** C9.  [executeWithRetry] throws its [QuotaError] exactly when the
    oracle call and all its retries failed with the quota-exhaustion
    signal (an error whose message carries the status code 429 or the
    status name RESOURCE_EXHAUSTED): then the retries are used up.  An
    attempt that fails without that signal ends the call at once with
    that very error re-thrown, and an attempt that succeeds returns its
    value; neither is turned into the quota error. *)
Theorem quota_error_exactly_on_exhausted_quota_retries :
  forall (T : Type) (oracle : nat -> Gemini.ApiError + T)
         (retries delay : nat) (w : Gemini.World),
    let r := Gemini.executeWithRetry T oracle retries delay w in
    ((exists msg, fst r = inl (Gemini.QuotaError msg)) <->
     (forall i, i <= retries ->
                quotaSignalAt oracle (Gemini.calls w + i))) /\
    (forall msg,
        fst r = inl (Gemini.QuotaError msg) ->
        msg = "API rate limit exceeded." /\
        Gemini.calls (snd r) = Gemini.calls w + retries + 1) /\
    (forall error,
        fst r = inl (Gemini.Rethrown error) <->
        ~ signalsQuotaExhaustion error /\
        exists i,
          i <= retries /\ oracle (Gemini.calls w + i) = inl error /\
          (forall j, j < i -> quotaSignalAt oracle (Gemini.calls w + j))) /\
    (forall v,
        fst r = inr v <->
        exists i,
          i <= retries /\ oracle (Gemini.calls w + i) = inr v /\
          (forall j, j < i -> quotaSignalAt oracle (Gemini.calls w + j))).
Proof.
  intros T oracle retries delay w r.
  destruct (executeWithRetry_outcomes T oracle retries delay w)
    as (Hq & Hmsg & Hre & Hval).
  fold r in Hq, Hmsg, Hre, Hval.
  split; [|split; [exact Hmsg|split]].
  - rewrite Hq. split; intros H i Hi; apply quotaFailureAt_iff; auto.
  - intros error. rewrite Hre, <- isQuotaExhaustion_iff, not_true_iff_false.
    split; intros (Hn & i & Hi & Eo & Hpre); (split; [exact Hn|]);
      exists i; (split; [exact Hi|]); (split; [exact Eo|]);
      intros j Hj; apply quotaFailureAt_iff; auto.
  - intros v. rewrite Hval.
    split; intros (i & Hi & Eo & Hpre); exists i; (split; [exact Hi|]);
      (split; [exact Eo|]); intros j Hj; apply quotaFailureAt_iff; auto.
Qed.

(** ** The theorems at work on the sample bundles *)

(** C1.  The claim fails on the code for two ingested models that
    differ in a file owned on both sides by a security role without
    [metadata].  Base and target are read from two versions of an
    archive: the role file is in both with different contents, so the
    claim asks for one 'modified' entry, and the flow definition is in
    the target only, so the claim asks for exactly one 'added' entry.
    The loop over the paths throws a [TypeError] at the role file, when
    it reads [privileges] off the absent [metadata] to build the logical
    diff, so the engine returns no diff and classifies no path at all.
    The table branch guards the same access with [?.]. *)
Theorem solutionDiff_classifies_no_path_without_role_metadata :
  forall localeCompare,
    let base := bareRoleBundle "<Role/>" in
    let target := grownRoleBundle in
    parseSolutionZip string_of_list_byte bareRoleSolutionXml
      noCustomizationsXml noCanvasApp (bareRoleZip "<Role/>") = Ok base /\
    parseSolutionZip string_of_list_byte bareRoleSolutionXml
      noCustomizationsXml noCanvasApp grownRoleZip = Ok target /\
    map SolutionFile.path (Solution.files base)
    = ["solution.xml"; "Roles/{role-1}.xml"] /\
    map SolutionFile.path (Solution.files target)
    = ["solution.xml"; "Roles/{role-1}.xml"; "Workflows/new.json"] /\
    (~ hasPath (Solution.files base) "Workflows/new.json" /\
     hasPath (Solution.files target) "Workflows/new.json") /\
    (exists b t,
        fileAt (Solution.files base) "Roles/{role-1}.xml" = Some b /\
        fileAt (Solution.files target) "Roles/{role-1}.xml" = Some t /\
        SolutionFile.content b <> SolutionFile.content t) /\
    solutionDiff localeCompare Mode_compare (Some base) (Some target)
    = Throw (TypeError
               "Cannot read properties of undefined (reading 'privileges')") /\
    (forall d,
        solutionDiff localeCompare Mode_compare (Some base) (Some target)
        <> Ok (Some d)).
Proof.
  intros localeCompare base target.
  assert (Hthrow :
            solutionDiff localeCompare Mode_compare (Some base) (Some target)
            = Throw (TypeError
                       "Cannot read properties of undefined (reading 'privileges')"))
    by reflexivity.
  split; [reflexivity|]. split; [reflexivity|]. split; [reflexivity|].
  split; [reflexivity|].
  split.
  { unfold hasPath. simpl. split; [|auto].
    intros [H|[H|[]]]; discriminate H. }
  split.
  { eexists _, _. split; [reflexivity|]. split; [reflexivity|].
    simpl. discriminate. }
  split; [exact Hthrow|].
  intros d H. rewrite Hthrow in H. discriminate H.
Qed.

(** C2.  The claim fails on the code for a changed file owned on both
    sides by a security role that has no [metadata] (a root component of
    type 20 for which the customization descriptor has no [Role]
    element): reading [privileges] off the absent [metadata] throws a
    [TypeError], so the diff engine returns no diff and no logical diff,
    where the claim asks for one with empty lists.  The table branch
    guards the same access with [?.]. *)
Theorem solutionDiff_throws_without_role_metadata :
  forall localeCompare,
    parseSolutionZip string_of_list_byte bareRoleSolutionXml
      noCustomizationsXml noCanvasApp (bareRoleZip "<Role/>")
    = Ok (bareRoleBundle "<Role/>") /\
    parseSolutionZip string_of_list_byte bareRoleSolutionXml
      noCustomizationsXml noCanvasApp (bareRoleZip "<Role id='1'/>")
    = Ok (bareRoleBundle "<Role id='1'/>") /\
    option_map type
      (ownerOf (SolutionMetadata.components
                  (Solution.metadata (bareRoleBundle "<Role/>")))
         "Roles/{role-1}.xml") = Some SecurityRole /\
    option_map type
      (ownerOf (SolutionMetadata.components
                  (Solution.metadata (bareRoleBundle "<Role id='1'/>")))
         "Roles/{role-1}.xml") = Some SecurityRole /\
    fileStatus (fileAt (Solution.files (bareRoleBundle "<Role/>"))
                  "Roles/{role-1}.xml")
      (fileAt (Solution.files (bareRoleBundle "<Role id='1'/>"))
         "Roles/{role-1}.xml") = modified /\
    solutionDiff localeCompare Mode_compare (Some (bareRoleBundle "<Role/>"))
      (Some (bareRoleBundle "<Role id='1'/>"))
    = Throw (TypeError
               "Cannot read properties of undefined (reading 'privileges')").
Proof. intros localeCompare. repeat split; reflexivity. Qed.

(** X21 on the two versions of the sample bundle, under code-unit
    order. *)
Lemma solutionDiff_classifies_paths_witness :
  solutionDiff codeUnitCompare Mode_compare (Some clerkBase) (Some clerkTarget)
  = Ok (Some clerkDiff) /\
  map (fun fd => (FileDiff.path fd, FileDiff.status fd))
    (SolutionDiff.fileDiffs clerkDiff)
  = [("Roles/{role-1}.xml", modified); ("WebResources/old.js", removed);
     ("Workflows/new.json", added)] /\
  entriesFor "WebResources/old.js" (SolutionDiff.fileDiffs clerkDiff) = 1 /\
  entriesFor "WebResources/same.css" (SolutionDiff.fileDiffs clerkDiff) = 0 /\
  StronglySorted (pathLe codeUnitCompare) (SolutionDiff.fileDiffs clerkDiff).
Proof.
  pose proof (proj2 (solutionDiff_classifies_paths codeUnitCompare
                       codeUnitCompare_total codeUnitCompare_trans
                       clerkBase clerkTarget) clerkDiff eq_refl)
    as (_ & _ & _ & _ & _ & Hsame & _ & Hone & Hsorted).
  split; [reflexivity|]. split; [reflexivity|].
  split.
  { apply Hone. left. unfold hasPath. split.
    - simpl. auto.
    - simpl. intros [H|[H|[H|[]]]]; discriminate H. }
  split.
  { apply (Hsame _
             (SolutionFile.mk "same.css" "WebResources/same.css" "b{}" css)
             (SolutionFile.mk "same.css" "WebResources/same.css" "b{}" css));
      reflexivity. }
  exact Hsorted.
Defined.

(** X22 on the sample role: base {Read:Local} against target
    {Read:Global, Write:Basic} gives added = [Write], removed = [],
    modified = [{Read, old Local, new Global}]. *)
Lemma securityRole_logical_diff_witness :
  exists fd,
    In fd (SolutionDiff.fileDiffs clerkDiff) /\
    FileDiff.path fd = "Roles/{role-1}.xml" /\
    FileDiff.logicalDiff fd
    = Some (SecurityRoleDiff [writeBasic] []
              [ModifiedItem.mk "Read" (Some readLocal) readGlobal]) /\
    exists added removed modified,
      FileDiff.logicalDiff fd = Some (SecurityRoleDiff added removed modified)
      /\
      (forall p, In p added <->
                 In p [readGlobal; writeBasic] /\
                 forall o, In o [readLocal] ->
                           Privilege.name o <> Privilege.name p) /\
      (forall p, In p removed <->
                 In p [readLocal] /\
                 forall n, In n [readGlobal; writeBasic] ->
                           Privilege.name n <> Privilege.name p).
Proof.
  pose (fd := hd (FileDiff.mk "" "" unchanged None None other None None None)
                (SolutionDiff.fileDiffs clerkDiff)).
  destruct (securityRole_logical_diff codeUnitCompare clerkBase clerkTarget
              clerkDiff fd (clerkRole [readLocal])
              (clerkRole [readGlobal; writeBasic])
              eq_refl (or_introl eq_refl) eq_refl eq_refl eq_refl eq_refl)
    as [(oldPrivs & newPrivs & a & r & m & Eo & En & Eld & Ha & Hr & _) _].
  injection Eo as <-. injection En as <-.
  exists fd. split; [now left|]. split; [reflexivity|].
  split; [reflexivity|].
  exists a, r, m. auto.
Defined.

(** C3 on the sample archive: the role shares its id with a web
    resource seeded before it, and only the first of the two is kept. *)
Lemma parseSolutionZip_component_ids_unique_witness :
  parseSolutionZip string_of_list_byte sampleSolutionXml
    sampleCustomizationsXml sampleReadCanvasApp sampleZip = Ok sampleSolution
  /\
  NoDup (map LogicalComponent.id
           (SolutionMetadata.components (Solution.metadata sampleSolution)))
  /\
  exists components,
    reconciledComponents string_of_list_byte sampleSolutionXml
      sampleCustomizationsXml sampleReadCanvasApp sampleZip = Ok components /\
    map (fun c => (id c, type c)) components
    = [("{table-1}", Table); ("{flow-1}", Flow); ("{shared}", WebResource);
       ("{shared}", SecurityRole); ("contact", Table)] /\
    map (fun c => (id c, type c))
      (SolutionMetadata.components (Solution.metadata sampleSolution))
    = [("{table-1}", Table); ("{flow-1}", Flow); ("{shared}", WebResource);
       ("contact", Table)].
Proof.
  split; [reflexivity|].
  destruct (parseSolutionZip_component_ids_unique string_of_list_byte
              sampleSolutionXml sampleCustomizationsXml sampleReadCanvasApp
              sampleZip sampleSolution eq_refl)
    as (Hnd & components & Hrec & _).
  split; [exact Hnd|].
  exists components. split; [exact Hrec|].
  assert (E : Ok components
              = reconciledComponents string_of_list_byte sampleSolutionXml
                  sampleCustomizationsXml sampleReadCanvasApp sampleZip)
    by (symmetry; exact Hrec).
  vm_compute in E. injection E as ->. split; reflexivity.
Defined.

(** C4 on the sample archive: the relationship between account and
    contact is listed by both entities and is the one edge. *)
Lemma relationship_declared_on_both_sides_is_one_edge_witness :
  let entities :=
    SolutionMetadata.entities (Solution.metadata sampleSolution) in
  let rel := parseRelationship sampleRelationship in
  let edges := allRelationships (fun _ _ => false) entities in
  map (fun e => List.length (EntityMetadata.relationships e)) entities
  = [1; 1] /\
  listedRelationships (fun _ _ => false) entities = [rel; rel] /\
  edgesWithKey (relationshipKey rel) edges = 1 /\
  (In rel edges <->
   find (fun r => relationshipKey r =? relationshipKey rel)
     (listedRelationships (fun _ _ => false) entities) = Some rel) /\
  edges = [rel].
Proof.
  cbv zeta. split; [reflexivity|]. split; [reflexivity|].
  destruct (relationship_declared_on_both_sides_is_one_edge
              (fun _ _ => false) string_of_list_byte sampleSolutionXml
              sampleCustomizationsXml sampleReadCanvasApp sampleZip
              sampleSolution "<ImportExportXml/>" sampleRelationship
              eq_refl eq_refl (or_introl eq_refl))
    as (_ & _ & Hcount & _ & _ & Hfirst & _).
  - discriminate.
  - discriminate.
  - simpl. auto.
  - simpl. auto.
  - split; [exact Hcount|]. split; [exact Hfirst|]. reflexivity.
Defined.

(** C8 on the files of the sample bundle and its workflow. *)
Lemma reconciliation_idempotent_witness :
  let files := Solution.files sampleSolution in
  NoDup (map SolutionFile.path files) /\
  workflowStep files (workflowStep files [] sampleWorkflow) sampleWorkflow
  = workflowStep files [] sampleWorkflow /\
  map LogicalComponent.files (workflowStep files [] sampleWorkflow)
  = [["Workflows/OnCreate-{flow-1}.json"]].
Proof.
  cbv zeta.
  assert (Hnd : NoDup (map SolutionFile.path (Solution.files sampleSolution))).
  { simpl. repeat constructor; simpl; intuition discriminate. }
  split; [exact Hnd|]. split; [|reflexivity].
  apply (reconciliation_idempotent (Solution.files sampleSolution) Hnd).
Defined.

(** C10 on the sample role: [prvGoOffline] has no action, and its
    entity is GoOffline. *)
Lemma parsed_privileges_have_entity_witness :
  let p :=
    parsePrivilege
      (Dom.mkRolePrivilege (Some "prvGoOffline") None (Some "Basic") None) in
  In p (SecurityRoleMetadata.privileges (parseRole sampleRole)) /\
  Privilege.entity p = Some "GoOffline" /\
  (Privilege.action p = None <-> ~ matchesActionPattern (Privilege.name p)).
Proof.
  cbv zeta. split; [simpl; auto|]. split; [reflexivity|].
  apply (parsed_privileges_have_entity sampleRole).
  simpl. auto.
Defined.

(* ===================================================================== *)
(** * Further properties of the diff engine *)
(* ===================================================================== *)

Section EntryFacts.
Variables baseFiles targetFiles : Map SolutionFile.t.
Variables baseComps targetComps : Map LogicalComponent.t.

Let body := diffPath baseFiles targetFiles baseComps targetComps.
Let entry := entryFor baseFiles targetFiles baseComps targetComps.
Let statusOf (p : string) : DiffStatus :=
  fileStatus (Map_get baseFiles p) (Map_get targetFiles p).

(** One round of the loop counts the status and pushes the entry. *)
Lemma diffPath_entryFor st p :
  body st p =
  match entry p with
  | Ok (Some fd) => Ok (pushFileDiff fd (countStatus (statusOf p) st))
  | Ok None => Ok (countStatus (statusOf p) st)
  | Throw e => Throw e
  end.
Proof.
  subst body entry statusOf. unfold diffPath, entryFor. cbv zeta.
  destruct (isChanged _); [|reflexivity].
  destruct (targetOrBase _ _); [|reflexivity].
  destruct (logicalDiffOf _ _); reflexivity.
Qed.

Lemma entryFor_status p fd :
  entry p = Ok (Some fd) ->
  FileDiff.path fd = p /\ FileDiff.status fd = statusOf p /\
  isChanged (statusOf p) = true.
Proof.
  subst entry statusOf. unfold entryFor. cbv zeta.
  destruct (isChanged _) eqn:Hc; [|discriminate].
  destruct (targetOrBase _ _); [|discriminate].
  destruct (logicalDiffOf _ _); simpl; [|discriminate].
  intros H. injection H as <-. auto.
Qed.

Lemma entryFor_None p : entry p = Ok None -> statusOf p = unchanged.
Proof.
  subst entry statusOf. unfold entryFor. cbv zeta.
  destruct (fileStatus _ _) eqn:E; simpl; try reflexivity;
    destruct (targetOrBase _ _); try discriminate;
    destruct (logicalDiffOf _ _); discriminate.
Qed.

Lemma countStatus_counters s st :
  Loop.added (countStatus s st) =
    Loop.added st + (if DiffStatus_eqb s added then 1 else 0) /\
  Loop.removed (countStatus s st) =
    Loop.removed st + (if DiffStatus_eqb s removed then 1 else 0) /\
  Loop.modified (countStatus s st) =
    Loop.modified st + (if DiffStatus_eqb s modified then 1 else 0).
Proof. destruct s; simpl; lia. Qed.

(** The loop pushes exactly the entries of its paths and keeps each
    counter equal to the number of entries of its status. *)
Lemma forEach_entries paths st st' :
  forEachM body paths st = Ok st' ->
  exists fds,
    Loop.fileDiffs st' = Loop.fileDiffs st ++ fds /\
    Forall (fun fd => entry (FileDiff.path fd) = Ok (Some fd)) fds /\
    Loop.added st' = Loop.added st + entriesWithStatus added fds /\
    Loop.removed st' = Loop.removed st + entriesWithStatus removed fds /\
    Loop.modified st' = Loop.modified st + entriesWithStatus modified fds.
Proof.
  revert st; induction paths as [|p r IH]; simpl; intros st H.
  - injection H as <-. exists []. rewrite app_nil_r.
    unfold entriesWithStatus. simpl. repeat split; auto; lia.
  - rewrite diffPath_entryFor in H.
    destruct (countStatus_counters (statusOf p) st) as (Ca & Cr & Cm).
    destruct (entry p) as [[fd|]|e] eqn:Ep; simpl in H; [| |discriminate].
    + destruct (IH _ H) as (fds & Hf & Hall & Ha & Hr & Hm).
      destruct (entryFor_status p fd Ep) as (Hp & Hs & _).
      exists (fd :: fds). simpl in Hf, Ha, Hr, Hm.
      rewrite countStatus_fileDiffs in Hf.
      rewrite Hf, <- app_assoc. split; [reflexivity|].
      split; [constructor; [now rewrite Hp | exact Hall]|].
      unfold entriesWithStatus in *. simpl. rewrite Hs.
      rewrite Ha, Hr, Hm, Ca, Cr, Cm.
      destruct (statusOf p); simpl; repeat split; lia.
    + destruct (IH _ H) as (fds & Hf & Hall & Ha & Hr & Hm).
      apply entryFor_None in Ep. rewrite Ep in *. simpl in *.
      exists fds. auto.
Qed.
End EntryFacts.

Lemma entriesWithStatus_perm s l1 l2 :
  Permutation l1 l2 -> entriesWithStatus s l1 = entriesWithStatus s l2.
Proof.
  unfold entriesWithStatus. induction 1; simpl;
    repeat destruct (DiffStatus_eqb _ s); simpl; congruence.
Qed.

(** A returned diff, entry by entry. *)
Lemma solutionDiff_entries localeCompare base target d :
  solutionDiff localeCompare Mode_compare (Some base) (Some target)
  = Ok (Some d) ->
  let entry :=
    entryFor (filesByPath (Solution.files base))
      (filesByPath (Solution.files target))
      (compsById (SolutionMetadata.components (Solution.metadata base)))
      (compsById (SolutionMetadata.components (Solution.metadata target))) in
  (forall fd, In fd (SolutionDiff.fileDiffs d) ->
              entry (FileDiff.path fd) = Ok (Some fd)) /\
  Stats.added (SolutionDiff.stats d)
  = entriesWithStatus added (SolutionDiff.fileDiffs d) /\
  Stats.removed (SolutionDiff.stats d)
  = entriesWithStatus removed (SolutionDiff.fileDiffs d) /\
  Stats.modified (SolutionDiff.stats d)
  = entriesWithStatus modified (SolutionDiff.fileDiffs d).
Proof.
  unfold solutionDiff. cbv zeta.
  destruct (forEachM _ _ _) as [st|e] eqn:Hloop; simpl; [|discriminate].
  intros H. injection H as <-. simpl.
  apply forEach_entries in Hloop as (fds & Hf & Hall & Ha & Hr & Hm).
  simpl in Hf, Ha, Hr, Hm. rewrite Hf, Ha, Hr, Hm.
  pose proof (sortByPath_perm localeCompare fds) as Hperm.
  rewrite !(entriesWithStatus_perm _ _ _ Hperm).
  split; [|auto].
  intros fd Hfd. apply (Permutation_in _ Hperm) in Hfd.
  rewrite Forall_forall in Hall. now apply Hall.
Qed.

Lemma entryFor_inv baseFiles targetFiles baseComps targetComps p fd :
  entryFor baseFiles targetFiles baseComps targetComps p = Ok (Some fd) ->
  exists file,
    targetOrBase (Map_get baseFiles p) (Map_get targetFiles p) = Some file /\
    logicalDiffOf (find (ownsPath p) (Map_values baseComps))
      (find (ownsPath p) (Map_values targetComps))
    = Ok (FileDiff.logicalDiff fd) /\
    FileDiff.path fd = p /\
    FileDiff.name fd = SolutionFile.name file /\
    FileDiff.type fd = SolutionFile.type file /\
    FileDiff.oldContent fd
    = option_map SolutionFile.content (Map_get baseFiles p) /\
    FileDiff.newContent fd
    = option_map SolutionFile.content (Map_get targetFiles p) /\
    FileDiff.oldMetadata fd
    = metadataOf (find (ownsPath p) (Map_values baseComps)) /\
    FileDiff.newMetadata fd
    = metadataOf (find (ownsPath p) (Map_values targetComps)).
Proof.
  unfold entryFor. cbv zeta.
  destruct (isChanged _); [|discriminate].
  destruct (targetOrBase _ _) as [file|]; [|discriminate].
  destruct (logicalDiffOf _ _) as [ld|]; simpl; [|discriminate].
  intros H. injection H as <-. exists file. simpl. repeat split; reflexivity.
Qed.

Lemma fileStatus_same f : fileStatus f f = unchanged.
Proof. destruct f as [f|]; simpl; [|reflexivity]. now rewrite String.eqb_refl. Qed.

Lemma forEachM_fixed {S A} (body : S -> A -> Result S) xs st :
  (forall x, In x xs -> body st x = Ok st) -> forEachM body xs st = Ok st.
Proof.
  induction xs as [|x r IH]; simpl; intros H; [reflexivity|].
  rewrite (H x) by now left. simpl. apply IH. intros y Hy. apply H. now right.
Qed.

Lemma tableDiff_spec oldFields newFields added0 removed0 :
  tableDiff oldFields newFields = TableDiff added0 removed0 ->
  (forall f, In f added0 <->
             In f newFields /\
             forall o, In o oldFields -> Field.name o <> Field.name f) /\
  (forall f, In f removed0 <->
             In f oldFields /\
             forall n, In n newFields -> Field.name n <> Field.name f).
Proof.
  unfold tableDiff. intros H. injection H as <- <-.
  split; intros f; rewrite filter_In, negb_true_iff;
    (split; intros [Hin Hno]; split; try exact Hin).
  - intros o Ho E. apply not_true_iff_false in Hno. apply Hno.
    apply existsb_exists. exists o. split; [exact Ho|]. now apply String.eqb_eq.
  - apply not_true_iff_false. intros Hex.
    apply existsb_exists in Hex as (o & Ho & E).
    apply String.eqb_eq in E. exact (Hno o Ho E).
  - intros o Ho E. apply not_true_iff_false in Hno. apply Hno.
    apply existsb_exists. exists o. split; [exact Ho|]. now apply String.eqb_eq.
  - apply not_true_iff_false. intros Hex.
    apply existsb_exists in Hex as (o & Ho & E).
    apply String.eqb_eq in E. exact (Hno o Ho E).
Qed.

(** X1.  Comparing two bundles that hold the same files always returns a
    diff, with no entry and all three counters at zero, whatever the
    two component lists are: an unchanged path never reaches the code
    that reads the owners' metadata. *)
Theorem same_files_give_empty_diff :
  forall localeCompare files baseMetadata targetMetadata,
    solutionDiff localeCompare Mode_compare
      (Some (Solution.mk files baseMetadata))
      (Some (Solution.mk files targetMetadata))
    = Ok (Some (SolutionDiff.mk baseMetadata targetMetadata []
                  (Stats.mk 0 0 0))).
Proof.
  intros cmp files mb mt. unfold solutionDiff. cbv zeta. simpl Solution.files.
  rewrite forEachM_fixed; [reflexivity|].
  intros p _. rewrite diffPath_entryFor. unfold entryFor. cbv zeta.
  rewrite fileStatus_same. reflexivity.
Qed.

(** X2.  In every returned diff the three counters of [stats] are the
    numbers of entries of [fileDiffs] with status 'added', 'removed' and
    'modified', and they add up to the length of [fileDiffs]. *)
Theorem stats_count_the_entries :
  forall localeCompare base target d,
    solutionDiff localeCompare Mode_compare (Some base) (Some target)
    = Ok (Some d) ->
    let fds := SolutionDiff.fileDiffs d in
    let stats := SolutionDiff.stats d in
    Stats.added stats = entriesWithStatus added fds /\
    Stats.removed stats = entriesWithStatus removed fds /\
    Stats.modified stats = entriesWithStatus modified fds /\
    Stats.added stats + Stats.removed stats + Stats.modified stats
    = List.length fds.
Proof.
  intros cmp base target d Hd fds stats.
  destruct (solutionDiff_entries _ _ _ _ Hd) as (Hall & Ha & Hr & Hm).
  subst fds stats. rewrite Ha, Hr, Hm. repeat split.
  assert (Hch : Forall (fun fd => isChanged (FileDiff.status fd) = true)
                  (SolutionDiff.fileDiffs d)).
  { apply Forall_forall. intros fd Hfd.
    destruct (entryFor_status _ _ _ _ _ _ (Hall fd Hfd)) as (_ & -> & H).
    exact H. }
  clear Hall Ha Hr Hm. unfold entriesWithStatus.
  induction Hch as [|fd r H _ IH]; [reflexivity|].
  cbn [filter List.length]. revert H.
  destruct (FileDiff.status fd); cbn [DiffStatus_eqb isChanged List.length];
    intros H; try discriminate H; lia.
Qed.

(** X3.  In every returned diff, an entry whose path is owned by a Table
    on both sides carries a table diff: [added] holds exactly the target
    fields whose name no base field has, [removed] exactly the base
    fields whose name no target field has.  Fields are matched by name
    only, so a field that keeps its name and changes its type is in
    neither list. *)
Theorem table_logical_diff :
  forall localeCompare base target d fd bc tc,
    solutionDiff localeCompare Mode_compare (Some base) (Some target)
    = Ok (Some d) ->
    In fd (SolutionDiff.fileDiffs d) ->
    ownerOf (SolutionMetadata.components (Solution.metadata base))
      (FileDiff.path fd) = Some bc ->
    ownerOf (SolutionMetadata.components (Solution.metadata target))
      (FileDiff.path fd) = Some tc ->
    type bc = Table ->
    type tc = Table ->
    exists added0 removed0,
      FileDiff.logicalDiff fd = Some (TableDiff added0 removed0) /\
      (forall f, In f added0 <->
                 In f (fieldsOf (metadata tc)) /\
                 forall o, In o (fieldsOf (metadata bc)) ->
                           Field.name o <> Field.name f) /\
      (forall f, In f removed0 <->
                 In f (fieldsOf (metadata bc)) /\
                 forall n, In n (fieldsOf (metadata tc)) ->
                           Field.name n <> Field.name f).
Proof.
  intros cmp base target d fd bc tc Hd Hfd Hbc Htc Tb Tt.
  destruct (solutionDiff_entries _ _ _ _ Hd) as (Hall & _).
  destruct (entryFor_inv _ _ _ _ _ _ (Hall fd Hfd)) as (_ & _ & Hld & _).
  unfold ownerOf in Hbc, Htc. rewrite Hbc, Htc in Hld.
  unfold logicalDiffOf in Hld. cbv zeta in Hld. simpl in Hld.
  rewrite Tb, Tt in Hld. simpl in Hld. injection Hld as Hld.
  eexists _, _. split; [symmetry; exact Hld|].
  now apply tableDiff_spec.
Qed.

(** X4.  In every returned diff, an entry carries no logical diff unless
    its path is owned on both sides by a Table or on both sides by a
    SecurityRole: a path without an owner on one side (every added and
    every removed file of a component present on one side only), or
    owned by components of other or of differing types, is compared as
    a file only. *)
Theorem no_logical_diff_for_other_owners :
  forall localeCompare base target d fd,
    solutionDiff localeCompare Mode_compare (Some base) (Some target)
    = Ok (Some d) ->
    In fd (SolutionDiff.fileDiffs d) ->
    let baseComp :=
      ownerOf (SolutionMetadata.components (Solution.metadata base))
        (FileDiff.path fd) in
    let targetComp :=
      ownerOf (SolutionMetadata.components (Solution.metadata target))
        (FileDiff.path fd) in
    typeIs baseComp Table && typeIs targetComp Table = false ->
    typeIs baseComp SecurityRole && typeIs targetComp SecurityRole = false ->
    FileDiff.logicalDiff fd = None.
Proof.
  intros cmp base target d fd Hd Hfd bo to HT HR.
  destruct (solutionDiff_entries _ _ _ _ Hd) as (Hall & _).
  destruct (entryFor_inv _ _ _ _ _ _ (Hall fd Hfd)) as (_ & _ & Hld & _).
  subst bo to. unfold ownerOf in HT, HR.
  unfold logicalDiffOf in Hld. cbv zeta in Hld.
  rewrite HT, HR in Hld. now injection Hld.
Qed.

(** X5.  Every entry of a returned diff shows both versions of its
    path: [oldContent] is the content of the base file at that path and
    [newContent] that of the target file (each undefined when that side
    has no such file), [name] and [type] are those of the target file
    when the target has the path and of the base file otherwise, and
    [oldMetadata]/[newMetadata] are the metadata of the owning
    components (undefined without an owner). *)
Theorem entry_shows_both_versions :
  forall localeCompare base target d fd,
    solutionDiff localeCompare Mode_compare (Some base) (Some target)
    = Ok (Some d) ->
    In fd (SolutionDiff.fileDiffs d) ->
    let p := FileDiff.path fd in
    let baseFile := fileAt (Solution.files base) p in
    let targetFile := fileAt (Solution.files target) p in
    FileDiff.oldContent fd = option_map SolutionFile.content baseFile /\
    FileDiff.newContent fd = option_map SolutionFile.content targetFile /\
    (exists file,
       (targetFile = Some file \/ targetFile = None /\ baseFile = Some file) /\
       FileDiff.name fd = SolutionFile.name file /\
       FileDiff.type fd = SolutionFile.type file) /\
    FileDiff.oldMetadata fd
    = metadataOf (ownerOf (SolutionMetadata.components
                             (Solution.metadata base)) p) /\
    FileDiff.newMetadata fd
    = metadataOf (ownerOf (SolutionMetadata.components
                             (Solution.metadata target)) p).
Proof.
  intros cmp base target d fd Hd Hfd p baseFile targetFile.
  destruct (solutionDiff_entries _ _ _ _ Hd) as (Hall & _).
  destruct (entryFor_inv _ _ _ _ _ _ (Hall fd Hfd))
    as (file & Hfile & _ & _ & Hn & Ht & Ho & Hnw & Hom & Hnm).
  subst p baseFile targetFile. unfold fileAt, ownerOf.
  split; [exact Ho|]. split; [exact Hnw|]. split; [|split; assumption].
  exists file. split; [|split; assumption].
  unfold targetOrBase in Hfile.
  destruct (Map_get (filesByPath (Solution.files target)) _); auto.
Qed.

(** X2 on the two versions of the sample bundle: one entry of each
    status. *)
Lemma stats_count_the_entries_witness :
  SolutionDiff.stats clerkDiff = Stats.mk 1 1 1 /\
  List.length (SolutionDiff.fileDiffs clerkDiff) = 3.
Proof.
  destruct (stats_count_the_entries codeUnitCompare clerkBase clerkTarget
              clerkDiff eq_refl) as (_ & _ & _ & Hsum).
  split; [reflexivity|]. rewrite <- Hsum. reflexivity.
Defined.

(** X3 on the two versions of the account table: the field [email] is
    new; [name] changed its type only and is not listed. *)
Lemma table_logical_diff_witness :
  exists fd,
    In fd (SolutionDiff.fileDiffs accountDiff) /\
    FileDiff.path fd = "Entities/account/Entity.xml" /\
    FileDiff.logicalDiff fd
    = Some (TableDiff [Field.mk "email" "Email" "string"] []).
Proof.
  pose (fd := hd (FileDiff.mk "" "" unchanged None None other None None None)
                (SolutionDiff.fileDiffs accountDiff)).
  destruct (table_logical_diff codeUnitCompare accountBase accountTarget
              accountDiff fd
              (accountTable [Field.mk "id" "Id" "uniqueidentifier";
                             Field.mk "name" "Name" "string"])
              (accountTable [Field.mk "id" "Id" "uniqueidentifier";
                             Field.mk "name" "Name" "memo";
                             Field.mk "email" "Email" "string"])
              eq_refl (or_introl eq_refl) eq_refl eq_refl eq_refl eq_refl)
    as (a & r & _ & _ & _).
  exists fd. split; [now left|]. split; reflexivity.
Defined.

(** X4 on the sample bundle: the removed script has no owner. *)
Lemma no_logical_diff_for_other_owners_witness :
  exists fd,
    In fd (SolutionDiff.fileDiffs clerkDiff) /\
    FileDiff.path fd = "WebResources/old.js" /\
    FileDiff.logicalDiff fd = None.
Proof.
  pose (fd := nth 1 (SolutionDiff.fileDiffs clerkDiff)
                (FileDiff.mk "" "" unchanged None None other None None None)).
  exists fd. split; [right; now left|]. split; [reflexivity|].
  exact (no_logical_diff_for_other_owners codeUnitCompare clerkBase
           clerkTarget clerkDiff fd eq_refl (or_intror (or_introl eq_refl))
           eq_refl eq_refl).
Defined.

(** X5 on the sample bundle: the removed script keeps its old content
    and has no new content. *)
Lemma entry_shows_both_versions_witness :
  exists fd,
    In fd (SolutionDiff.fileDiffs clerkDiff) /\
    FileDiff.path fd = "WebResources/old.js" /\
    FileDiff.oldContent fd = Some "a()" /\
    FileDiff.newContent fd = None.
Proof.
  pose (fd := nth 1 (SolutionDiff.fileDiffs clerkDiff)
                (FileDiff.mk "" "" unchanged None None other None None None)).
  destruct (entry_shows_both_versions codeUnitCompare clerkBase clerkTarget
              clerkDiff fd eq_refl (or_intror (or_introl eq_refl)))
    as (Ho & Hn & _).
  exists fd. split; [right; now left|]. split; [reflexivity|].
  split; [exact Ho | exact Hn].
Defined.

(* ===================================================================== *)
(** * Further properties of the ingestion *)
(* ===================================================================== *)

Lemma ComponentType_eqb_eq a b : ComponentType_eqb a b = true <-> a = b.
Proof.
  destruct a, b; simpl; try (split; congruence).
  rewrite String.eqb_eq. split; congruence.
Qed.

Lemma updateFirst_Forall {A} (P : A -> Prop) p f (arr : list A) :
  Forall P arr -> (forall c, P c -> p c = true -> P (f c)) ->
  Forall P (updateFirst p f arr).
Proof.
  intros H Hf. induction H as [|x r Hx Hr IH]; simpl; [constructor|].
  destruct (p x) eqn:E; constructor; auto.
Qed.

Lemma mergeOrPush_Forall {A} (P : A -> Prop) p f fresh (arr : list A) :
  Forall P arr -> P fresh -> (forall c, P c -> p c = true -> P (f c)) ->
  Forall P (mergeOrPush p f fresh arr).
Proof.
  intros H Hfresh Hf. unfold mergeOrPush. destruct (find p arr).
  - now apply updateFirst_Forall.
  - apply Forall_app. split; [assumption | now constructor].
Qed.

Lemma fold_left_Forall {A B} (P : A -> Prop) (step : list A -> B -> list A)
  (nodes : list B) (arr : list A) :
  (forall arr n, Forall P arr -> Forall P (step arr n)) ->
  Forall P arr -> Forall P (fold_left step nodes arr).
Proof.
  intros Hstep. revert arr; induction nodes as [|n r IH]; simpl; auto.
Qed.

Section IngestedComponents.
Variable bundleFiles : list SolutionFile.t.

Let good (c : LogicalComponent.t) : Prop :=
  filesAmong bundleFiles c /\ metadataFitsType c.

Lemma pathsWhere_among q x :
  In x (pathsWhere q bundleFiles) -> hasPath bundleFiles x.
Proof. intros H. now apply pathsWhere_In in H as [H _]. Qed.

Lemma rootComponentStep_good components node :
  Forall good components ->
  Forall good (rootComponentStep bundleFiles components node).
Proof.
  intros H. unfold rootComponentStep. cbv zeta.
  destruct (_ && _); [|exact H].
  apply Forall_app. split; [exact H|]. constructor; [|constructor].
  split; [|exact I]. intros x Hx. exact (pathsWhere_among _ _ Hx).
Qed.

Lemma roleStep_good components node :
  Forall good components -> Forall good (roleStep components node).
Proof.
  intros H. unfold roleStep. cbv zeta. apply mergeOrPush_Forall.
  - exact H.
  - split; [intros x []|reflexivity].
  - intros c [Hf _] Hp. apply andb_true_iff in Hp as [_ Hp].
    apply ComponentType_eqb_eq in Hp. split; [exact Hf | exact Hp].
Qed.

Lemma entityStep_good st node :
  Forall good (snd st) ->
  Forall good (snd (entityStep bundleFiles st node)).
Proof.
  destruct st as [m components]. intros H. unfold entityStep. cbv zeta.
  simpl snd in *. apply mergeOrPush_Forall.
  - exact H.
  - split; [|reflexivity]. intros x Hx. exact (pathsWhere_among _ _ Hx).
  - intros c [Hf _] Hp. apply andb_true_iff in Hp as [_ Hp].
    apply ComponentType_eqb_eq in Hp. split; [exact Hf | exact Hp].
Qed.

Lemma entitySteps_good nodes st :
  Forall good (snd st) ->
  Forall good (snd (fold_left (entityStep bundleFiles) nodes st)).
Proof.
  revert st; induction nodes as [|n r IH]; simpl; intros st H; [exact H|].
  apply IH, entityStep_good, H.
Qed.

Lemma appModuleStep_good components node :
  Forall good components ->
  Forall good (appModuleStep bundleFiles components node).
Proof.
  intros H. unfold appModuleStep. cbv zeta. apply mergeOrPush_Forall.
  - exact H.
  - split; [|reflexivity]. intros x Hx. exact (pathsWhere_among _ _ Hx).
  - intros c [Hf _] Hp. apply andb_true_iff in Hp as [_ Hp].
    apply ComponentType_eqb_eq in Hp. split; [exact Hf | exact Hp].
Qed.

Lemma workflowStep_good components node :
  Forall good components ->
  Forall good (workflowStep bundleFiles components node).
Proof.
  intros H. unfold workflowStep. cbv zeta. apply mergeOrPush_Forall.
  - exact H.
  - split; [|exact I]. intros x Hx. exact (pathsWhere_among _ _ Hx).
  - intros c [Hf Hm] _. split; [|exact Hm].
    intros x Hx. simpl in Hx. apply Set_from_In, in_app_iff in Hx as [Hx|Hx].
    + now apply Hf.
    + exact (pathsWhere_among _ _ Hx).
Qed.

Lemma canvasStep_good components appMeta :
  Forall good components ->
  Forall good (canvasStep bundleFiles components appMeta).
Proof.
  intros H. unfold canvasStep. cbv zeta. apply mergeOrPush_Forall.
  - exact H.
  - split; [|reflexivity]. intros x Hx. exact (pathsWhere_among _ _ Hx).
  - intros c [Hf _] _. split; [exact Hf | reflexivity].
Qed.

Lemma solutionPass_good parseSolutionXml components :
  Forall good components ->
  Forall good (snd (solutionPass parseSolutionXml bundleFiles components)).
Proof.
  intros H. unfold solutionPass. destruct (contentAt _ _); simpl; [|exact H].
  apply fold_left_Forall; [|exact H].
  intros arr n. apply rootComponentStep_good.
Qed.

Lemma customizationsPass_good parseCustomizationsXml components :
  Forall good components ->
  Forall good
    (snd (customizationsPass parseCustomizationsXml bundleFiles components)).
Proof.
  intros H. unfold customizationsPass.
  destruct (contentAt _ _) as [x|]; simpl; [|exact H].
  set (doc := parseCustomizationsXml x).
  pose proof (entitySteps_good (Dom.cx_Entities doc)
                ([], fold_left roleStep (Dom.cx_Roles doc) components)) as He.
  destruct (fold_left (entityStep bundleFiles) _ _) as [m cs]. simpl.
  apply fold_left_Forall; [intros arr n; apply workflowStep_good|].
  apply fold_left_Forall; [intros arr n; apply appModuleStep_good|].
  apply He. simpl.
  apply fold_left_Forall; [intros arr n; apply roleStep_good | exact H].
Qed.

Lemma canvasPass_good readCanvasApp zip st st' :
  canvasPass readCanvasApp zip bundleFiles st = Ok st' ->
  Forall good (snd st) -> Forall good (snd st').
Proof.
  unfold canvasPass. generalize (filter isCanvasAppFile bundleFiles).
  intros l. revert st; induction l as [|f r IH]; simpl; intros st H Hg.
  - now injection H as <-.
  - destruct (readCanvasApp zip bundleFiles f) as [m|e]; simpl in H;
      [|discriminate].
    apply (IH _ H). simpl. now apply canvasStep_good.
Qed.
End IngestedComponents.

(** What every component of an ingested model satisfies. *)
Lemma parseSolutionZip_components_good decodeString parseSolutionXml
  parseCustomizationsXml readCanvasApp zip solution :
  parseSolutionZip decodeString parseSolutionXml parseCustomizationsXml
    readCanvasApp zip = Ok solution ->
  forall c,
    In c (SolutionMetadata.components (Solution.metadata solution)) ->
    filesAmong (Solution.files solution) c /\ metadataFitsType c.
Proof.
  unfold parseSolutionZip. cbv zeta.
  set (files := collectFiles decodeString zip).
  pose proof (solutionPass_good files parseSolutionXml [] (Forall_nil _)) as H0.
  destruct (solutionPass parseSolutionXml files []) as [md cs0].
  pose proof (customizationsPass_good files parseCustomizationsXml cs0 H0)
    as H1.
  destruct (customizationsPass parseCustomizationsXml files cs0) as [em cs1].
  destruct (canvasPass readCanvasApp zip files ([], cs1)) as [[apps cs2]|e]
    eqn:Ec; simpl; [|discriminate].
  pose proof (canvasPass_good files readCanvasApp zip _ _ Ec H1) as H2.
  intros H c Hc. injection H as <-. simpl in *.
  rewrite dedupComponents_firstById in Hc. apply firstById_In in Hc as [Hc _].
  rewrite Forall_forall in H2. exact (H2 c Hc).
Qed.

(** X7.  In every ingested model, each path listed in the [files] of a
    component is the path of a file of the bundle: no pass attributes a
    file the archive does not hold. *)
Theorem component_files_are_bundle_paths :
  forall decodeString parseSolutionXml parseCustomizationsXml readCanvasApp
         zip solution,
    parseSolutionZip decodeString parseSolutionXml parseCustomizationsXml
      readCanvasApp zip = Ok solution ->
    forall c x,
      In c (SolutionMetadata.components (Solution.metadata solution)) ->
      In x (LogicalComponent.files c) ->
      exists f, In f (Solution.files solution) /\ SolutionFile.path f = x.
Proof.
  intros dS pS pC rC zip solution H c x Hc Hx.
  destruct (parseSolutionZip_components_good _ _ _ _ _ _ H c Hc) as [Hf _].
  specialize (Hf x Hx). unfold hasPath in Hf.
  apply in_map_iff in Hf as (f & E & Hf). eauto.
Qed.

(** X8.  In every ingested model the metadata of a component is of the
    kind its type announces: role metadata only on a SecurityRole,
    table metadata only on a Table, model-app metadata only on a
    ModelApp, canvas-app metadata only on an App.  So a SecurityRole
    that carries metadata always has a privilege list to compare. *)
Theorem metadata_kind_fits_component_type :
  forall decodeString parseSolutionXml parseCustomizationsXml readCanvasApp
         zip solution,
    parseSolutionZip decodeString parseSolutionXml parseCustomizationsXml
      readCanvasApp zip = Ok solution ->
    forall c,
      In c (SolutionMetadata.components (Solution.metadata solution)) ->
      (forall m, metadata c = Some (RoleMeta m) -> type c = SecurityRole) /\
      (forall fs, metadata c = Some (TableMeta fs) -> type c = Table) /\
      (forall m, metadata c = Some (ModelMeta m) -> type c = ModelApp) /\
      (forall m, metadata c = Some (CanvasMeta m) -> type c = App) /\
      (type c = SecurityRole -> metadata c <> None ->
       exists m, metadata c = Some (RoleMeta m) /\
                 privilegesOf (metadata c)
                 = Ok (SecurityRoleMetadata.privileges m)).
Proof.
  intros dS pS pC rC zip solution H c Hc.
  destruct (parseSolutionZip_components_good _ _ _ _ _ _ H c Hc) as [_ Hm].
  unfold metadataFitsType in Hm.
  destruct (metadata c) as [[m|fs|m|m]|]; repeat split;
    try (intros ? E; congruence); try discriminate;
    try (intros T; rewrite T in Hm; discriminate Hm);
    try (intros _ E; congruence).
  intros _ _. exists m. split; reflexivity.
Qed.

(** Witnesses of X7 and X8 on the sample archive. *)
Lemma component_files_are_bundle_paths_witness :
  exists f,
    In f (Solution.files sampleSolution) /\
    SolutionFile.path f = "Workflows/OnCreate-{flow-1}.json".
Proof.
  pose (c := nth 1 (SolutionMetadata.components
                      (Solution.metadata sampleSolution))
               (mk "" "" "" Other None [] None)).
  apply (component_files_are_bundle_paths string_of_list_byte
           sampleSolutionXml sampleCustomizationsXml sampleReadCanvasApp
           sampleZip sampleSolution eq_refl c).
  - right. left. reflexivity.
  - left. reflexivity.
Defined.

Lemma metadata_kind_fits_component_type_witness :
  exists c,
    In c (SolutionMetadata.components (Solution.metadata sampleSolution)) /\
    id c = "{table-1}" /\ type c = Table.
Proof.
  pose (c := hd (mk "" "" "" Other None [] None)
               (SolutionMetadata.components
                  (Solution.metadata sampleSolution))).
  assert (Hc : In c (SolutionMetadata.components
                       (Solution.metadata sampleSolution)))
    by (left; reflexivity).
  destruct (metadata_kind_fits_component_type string_of_list_byte
              sampleSolutionXml sampleCustomizationsXml sampleReadCanvasApp
              sampleZip sampleSolution eq_refl c Hc) as (_ & Ht & _).
  exists c. split; [exact Hc|]. split; [reflexivity|].
  exact (Ht _ eq_refl).
Defined.

(** *** A map built from entries with pairwise different keys *)

Lemma Map_set_fresh {V} (m : Map V) k v :
  ~ In k (Map_keys m) -> Map_set m k v = m ++ [(k, v)].
Proof.
  unfold Map_keys. induction m as [|[k1 v1] r IH]; simpl; intros H;
    [reflexivity|].
  destruct (String.eqb_spec k1 k) as [->|Hne]; [tauto|].
  rewrite IH; tauto.
Qed.

Lemma Map_from_fresh {V} (entries m : Map V) :
  NoDup (Map_keys m ++ map fst entries) ->
  fold_left (fun m kv => Map_set m (fst kv) (snd kv)) entries m
  = m ++ entries.
Proof.
  revert m; induction entries as [|[k v] r IH]; simpl; intros m H.
  - now rewrite app_nil_r.
  - assert (Hk : ~ In k (Map_keys m)).
    { apply NoDup_remove_2 in H. rewrite in_app_iff in H. tauto. }
    rewrite (Map_set_fresh m k v Hk), IH.
    + now rewrite <- app_assoc.
    + unfold Map_keys in *. rewrite map_app. simpl. rewrite <- app_assoc.
      exact H.
Qed.

Lemma compsById_values components :
  NoDup (map id components) -> Map_values (compsById components) = components.
Proof.
  intros H. unfold compsById, Map_from. rewrite Map_from_fresh.
  - unfold Map_values. simpl. rewrite map_map. simpl. apply map_id.
  - simpl. rewrite map_map. exact H.
Qed.

Lemma parseSolutionZip_ids_NoDup decodeString parseSolutionXml
  parseCustomizationsXml readCanvasApp zip solution :
  parseSolutionZip decodeString parseSolutionXml parseCustomizationsXml
    readCanvasApp zip = Ok solution ->
  NoDup (map id (SolutionMetadata.components (Solution.metadata solution))).
Proof.
  unfold parseSolutionZip. cbv zeta.
  destruct (solutionPass _ _ _) as [md cs0].
  destruct (customizationsPass _ _ _) as [em cs1].
  destruct (canvasPass _ _ _ _) as [[apps cs2]|e]; simpl; [|discriminate].
  intros H. injection H as <-. simpl.
  rewrite dedupComponents_firstById. apply firstById_NoDup.
Qed.

(** X9.  For an ingested model the diff engine takes as the owner of a
    path the first component of [components] (in their order) whose
    [files] list the path, and finds no owner exactly when no component
    lists it: ids are unique, so indexing the components by id neither
    drops nor reorders any. *)
Theorem owner_is_first_component_listing_the_path :
  forall decodeString parseSolutionXml parseCustomizationsXml readCanvasApp
         zip solution,
    parseSolutionZip decodeString parseSolutionXml parseCustomizationsXml
      readCanvasApp zip = Ok solution ->
    let components :=
      SolutionMetadata.components (Solution.metadata solution) in
    forall p,
      ownerOf components p
      = find (fun c => arrIncludes (LogicalComponent.files c) p) components /\
      (ownerOf components p = None <->
       forall c, In c components -> ~ In p (LogicalComponent.files c)) /\
      (forall c, ownerOf components p = Some c ->
                 In c components /\ In p (LogicalComponent.files c)).
Proof.
  intros dS pS pC rC zip solution H components p.
  pose proof (parseSolutionZip_ids_NoDup _ _ _ _ _ _ H) as Hnd.
  fold components in Hnd.
  assert (E : ownerOf components p
              = find (fun c => arrIncludes (LogicalComponent.files c) p)
                  components).
  { unfold ownerOf. now rewrite compsById_values. }
  assert (Hinc : forall c, arrIncludes (LogicalComponent.files c) p = true
                           <-> In p (LogicalComponent.files c)).
  { intros c. unfold arrIncludes. rewrite existsb_exists. split.
    - intros (x & Hx & Ex). apply String.eqb_eq in Ex. now subst.
    - intros Hx. exists p. split; [exact Hx | apply String.eqb_refl]. }
  split; [exact E|]. rewrite E. split.
  - split.
    + intros Hn c Hc Hp.
      pose proof (find_none _ _ Hn c Hc) as Hf. simpl in Hf.
      apply Hinc in Hp. congruence.
    + intros Hall.
      destruct (find _ components) as [c|] eqn:Ef; [|reflexivity].
      apply find_some in Ef as [Hc Hp]. apply Hinc in Hp.
      now destruct (Hall c Hc).
  - intros c Ef. apply find_some in Ef as [Hc Hp]. split; [exact Hc|].
    now apply Hinc.
Qed.

Lemma owner_is_first_component_listing_the_path_witness :
  option_map id
    (ownerOf (SolutionMetadata.components (Solution.metadata sampleSolution))
       "Workflows/OnCreate-{flow-1}.json") = Some "{flow-1}" /\
  ownerOf (SolutionMetadata.components (Solution.metadata sampleSolution))
    "logo.png" = None.
Proof.
  pose proof (owner_is_first_component_listing_the_path string_of_list_byte
                sampleSolutionXml sampleCustomizationsXml sampleReadCanvasApp
                sampleZip sampleSolution eq_refl) as H.
  split.
  - destruct (H "Workflows/OnCreate-{flow-1}.json") as (-> & _).
    reflexivity.
  - destruct (H "logo.png") as (-> & _). reflexivity.
Defined.

(** *** The canvas pass *)

Section CanvasPassFacts.
Variable readCanvasApp :
  list (string * ZipEntry.t) -> list SolutionFile.t -> SolutionFile.t ->
  Result CanvasAppMetadata.t.
Variable zip : list (string * ZipEntry.t).
Variable files : list SolutionFile.t.

Let read := readCanvasApp zip files.
Let body (st : list CanvasAppMetadata.t * list LogicalComponent.t)
  (f : SolutionFile.t) :=
  bind (read f) (fun appMeta =>
  Ok (fst st ++ [appMeta], canvasStep files (snd st) appMeta)).

Lemma canvasLoop_Ok descriptors st st' :
  forEachM body descriptors st = Ok st' ->
  exists metas,
    Forall2 (fun f m => read f = Ok m) descriptors metas /\
    fst st' = fst st ++ metas.
Proof.
  revert st; induction descriptors as [|f r IH]; simpl; intros st H.
  - injection H as <-. exists []. rewrite app_nil_r. auto.
  - subst body. simpl in H. destruct (read f) as [m|e] eqn:Ef; simpl in H;
      [|discriminate].
    destruct (IH _ H) as (metas & Hall & E). simpl in E.
    exists (m :: metas). split; [now constructor|].
    now rewrite E, <- app_assoc.
Qed.

Lemma canvasLoop_Throw descriptors st e :
  forEachM body descriptors st = Throw e ->
  exists before f after,
    descriptors = before ++ f :: after /\
    (forall g, In g before -> exists m, read g = Ok m) /\
    read f = Throw e.
Proof.
  revert st; induction descriptors as [|f r IH]; simpl; intros st H;
    [discriminate|].
  subst body. simpl in H. destruct (read f) as [m|e'] eqn:Ef; simpl in H.
  - destruct (IH _ H) as (before & g & rest & -> & Hb & Hg).
    exists (f :: before), g, rest. split; [reflexivity|]. split; [|exact Hg].
    intros x [<-|Hx]; eauto.
  - injection H as ->. exists [], f, r. split; [reflexivity|].
    split; [intros g []|exact Ef].
Qed.
End CanvasPassFacts.

Lemma awaitReads_Ok readRejection entries :
  awaitReads readRejection entries = Ok tt <->
  forall entry, In entry entries -> rejectionOf readRejection entry = None.
Proof.
  unfold awaitReads. induction entries as [|x r IH]; simpl.
  - split; [intros _ entry [] | reflexivity].
  - destruct (rejectionOf readRejection x) as [err|] eqn:Ex; simpl.
    + split; [discriminate|]. intros H.
      specialize (H x (or_introl eq_refl)). congruence.
    + rewrite IH. split.
      * intros H entry [<-|Hin]; auto.
      * intros H entry Hin. apply H. now right.
Qed.

Lemma awaitReads_Throw readRejection entries e :
  awaitReads readRejection entries = Throw e <->
  exists before entry after,
    entries = before ++ entry :: after /\
    (forall x, In x before -> rejectionOf readRejection x = None) /\
    rejectionOf readRejection entry = Some e.
Proof.
  unfold awaitReads. induction entries as [|x r IH]; simpl.
  - split; [discriminate|]. intros (before & entry & rest & E & _).
    destruct before; discriminate E.
  - destruct (rejectionOf readRejection x) as [err|] eqn:Ex; simpl.
    + split.
      * intros H. injection H as ->. exists [], x, r.
        split; [reflexivity|]. split; [intros y []|exact Ex].
      * intros (before & entry & rest & E & Hb & He).
        destruct before as [|y before]; simpl in E; injection E as -> E.
        -- congruence.
        -- specialize (Hb y (or_introl eq_refl)). congruence.
    + rewrite IH. split.
      * intros (before & entry & rest & -> & Hb & He).
        exists (x :: before), entry, rest. split; [reflexivity|].
        split; [|exact He]. intros y [<-|Hy]; auto.
      * intros (before & entry & rest & E & Hb & He).
        destruct before as [|y before]; simpl in E; injection E as -> E.
        -- congruence.
        -- exists before, entry, rest. split; [exact E|].
           split; [|exact He]. intros z Hz. apply Hb. now right.
Qed.

(** What [parseSolutionZip] comes to on entries that were all read. *)
Lemma parseSolutionZip_passes decodeString parseSolutionXml
  parseCustomizationsXml readCanvasApp zip :
  let files := collectFiles decodeString zip in
  let descriptors := filter isCanvasAppFile files in
  let read := readCanvasApp zip files in
  let result :=
    parseSolutionZip decodeString parseSolutionXml parseCustomizationsXml
      readCanvasApp zip in
  (forall solution,
      result = Ok solution ->
      let metadata := Solution.metadata solution in
      Solution.files solution = files /\
      (exists metas,
          SolutionMetadata.canvasApps metadata = Some metas /\
          Forall2 (fun f m => read f = Ok m) descriptors metas) /\
      (contentAt files "solution.xml" = None ->
       SolutionMetadata.uniqueName metadata = "Unknown" /\
       SolutionMetadata.version metadata = "0.0.0.0" /\
       SolutionMetadata.localizedName metadata = "Unknown Solution" /\
       SolutionMetadata.publisher metadata = "Unknown") /\
      (contentAt files "customizations.xml" = None ->
       SolutionMetadata.entities metadata = [])) /\
  (forall e,
      result = Throw e <->
      exists before f after,
        descriptors = before ++ f :: after /\
        (forall g, In g before -> exists m, read g = Ok m) /\
        read f = Throw e) /\
  ((forall f, In f descriptors -> exists m, read f = Ok m) ->
   exists solution, result = Ok solution).
Proof.
  intros files descriptors read result.
  subst result. unfold parseSolutionZip. cbv zeta. fold files.
  assert (Hmd : contentAt files "solution.xml" = None ->
                fst (solutionPass parseSolutionXml files [])
                = SolutionMetadata.mk "Unknown" "0.0.0.0" "Unknown Solution"
                    "Unknown" [] [] None).
  { intros E. unfold solutionPass. now rewrite E. }
  destruct (solutionPass parseSolutionXml files []) as [md cs0].
  assert (Hem : contentAt files "customizations.xml" = None ->
                fst (customizationsPass parseCustomizationsXml files cs0)
                = []).
  { intros E. unfold customizationsPass. now rewrite E. }
  destruct (customizationsPass parseCustomizationsXml files cs0)
    as [em cs1].
  unfold canvasPass. fold descriptors.
  destruct (forEachM _ descriptors ([], cs1)) as [[apps cs2]|e0] eqn:Ec; simpl.
  - split; [|split; [|eauto]].
    + intros solution H. injection H as <-. simpl.
      split; [reflexivity|]. split; [|split].
      * apply canvasLoop_Ok in Ec as (metas & Hall & E). simpl in E.
        exists apps. split; [reflexivity|]. now rewrite E.
      * intros E. apply Hmd in E. simpl in E. rewrite E. simpl. auto.
      * intros E. apply Hem in E. simpl in E. now rewrite E.
    + intros e. split; [discriminate|].
      intros (before & f & rest & E & Hb & Hf). exfalso.
      apply canvasLoop_Ok in Ec as (metas & Hall & _).
      fold descriptors in Hall. rewrite E in Hall.
      apply Forall2_app_inv_l in Hall as (m1 & m2 & _ & Hall & _).
      inversion Hall as [|? m ? ? Hm]; subst.
      fold read in Hm. congruence.
  - split; [discriminate|]. split.
    + intros e. split.
      * intros H. injection H as <-.
        exact (canvasLoop_Throw _ _ _ _ _ _ Ec).
      * intros (before & f & rest & E & Hb & Hf).
        apply canvasLoop_Throw in Ec
          as (before' & f' & rest' & E' & Hb' & Hf').
        fold read in Hb', Hf'. f_equal.
        assert (Hsame : before' = before /\ f' = f).
        { clear - E E' Hb Hb' Hf Hf'. rewrite E in E'. clear E.
          revert before' E' Hb'.
          induction before as [|x before IH];
            intros [|y before'] E' Hb'; simpl in E'.
          - injection E' as <- _. auto.
          - injection E' as -> _.
            destruct (Hb' y (or_introl eq_refl)) as (m & Hm). congruence.
          - injection E' as -> _.
            destruct (Hb f' (or_introl eq_refl)) as (m & Hm). congruence.
          - injection E' as <- E'.
            destruct (IH (fun g Hg => Hb g (or_intror Hg)) before' E'
                        (fun g Hg => Hb' g (or_intror Hg))) as [-> ->].
            auto. }
        destruct Hsame as [_ ->]. congruence.
    + intros Hall.
      apply canvasLoop_Throw in Ec as (before & f & rest & E & _ & Hf).
      destruct (Hall f) as (m & Hm).
      * rewrite E, in_app_iff. simpl. auto.
      * subst read. congruence.
Qed.

Lemma collectFiles_paths decodeString zip :
  map SolutionFile.path (collectFiles decodeString zip)
  = map fst (filter (fun e => negb (ZipEntry.dir (snd e))) zip).
Proof.
  unfold collectFiles. rewrite map_map. reflexivity.
Qed.

Lemma filter_perm {A} (p : A -> bool) (l l' : list A) :
  Permutation l l' -> Permutation (filter p l) (filter p l').
Proof.
  induction 1 as [|x l l' _ IH|x y l|l l' l'' _ IH1 _ IH2]; simpl.
  - constructor.
  - destruct (p x); [now constructor | exact IH].
  - destruct (p x), (p y); try reflexivity. apply perm_swap.
  - now transitivity (filter p l').
Qed.

(** X10.  The outcome of [parseSolutionZip] on a file, from
    [JSZip.loadAsync] on.  The call fails in exactly three ways: with
    the rejection of [loadAsync]; or, the archive being loaded, with the
    first rejection among the reads of its entries; or, all entries
    being read, with the error of the first canvas descriptor (a file
    under [CanvasApps/] ending in [.xml] with no underscore in its
    path) that cannot be read.  It returns whenever the archive loads,
    no read is rejected and every descriptor can be read.  The files of
    a returned model are the entries that are no directories, in the
    order in which their reads settled: their paths are those entries'
    names up to order.  [canvasApps] holds, in the order of the
    descriptors, what was read from each; a missing or empty
    [solution.xml] leaves the four header fields at their defaults, and
    a missing or empty [customizations.xml] leaves the model without
    entities. *)
Theorem parseSolutionZip_outcome :
  forall decodeString parseSolutionXml parseCustomizationsXml readCanvasApp
         (File : Type) loadAsync settled readRejection (file : File),
    let result :=
      parseSolutionFile decodeString parseSolutionXml parseCustomizationsXml
        readCanvasApp File loadAsync settled readRejection file in
    let filesOf zip := collectFiles decodeString (settled zip) in
    let descriptorsOf zip := filter isCanvasAppFile (filesOf zip) in
    let read zip := readCanvasApp (settled zip) (filesOf zip) in
    let allRead zip :=
      forall entry, In entry (settled zip) ->
                    rejectionOf readRejection entry = None in
    (forall e,
        result = Throw e <->
        loadAsync file = Throw e \/
        exists zip,
          loadAsync file = Ok zip /\
          ((exists before entry after,
               settled zip = before ++ entry :: after /\
               (forall x, In x before ->
                          rejectionOf readRejection x = None) /\
               rejectionOf readRejection entry = Some e) \/
           (allRead zip /\
            exists before f after,
              descriptorsOf zip = before ++ f :: after /\
              (forall g, In g before -> exists m, read zip g = Ok m) /\
              read zip f = Throw e))) /\
    (forall zip,
        loadAsync file = Ok zip -> allRead zip ->
        (forall f, In f (descriptorsOf zip) -> exists m, read zip f = Ok m) ->
        exists solution, result = Ok solution) /\
    (forall solution,
        result = Ok solution ->
        exists zip,
          loadAsync file = Ok zip /\ allRead zip /\
          let metadata := Solution.metadata solution in
          Solution.files solution = filesOf zip /\
          (Permutation (settled zip) zip ->
           Permutation (map SolutionFile.path (Solution.files solution))
             (map fst (filter (fun e => negb (ZipEntry.dir (snd e))) zip))) /\
          (exists metas,
              SolutionMetadata.canvasApps metadata = Some metas /\
              Forall2 (fun f m => read zip f = Ok m) (descriptorsOf zip)
                metas) /\
          (contentAt (filesOf zip) "solution.xml" = None ->
           SolutionMetadata.uniqueName metadata = "Unknown" /\
           SolutionMetadata.version metadata = "0.0.0.0" /\
           SolutionMetadata.localizedName metadata = "Unknown Solution" /\
           SolutionMetadata.publisher metadata = "Unknown") /\
          (contentAt (filesOf zip) "customizations.xml" = None ->
           SolutionMetadata.entities metadata = [])).
Proof.
  intros dS pS pC rC File loadAsync settled readRejection file.
  cbv zeta beta. unfold parseSolutionFile.
  destruct (loadAsync file) as [zip|e0] eqn:Eload; simpl.
  2:{ split; [|split].
      - intros e. split.
        + intros H. injection H as <-. now left.
        + intros [H|(zip & H & _)]; [congruence | discriminate].
      - intros zip H. discriminate.
      - intros solution H. discriminate. }
  pose proof (parseSolutionZip_passes dS pS pC rC (settled zip)) as Hpasses.
  cbv zeta in Hpasses. destruct Hpasses as (Hok & Hthrow & Hreturns).
  destruct (awaitReads readRejection (settled zip)) as [[]|e1] eqn:Eread;
    simpl.
  - pose proof (proj1 (awaitReads_Ok _ _) Eread) as Hall.
    split; [|split].
    + intros e. rewrite Hthrow. split.
      * intros H. right. exists zip. split; [reflexivity|]. right. auto.
      * intros [H|(zip' & E & [(before & entry & rest & Es & _ & He)|[_ H]])].
        -- discriminate.
        -- injection E as <-. exfalso.
           assert (Hin : In entry (settled zip))
             by (rewrite Es; apply in_app_iff; simpl; auto).
           apply Hall in Hin. congruence.
        -- injection E as <-. exact H.
    + intros zip' E _ Hd. injection E as <-. apply Hreturns, Hd.
    + intros solution H. exists zip. split; [reflexivity|].
      split; [exact Hall|].
      destruct (Hok solution H) as (Hfiles & Hcanvas & Hmd & Hem).
      split; [exact Hfiles|]. split.
      { intros Hp. rewrite Hfiles, collectFiles_paths.
        apply Permutation_map, filter_perm, Hp. }
      auto.
  - split; [|split].
    + intros e. split.
      * intros H. injection H as <-. right. exists zip.
        split; [reflexivity|]. left. now apply awaitReads_Throw.
      * intros [H|(zip' & E & [H|[Hall _]])].
        -- discriminate.
        -- injection E as <-. apply awaitReads_Throw in H. congruence.
        -- injection E as <-. apply awaitReads_Ok in Hall. congruence.
    + intros zip' E Hall _. injection E as <-.
      apply awaitReads_Ok in Hall. congruence.
    + intros solution H. discriminate.
Qed.

(** *** The entities of an ingested model *)

Lemma pushRelationship_touching m k rel :
  EntityRelationship.from rel <> "" -> EntityRelationship.to rel <> "" ->
  EntityRelationship.from rel = k \/ EntityRelationship.to rel = k ->
  relationshipsTouch m -> relationshipsTouch (pushRelationship m k rel).
Proof.
  unfold relationshipsTouch. intros Hf Ht Hk.
  induction m as [|[k1 e1] r IH]; simpl;
    intros H k' e r' Hin Hr; [destruct Hin|].
  destruct (String.eqb_spec k1 k) as [->|Hne].
  - destruct Hin as [E|Hin]; [|eapply H; [right|]; eauto].
    injection E as <- <-. simpl in Hr.
    apply in_app_iff in Hr as [Hr|[<-|[]]]; [|auto].
    eapply H; [left; reflexivity | exact Hr].
  - destruct Hin as [E|Hin].
    + injection E as <- <-. eapply H; [left; reflexivity | exact Hr].
    + apply (IH (fun k e r Hin => H k e r (or_intror Hin)) _ _ _ Hin Hr).
Qed.

Lemma relationshipSteps_touching relNodes m :
  relationshipsTouch m ->
  relationshipsTouch (fold_left relationshipStep relNodes m).
Proof.
  revert m; induction relNodes as [|n rs IH]; simpl; intros m H; [exact H|].
  apply IH. unfold relationshipStep. cbv zeta.
  destruct (truthy _ && truthy _) eqn:E; [|exact H].
  apply andb_true_iff in E as [Ef Et]. unfold truthy in Ef, Et.
  apply negb_true_iff, String.eqb_neq in Ef, Et.
  apply pushRelationship_touching; auto.
  apply pushRelationship_touching; auto.
Qed.

Lemma entitySteps_no_relationships files nodes st :
  (forall k e, In (k, e) (fst st) -> EntityMetadata.relationships e = []) ->
  forall k e,
    In (k, e) (fst (fold_left (entityStep files) nodes st)) ->
    EntityMetadata.relationships e = [].
Proof.
  revert st; induction nodes as [|n r IH]; simpl; intros st H; [exact H|].
  apply IH. destruct st as [m cs]. unfold entityStep. cbv zeta. simpl fst in *.
  intros k e Hin. apply Map_set_In in Hin as [Hin|E]; [eauto|].
  injection E as -> ->. reflexivity.
Qed.

Lemma entitySteps_keys_NoDup files nodes st :
  NoDup (Map_keys (fst st)) ->
  NoDup (Map_keys (fst (fold_left (entityStep files) nodes st))).
Proof.
  revert st; induction nodes as [|n r IH]; simpl; intros st H; [exact H|].
  apply IH. destruct st as [m cs]. unfold entityStep. cbv zeta. simpl fst in *.
  now apply Map_keys_set_NoDup.
Qed.

Lemma filedByName_keys (m : Map EntityMetadata.t) :
  filedByName m -> map EntityMetadata.logicalName (Map_values m) = Map_keys m.
Proof.
  unfold Map_values, Map_keys. intros H. rewrite map_map.
  apply map_ext_in. intros [k e] Hin. simpl. eauto.
Qed.

(** X11.  In every ingested model the entities have pairwise different
    logical names, and each relationship an entity lists has two
    non-empty ends, one of which is that entity: a relationship without
    a referenced or a referencing entity is attached to no entity. *)
Theorem entities_are_distinct_and_own_their_relationships :
  forall decodeString parseSolutionXml parseCustomizationsXml readCanvasApp
         zip solution,
    parseSolutionZip decodeString parseSolutionXml parseCustomizationsXml
      readCanvasApp zip = Ok solution ->
    let entities := SolutionMetadata.entities (Solution.metadata solution) in
    NoDup (map EntityMetadata.logicalName entities) /\
    forall e rel,
      In e entities -> In rel (EntityMetadata.relationships e) ->
      EntityRelationship.from rel <> "" /\
      EntityRelationship.to rel <> "" /\
      (EntityRelationship.from rel = EntityMetadata.logicalName e \/
       EntityRelationship.to rel = EntityMetadata.logicalName e).
Proof.
  intros dS pS pC rC zip solution. unfold parseSolutionZip. cbv zeta.
  set (files := collectFiles dS zip).
  destruct (solutionPass pS files []) as [md cs0].
  assert (Hmap : exists cs nodes rels,
             fst (customizationsPass pC files cs0)
             = entityMapOf files cs nodes rels).
  { destruct (contentAt files "customizations.xml") as [x|] eqn:Ex.
    - destruct (customizationsPass_entityMap pC files cs0 x Ex) as (cs & E).
      eauto.
    - exists [], [], []. unfold customizationsPass. rewrite Ex. reflexivity. }
  destruct (customizationsPass pC files cs0) as [em cs1].
  destruct Hmap as (cs & nodes & rels & Hem). simpl in Hem.
  destruct (canvasPass rC zip files ([], cs1)) as [[apps cs2]|e]; simpl;
    [|discriminate].
  intros H. injection H as <-. simpl. subst em.
  pose proof (entityMapOf_filedByName files cs nodes rels) as Hnamed.
  split.
  - rewrite (filedByName_keys _ Hnamed). unfold entityMapOf.
    rewrite relationshipSteps_keys. apply entitySteps_keys_NoDup. constructor.
  - intros e rel He Hrel. unfold Map_values in He.
    apply in_map_iff in He as ([k e'] & E & He). simpl in E. subst e'.
    rewrite (Hnamed k e He).
    apply (relationshipSteps_touching rels
             (fst (fold_left (entityStep files) nodes ([], cs)))) with (e := e);
      [|exact He | exact Hrel].
    intros k' e' r' Hin Hr'.
    rewrite (entitySteps_no_relationships files nodes ([], cs)
               (fun _ _ F => match F with end) k' e' Hin) in Hr'.
    destruct Hr'.
Qed.

Lemma entities_are_distinct_and_own_their_relationships_witness :
  map EntityMetadata.logicalName
    (SolutionMetadata.entities (Solution.metadata sampleSolution))
  = ["account"; "contact"] /\
  NoDup (map EntityMetadata.logicalName
           (SolutionMetadata.entities (Solution.metadata sampleSolution))).
Proof.
  split; [reflexivity|].
  apply (entities_are_distinct_and_own_their_relationships
           string_of_list_byte sampleSolutionXml sampleCustomizationsXml
           sampleReadCanvasApp sampleZip sampleSolution eq_refl).
Defined.

(** X12.  Every edge the schema view draws is a relationship listed by
    one of the entities, and each of its two ends is found in the
    layout: the end is the logical name of an entity, or else its
    lookup falls through to a property the layout object inherits (a
    name like [constructor]).  So an end whose lookup does not fall
    through is an entity of the view, and no edge is drawn for a
    relationship with an end that is neither.  Every listed
    relationship whose two ends are found has an edge with its key,
    which, when the strings hold no hyphen, has the same three strings
    (from, to, name) in some order.  There are never more edges than
    listed relationships. *)
Theorem edges_join_laid_out_entities :
  forall inherited entities,
    let edges := allRelationships inherited entities in
    let names := map EntityMetadata.logicalName entities in
    (forall edge,
        In edge edges ->
        (exists e, In e entities /\
                   In edge (EntityMetadata.relationships e)) /\
        (In (EntityRelationship.from edge) names \/
         inherited entities (EntityRelationship.from edge) = true) /\
        (In (EntityRelationship.to edge) names \/
         inherited entities (EntityRelationship.to edge) = true)) /\
    (forall e rel,
        In e entities -> In rel (EntityMetadata.relationships e) ->
        (~ In (EntityRelationship.from rel) names /\
         inherited entities (EntityRelationship.from rel) = false) \/
        (~ In (EntityRelationship.to rel) names /\
         inherited entities (EntityRelationship.to rel) = false) ->
        ~ In rel edges) /\
    (forall e rel,
        In e entities -> In rel (EntityMetadata.relationships e) ->
        (In (EntityRelationship.from rel) names \/
         inherited entities (EntityRelationship.from rel) = true) ->
        (In (EntityRelationship.to rel) names \/
         inherited entities (EntityRelationship.to rel) = true) ->
        exists edge,
          In edge edges /\
          relationshipKey edge = relationshipKey rel /\
          (Forall hyphenFree (relationshipTriple rel) ->
           Forall hyphenFree (relationshipTriple edge) ->
           sameTriple edge rel)) /\
    List.length edges
    <= List.length (flat_map EntityMetadata.relationships entities).
Proof.
  intros inherited entities edges names.
  assert (Hhas : forall k,
             layoutHas inherited entities k = true <->
             In k names \/ inherited entities k = true).
  { intros k. unfold layoutHas. rewrite orb_true_iff, existsb_exists.
    subst names. rewrite in_map_iff. split.
    - intros [(a & Ha & E)|H]; [|now right].
      apply String.eqb_eq in E. left. eauto.
    - intros [(a & E & Ha)|H]; [|now right].
      left. exists a. split; [exact Ha|]. now apply String.eqb_eq. }
  assert (Hsub : forall edge,
             In edge edges ->
             (exists e, In e entities /\
                        In edge (EntityMetadata.relationships e)) /\
             layoutHas inherited entities (EntityRelationship.from edge) = true
             /\
             layoutHas inherited entities (EntityRelationship.to edge) = true).
  { intros edge H. subst edges. unfold allRelationships in H.
    rewrite nested_forEach in H.
    apply edgeSteps_subset in H as [[]|[Hin El]].
    apply in_flat_map in Hin. apply andb_true_iff in El as [E1 E2].
    destruct Hin as (e & He & Hr). eauto. }
  split; [|split; [|split]].
  - intros edge H. destruct (Hsub edge H) as (He & E1 & E2).
    apply Hhas in E1, E2. auto.
  - intros e rel He Hrel Hend Hin.
    destruct (Hsub rel Hin) as (_ & E1 & E2). apply Hhas in E1, E2.
    destruct Hend as [[Hn Hi]|[Hn Hi]]; [destruct E1|destruct E2];
      congruence || tauto.
  - intros e rel He Hrel Hfrom Hto. apply Hhas in Hfrom, Hto.
    pose proof (allRelationships_keys inherited entities) as [_ Hkeys].
    fold edges in Hkeys.
    assert (Hk : In (relationshipKey rel) (map relationshipKey edges))
      by (apply Hkeys; exists e, rel; auto).
    apply in_map_iff in Hk as (edge & Ek & Hedge).
    exists edge. split; [exact Hedge|]. split; [exact Ek|].
    intros H1 H2. now apply key_sameTriple.
  - pose proof (allRelationships_keys inherited entities) as [Hnd _].
    fold edges in Hnd.
    assert (Hinc : incl edges
                     (flat_map EntityMetadata.relationships entities)).
    { intros edge H. destruct (Hsub edge H) as ((e & He & Hr) & _).
      apply in_flat_map. eauto. }
    apply NoDup_incl_length; [|exact Hinc].
    now apply NoDup_map_inv in Hnd.
Qed.

(** *** Privilege names read back *)

Lemma dotStarToEnd_app a b :
  dotStarToEnd (a ++ b) = dotStarToEnd a && dotStarToEnd b.
Proof.
  unfold dotStarToEnd.
  now rewrite list_ascii_of_string_app, existsb_app, negb_orb.
Qed.

Lemma vocabulary_has_no_terminator act :
  In act actionVocabulary -> dotStarToEnd act = true.
Proof.
  intros H. repeat (destruct H as [<-|H]; [reflexivity|]). destruct H.
Qed.

(** X13.  A privilege name written as [prv], a word of the action
    vocabulary and a remainder is read back as that action and that
    remainder (or "Global System" for an empty remainder), with one
    exception: [Append] followed by a remainder that starts with [To]
    is read as [AppendTo].  When the remainder holds a line terminator
    no action is recognised at all and the entity is the whole name
    without [prv]. *)
Theorem decomposePrivilege_reads_back :
  forall act rest,
    In act actionVocabulary ->
    let privName := ("prv" ++ act ++ rest)%string in
    (dotStarToEnd rest = true ->
     (act = "Append" -> startsWith rest "To" = false) ->
     decomposePrivilege privName
     = (Some act, Some (if rest =? "" then "Global System" else rest))) /\
    (dotStarToEnd rest = true -> act = "Append" ->
     forall r, rest = ("To" ++ r)%string ->
               decomposePrivilege privName
               = (Some "AppendTo",
                  Some (if r =? "" then "Global System" else r))) /\
    (dotStarToEnd rest = false ->
     decomposePrivilege privName = (None, Some (act ++ rest)%string)).
Proof.
  intros act rest Hact privName. subst privName.
  unfold decomposePrivilege, actionMatch. rewrite stripPrefix_app.
  split; [|split].
  - intros Hd Happ. rewrite <- orElse_spec.
    assert (E : matchAlternatives actionVocabulary (act ++ rest)
                = Some (act, rest)).
    { unfold actionVocabulary in *.
      destruct (string_dec act "Append") as [->|Hne].
      - specialize (Happ eq_refl). cbn [matchAlternatives].
        change (stripPrefix "Create" ("Append" ++ rest)) with (@None string).
        change (stripPrefix "Read" ("Append" ++ rest)) with (@None string).
        change (stripPrefix "Write" ("Append" ++ rest)) with (@None string).
        change (stripPrefix "Delete" ("Append" ++ rest)) with (@None string).
        change (stripPrefix "AppendTo" ("Append" ++ rest))
          with (stripPrefix "To" rest).
        change (stripPrefix "Append" ("Append" ++ rest)) with (Some rest).
        destruct (stripPrefix "To" rest) as [r|] eqn:Es.
        + apply stripPrefix_Some in Es.
          assert (startsWith rest "To" = true)
            by (apply startsWith_stripPrefix; eauto).
          congruence.
        + now rewrite Hd.
      - destruct Hact as [<-|[<-|[<-|[<-|[<-|[<-|[<-|[<-|[]]]]]]]]];
          try (now destruct Hne);
          cbn [matchAlternatives stripPrefix append Ascii.eqb Bool.eqb];
          now rewrite Hd. }
    now rewrite E.
  - intros Hd -> r ->. rewrite <- orElse_spec.
    rewrite dotStarToEnd_app in Hd. apply andb_true_iff in Hd as [_ Hd].
    cbn [actionVocabulary matchAlternatives stripPrefix append Ascii.eqb
         Bool.eqb].
    now rewrite Hd.
  - intros Hd.
    assert (E : matchAlternatives actionVocabulary (act ++ rest) = None).
    { apply matchAlternatives_None. intros act' rest' Hin Es.
      assert (Hs : dotStarToEnd (act ++ rest) = false).
      { rewrite dotStarToEnd_app, Hd. apply andb_false_r. }
      rewrite Es, dotStarToEnd_app, (vocabulary_has_no_terminator _ Hin) in Hs.
      exact Hs. }
    rewrite E.
    replace (startsWith ("prv" ++ act ++ rest) "prv") with true
      by (symmetry; apply startsWith_stripPrefix; eauto).
    reflexivity.
Qed.

Lemma decomposePrivilege_reads_back_witness :
  decomposePrivilege "prvReadContact" = (Some "Read", Some "Contact") /\
  decomposePrivilege "prvAppendToAccount" = (Some "AppendTo", Some "Account").
Proof.
  split.
  - apply (decomposePrivilege_reads_back "Read" "Contact");
      [simpl; tauto | reflexivity | discriminate].
  - apply (decomposePrivilege_reads_back "AppendTo" "Account");
      [simpl; tauto | reflexivity | discriminate].
Defined.

(** *** Names and types of the files *)

Lemma lowerChar_idempotent c : lowerChar (lowerChar c) = lowerChar c.
Proof. destruct c as [[] [] [] [] [] [] [] []]; reflexivity. Qed.

Lemma lowerChar_dot c : Ascii.eqb "." (lowerChar c) = Ascii.eqb "." c.
Proof. destruct c as [[] [] [] [] [] [] [] []]; reflexivity. Qed.

Lemma lowerChar_is_dot c : Ascii.eqb (lowerChar c) "." = Ascii.eqb c ".".
Proof. destruct c as [[] [] [] [] [] [] [] []]; reflexivity. Qed.

Lemma toLowerCase_idempotent s : toLowerCase (toLowerCase s) = toLowerCase s.
Proof.
  induction s as [|c r IH]; simpl; [reflexivity|].
  now rewrite lowerChar_idempotent, IH.
Qed.

Lemma toLowerCase_has_dot s :
  existsb (Ascii.eqb ".") (list_ascii_of_string (toLowerCase s))
  = existsb (Ascii.eqb ".") (list_ascii_of_string s).
Proof.
  induction s as [|c r IH]; [reflexivity|].
  cbn [toLowerCase list_ascii_of_string existsb].
  now rewrite lowerChar_dot, IH.
Qed.

Lemma splitPop_toLowerCase s :
  splitPop "." (toLowerCase s) = toLowerCase (splitPop "." s).
Proof.
  induction s as [|c r IH]; [reflexivity|].
  cbn [toLowerCase splitPop].
  rewrite toLowerCase_has_dot, lowerChar_is_dot.
  destruct (existsb _ _); [exact IH|].
  destruct (Ascii.eqb c "."); reflexivity.
Qed.

(** X14.  The [name] of a file is the last segment of the entry name:
    what follows its last slash (the whole entry name when it has
    none), so it holds no slash itself.  The [type] of a file depends
    on its path only up to letter case: [Flow.JSON] and [flow.json]
    get the same type. *)
Theorem file_name_is_last_segment_and_type_ignores_case :
  forall decodeString relativePath zipEntry,
    let f := toSolutionFile decodeString relativePath zipEntry in
    (exists pre,
        ZipEntry.name zipEntry = (pre ++ SolutionFile.name f)%string /\
        (pre = "" \/ exists pre', pre = (pre' ++ "/")%string)) /\
    (forall a b, SolutionFile.name f <> (a ++ "/" ++ b)%string) /\
    (forall otherPath,
        toLowerCase otherPath = toLowerCase relativePath ->
        fileTypeOf otherPath = SolutionFile.type f).
Proof.
  intros dS relativePath zipEntry f. subst f. unfold toSolutionFile.
  cbn [SolutionFile.name SolutionFile.type]. rewrite orElse_empty.
  split; [apply splitPop_suffix|]. split.
  - intros a b E.
    pose proof (splitPop_no_separator "/" (ZipEntry.name zipEntry)) as H.
    rewrite E, !list_ascii_of_string_app, !existsb_app in H. simpl in H.
    rewrite orb_true_r in H. discriminate.
  - intros otherPath E. unfold fileTypeOf. cbv zeta.
    rewrite <- (toLowerCase_idempotent (splitPop "." otherPath)),
      <- (toLowerCase_idempotent (splitPop "." relativePath)).
    rewrite <- !splitPop_toLowerCase, E. reflexivity.
Qed.

(** *** The waits between the attempts *)

Section BackoffFacts.
Import Gemini.
Variable T : Type.
Variable oracle : nat -> ApiError + T.

Lemma executeWithRetry_schedule retries delay w :
  let r := executeWithRetry T oracle retries delay w in
  exists k,
    k <= retries /\
    calls (snd r) = calls w + k + 1 /\
    waited (snd r) = waited w ++ map (fun i => delay * 2 ^ i) (seq 0 k).
Proof.
  revert delay w; induction retries as [|n IH]; intros delay w; simpl;
    unfold fn.
  - exists 0. simpl. rewrite app_nil_r.
    destruct (oracle (calls w)) as [error|v];
      [destruct (isQuotaExhaustion error)|]; simpl; repeat split; lia.
  - destruct (oracle (calls w)) as [error|v].
    + destruct (isQuotaExhaustion error).
      * destruct (IH (delay * 2) (sleep delay (mkWorld (S (calls w)) (waited w))))
          as (k & Hk & Hc & Hw).
        exists (S k). simpl in Hc, Hw. split; [lia|]. split; [lia|].
        rewrite Hw, <- app_assoc. f_equal. cbn [seq map app].
        rewrite Nat.pow_0_r, Nat.mul_1_r. f_equal.
        rewrite <- seq_shift, map_map. apply map_ext. intros i.
        rewrite Nat.pow_succ_r'. lia.
      * exists 0. simpl. rewrite app_nil_r. repeat split; lia.
    + exists 0. simpl. rewrite app_nil_r. repeat split; lia.
Qed.
End BackoffFacts.

Lemma sum_of_doubling_delays delay k :
  list_sum (map (fun i => delay * 2 ^ i) (seq 0 k)) = delay * (2 ^ k - 1).
Proof.
  induction k as [|k IH]; [simpl; lia|].
  rewrite seq_S, map_app, list_sum_app, IH. simpl.
  assert (1 <= 2 ^ k) by (apply Nat.neq_0_lt_0, Nat.pow_nonzero; lia).
  nia.
Qed.

(** X15.  The retry loop calls the oracle at least once and at most
    [retries + 1] times, and before the n-th retry it waits the initial
    delay doubled n-1 times: the waits are delay, 2 delay, 4 delay, ...,
    one per attempt that failed on quota and was retried.  With the
    defaults of the service (3 retries, 1000 ms) a call waits at most
    7 seconds in all. *)
Theorem retries_wait_with_doubling_delays :
  forall (T : Type) (oracle : nat -> Gemini.ApiError + T)
         (retries delay : nat) (w : Gemini.World),
    let r := Gemini.executeWithRetry T oracle retries delay w in
    let attempts := Gemini.calls (snd r) - Gemini.calls w in
    1 <= attempts <= retries + 1 /\
    Gemini.waited (snd r)
    = Gemini.waited w
      ++ map (fun i => delay * 2 ^ i) (seq 0 (attempts - 1)) /\
    list_sum (Gemini.waited (snd r))
    = list_sum (Gemini.waited w) + delay * (2 ^ (attempts - 1) - 1) /\
    (retries = 3 -> delay = 1000 ->
     list_sum (Gemini.waited (snd r))
     <= list_sum (Gemini.waited w) + 7 * 1000).
Proof.
  intros T oracle retries delay w r attempts.
  destruct (executeWithRetry_schedule T oracle retries delay w)
    as (k & Hk & Hc & Hw).
  fold r in Hc, Hw.
  assert (Ea : attempts = k + 1) by (subst attempts; lia).
  rewrite Ea. replace (k + 1 - 1) with k by lia.
  assert (Hsum : list_sum (Gemini.waited (snd r))
                 = list_sum (Gemini.waited w) + delay * (2 ^ k - 1)).
  { now rewrite Hw, list_sum_app, sum_of_doubling_delays. }
  split; [lia|]. split; [exact Hw|]. split; [exact Hsum|].
  intros Hr Hd. rewrite Hsum.
  assert (H8 : 2 ^ k <= 2 ^ 3) by (apply Nat.pow_le_mono_r; lia).
  change (2 ^ 3) with 8 in H8. nia.
Qed.

(* ===================================================================== *)
(** * Properties of the views *)
(* ===================================================================== *)

(** ** The grid of the schema view *)

Lemma ceilSqrt_covers n : n <= ceilSqrt n * ceilSqrt n.
Proof.
  unfold ceilSqrt. cbv zeta.
  destruct (Nat.sqrt_spec n (Nat.le_0_l n)) as [_ Hlt].
  destruct (Nat.eqb_spec (Nat.sqrt n * Nat.sqrt n) n); lia.
Qed.

Lemma gridColumns_bounds entities :
  3 <= gridColumns entities /\
  List.length entities <= gridColumns entities * gridColumns entities.
Proof.
  unfold gridColumns. split; [apply Nat.le_max_l|].
  pose proof (ceilSqrt_covers (List.length entities)) as H.
  pose proof (Nat.le_max_r 3 (ceilSqrt (List.length entities))) as Hm.
  nia.
Qed.

Section LayoutFacts.
Variable cols : nat.

Let cell (i : nat) : Point.t := Point.mk ((i mod cols) * 400) ((i / cols) * 300).

Lemma layoutFold_index entities st :
  snd (fold_left (layoutStep cols) entities st)
  = snd st + List.length entities.
Proof.
  revert st; induction entities as [|e r IH]; simpl; intros [acc i];
    [simpl; lia|].
  rewrite IH. simpl. lia.
Qed.

Lemma layoutFold_other entities st k :
  ~ In k (map EntityMetadata.logicalName entities) ->
  Map_get (fst (fold_left (layoutStep cols) entities st)) k
  = Map_get (fst st) k.
Proof.
  revert st; induction entities as [|e r IH]; simpl; intros [acc i] H;
    [reflexivity|].
  rewrite IH by tauto. simpl. rewrite Map_get_set.
  destruct (String.eqb_spec (EntityMetadata.logicalName e) k); tauto.
Qed.

Lemma layoutFold_get entities st j e :
  NoDup (map EntityMetadata.logicalName entities) ->
  nth_error entities j = Some e ->
  Map_get (fst (fold_left (layoutStep cols) entities st))
    (EntityMetadata.logicalName e)
  = Some (cell (snd st + j)).
Proof.
  revert st j; induction entities as [|a r IH]; intros [acc i] j Hnd Hj;
    [destruct j; discriminate|].
  simpl in Hnd. inversion Hnd as [|? ? Ha Hr]; subst.
  destruct j as [|j]; simpl in Hj.
  - injection Hj as ->. simpl fold_left. rewrite layoutFold_other by exact Ha.
    simpl. rewrite Map_get_set, String.eqb_refl, Nat.add_0_r. reflexivity.
  - simpl fold_left. rewrite (IH _ j Hr Hj). simpl. f_equal. f_equal. lia.
Qed.

Lemma cell_injective i j : 0 < cols -> cell i = cell j -> i = j.
Proof.
  intros Hc H. subst cell. simpl in H. injection H as Hx Hy.
  rewrite (Nat.div_mod_eq i cols), (Nat.div_mod_eq j cols). nia.
Qed.
End LayoutFacts.

(** X16.  When the entities have pairwise different logical names (as
    those of an ingested model have), the schema view lays the i-th
    entity out at column [i mod cols] and row [i / cols] of a grid with
    400 by 300 cells and [cols] columns, where [cols] is at least 3 and
    its square at least the number of entities.  So two different
    entities never share a position, and the grid has no more rows than
    columns. *)
Theorem layout_is_a_grid_without_overlap :
  forall entities,
    NoDup (map EntityMetadata.logicalName entities) ->
    let cols := gridColumns entities in
    let at_ e := Map_get (layout entities) (EntityMetadata.logicalName e) in
    (forall i e,
        nth_error entities i = Some e ->
        at_ e = Some (Point.mk ((i mod cols) * 400) ((i / cols) * 300))) /\
    (forall a b,
        In a entities -> In b entities -> at_ a = at_ b -> a = b) /\
    (forall e p,
        In e entities -> at_ e = Some p ->
        Point.x p <= (cols - 1) * 400 /\ Point.y p <= (cols - 1) * 300).
Proof.
  intros entities Hnd cols at_.
  destruct (gridColumns_bounds entities) as [H3 Hsq]. fold cols in H3, Hsq.
  assert (Hat : forall i e,
             nth_error entities i = Some e ->
             at_ e = Some (Point.mk ((i mod cols) * 400) ((i / cols) * 300))).
  { intros i e Hi. subst at_. unfold layout. fold cols.
    now rewrite (layoutFold_get cols entities ([], 0) i e Hnd Hi). }
  split; [exact Hat|]. split.
  - intros a b Ha Hb E.
    apply In_nth_error in Ha as (i & Hi). apply In_nth_error in Hb as (j & Hj).
    rewrite (Hat i a Hi), (Hat j b Hj) in E. injection E as Ex Ey.
    assert (i = j).
    { apply (cell_injective cols); [lia|]. simpl. now rewrite Ex, Ey. }
    subst j. congruence.
  - intros e p He Hp. apply In_nth_error in He as (i & Hi).
    rewrite (Hat i e Hi) in Hp. injection Hp as <-. simpl.
    assert (Hlen : i < List.length entities)
      by (apply nth_error_Some; congruence).
    assert (i mod cols < cols) by (apply Nat.mod_upper_bound; lia).
    assert (i / cols < cols) by (apply Nat.Div0.div_lt_upper_bound; lia).
    lia.
Qed.

Lemma layout_is_a_grid_without_overlap_witness :
  let entities :=
    SolutionMetadata.entities (Solution.metadata sampleSolution) in
  map EntityMetadata.logicalName entities = ["account"; "contact"] /\
  Map_get (layout entities) "contact" = Some (Point.mk 400 0).
Proof.
  cbv zeta. split; [reflexivity|].
  pose (entities :=
          SolutionMetadata.entities (Solution.metadata sampleSolution)).
  pose (contact := nth 1 entities (EntityMetadata.mk "" "" [] None)).
  assert (Hnd : NoDup (map EntityMetadata.logicalName entities)).
  { simpl. repeat constructor; simpl; intuition discriminate. }
  exact (proj1 (layout_is_a_grid_without_overlap entities Hnd)
           1 contact eq_refl).
Defined.

(** ** The assistant panel *)

Lemma trimEnd_empty s :
  trimEnd s = "" <-> forallb isWhiteSpace (list_ascii_of_string s) = true.
Proof.
  induction s as [|c r IH]; [simpl; tauto|].
  cbn [trimEnd list_ascii_of_string forallb].
  destruct (isWhiteSpace c); simpl.
  - destruct (String.eqb_spec (trimEnd r) "") as [E|E].
    + rewrite <- IH. tauto.
    + rewrite <- IH. split; [discriminate | tauto].
  - split; discriminate.
Qed.

Lemma trimStart_whitespace s :
  forallb isWhiteSpace (list_ascii_of_string (trimStart s))
  = forallb isWhiteSpace (list_ascii_of_string s).
Proof.
  induction s as [|c r IH]; [reflexivity|].
  cbn [trimStart]. destruct (isWhiteSpace c) eqn:E.
  - cbn [list_ascii_of_string forallb]. now rewrite E.
  - reflexivity.
Qed.

(** [trim] leaves nothing exactly of the strings made of white space. *)
Lemma trim_empty s :
  trim s = "" <-> forallb isWhiteSpace (list_ascii_of_string s) = true.
Proof. unfold trim. now rewrite trimEnd_empty, trimStart_whitespace. Qed.

Lemma ends_with_after_prefix (a s m : string) :
  (exists context, s = (context ++ m)%string) ->
  exists context, (a ++ s)%string = (context ++ m)%string.
Proof.
  intros (context & ->). exists (a ++ context)%string.
  now rewrite string_app_assoc.
Qed.

Lemma promptFor_ends_with_message appMode diff baseSolution selected message :
  exists context,
    Chat.promptFor appMode diff baseSolution selected message
    = (context ++ message)%string.
Proof.
  unfold Chat.promptFor.
  destruct appMode, diff as [d|], baseSolution as [b|];
    repeat apply ends_with_after_prefix; exists ""; reflexivity.
Qed.

(** X17.  What sending a chat message does to the panel.  Without a
    service, or for a message that is empty or white space only,
    nothing changes and the oracle is not called.  Otherwise the
    history grows by exactly the user's message followed by one reply,
    the loading flag ends lowered, and the oracle is called between one
    and four times with a prompt that ends with the message.  The reply
    is the text of the first answer (or 'No response' for an answer
    without text) when an attempt succeeds after quota failures only,
    and 'Communication error.' otherwise; the quota flag is raised
    exactly when all four attempts failed on quota, and is never
    lowered. *)
Theorem handleSendMessage_outcome :
  forall oracle gemini appMode diff baseSolution selected message st w,
    let prompt := Chat.promptFor appMode diff baseSolution selected message in
    let r :=
      Chat.handleSendMessage oracle gemini appMode diff baseSolution selected
        message st w in
    let attempt i := oracle prompt (Gemini.calls w + i) in
    let quotaBefore i :=
      forall j, j < i -> quotaFailureAt (oracle prompt) (Gemini.calls w + j) in
    (trim message = "" <->
     forallb isWhiteSpace (list_ascii_of_string message) = true) /\
    (gemini = false \/ trim message = "" -> r = (st, w)) /\
    (gemini = true -> trim message <> "" ->
     exists reply,
       Chat.chatHistory (fst r)
       = Chat.chatHistory st
         ++ [ChatMessage.mk user message; ChatMessage.mk model reply] /\
       Chat.isChatLoading (fst r) = false /\
       1 <= Gemini.calls (snd r) - Gemini.calls w <= 4 /\
       ((quotaBefore 4 /\ reply = "Communication error." /\
         Chat.isQuotaExhausted (fst r) = true)
        \/
        (exists i error,
            i <= 3 /\ quotaBefore i /\ attempt i = inl error /\
            Gemini.isQuotaExhaustion error = false /\
            reply = "Communication error." /\
            Chat.isQuotaExhausted (fst r) = Chat.isQuotaExhausted st)
        \/
        (exists i response,
            i <= 3 /\ quotaBefore i /\ attempt i = inr response /\
            reply = optOr (Chat.text response) "No response" /\
            Chat.isQuotaExhausted (fst r) = Chat.isQuotaExhausted st))) /\
    (exists context, prompt = (context ++ message)%string).
Proof.
  intros oracle gemini appMode diff baseSolution selected message st w
         prompt r attempt quotaBefore.
  split; [apply trim_empty|].
  split; [|split; [|apply promptFor_ends_with_message]].
  - intros [->|E]; subst r; unfold Chat.handleSendMessage; [reflexivity|].
    unfold truthy. rewrite E. simpl. now rewrite orb_true_r.
  - intros -> Hne. subst r. unfold Chat.handleSendMessage.
    apply String.eqb_neq in Hne. unfold truthy. rewrite Hne. simpl.
    fold prompt. unfold Chat.sendMessage.
    pose proof (executeWithRetry_cases Chat.Response (oracle prompt) 3 1000 w)
      as Hcases.
    destruct (Gemini.executeWithRetry Chat.Response (oracle prompt) 3 1000 w)
      as [outcome w'].
    simpl in Hcases.
    destruct Hcases as [(Hall & -> & Hc)|(i & Hi & Hbefore & Hc & Hdec)].
    + exists "Communication error.". simpl.
      split; [now rewrite <- app_assoc|]. split; [reflexivity|].
      split; [lia|]. left. split; [|auto].
      intros j Hj. apply Hall. lia.
    + destruct Hdec as [(error & Ho & Hq & ->)|(v & Ho & ->)].
      * exists "Communication error.". simpl.
        split; [now rewrite <- app_assoc|]. split; [reflexivity|].
        split; [lia|]. right. left. exists i, error. auto 7.
      * exists (optOr (Chat.text v) "No response"). simpl.
        split; [now rewrite <- app_assoc|]. split; [reflexivity|].
        split; [lia|]. right. right. exists i, v. auto 7.
Qed.

(** ** The component tree *)

Lemma sectionOrder_NoDup : NoDup sectionOrder.
Proof.
  unfold sectionOrder.
  repeat (constructor; [simpl; intuition discriminate|]). constructor.
Qed.

Lemma filter_filter_comm {A} (p q : A -> bool) l :
  filter p (filter q l) = filter q (filter p l).
Proof.
  induction l as [|x r IH]; simpl; [reflexivity|].
  destruct (p x) eqn:Ep, (q x) eqn:Eq; simpl; rewrite ?Ep, ?Eq, IH;
    reflexivity.
Qed.

Lemma filter_filter_and {A} (p q : A -> bool) l :
  filter p (filter q l) = filter (fun x => q x && p x) l.
Proof.
  induction l as [|x r IH]; simpl; [reflexivity|].
  destruct (q x); simpl; [destruct (p x)|]; now rewrite IH.
Qed.

Lemma flat_map_agree {A B} (f g : A -> list B) l :
  (forall a, In a l -> f a = g a) -> flat_map f l = flat_map g l.
Proof.
  induction l as [|a r IH]; simpl; intros H; [reflexivity|].
  rewrite (H a) by now left. f_equal. apply IH. intros b Hb. apply H.
  now right.
Qed.

Lemma flat_map_perm {A B} (f g : A -> list B) l :
  (forall a, In a l -> Permutation (f a) (g a)) ->
  Permutation (flat_map f l) (flat_map g l).
Proof.
  induction l as [|a r IH]; simpl; intros H; [constructor|].
  apply Permutation_app; [apply H; now left|].
  apply IH. intros b Hb. apply H. now right.
Qed.

(** Splitting a list by a key and gluing the parts again, key by key,
    permutes it. *)
Lemma partition_by_key {A} (key : A -> string) (ks : list string)
  (l : list A) :
  NoDup ks -> (forall x, In x l -> In (key x) ks) ->
  Permutation (flat_map (fun k => filter (fun x => key x =? k) l) ks) l.
Proof.
  intros Hnd. induction l as [|x r IH]; intros Hks.
  - clear Hnd Hks. induction ks as [|k ks' IHk]; simpl; [constructor|].
    exact IHk.
  - destruct (in_split (key x) ks (Hks x (or_introl eq_refl)))
      as (k1 & k2 & E).
    assert (Hx : ~ In (key x) k1 /\ ~ In (key x) k2).
    { rewrite E in Hnd. apply NoDup_remove_2 in Hnd.
      rewrite in_app_iff in Hnd. tauto. }
    assert (Hskip : forall part,
               ~ In (key x) part ->
               flat_map (fun k => filter (fun y => key y =? k) (x :: r)) part
               = flat_map (fun k => filter (fun y => key y =? k) r) part).
    { intros part Hp. apply flat_map_agree. intros k Hk. simpl.
      destruct (String.eqb_spec (key x) k) as [Ek|]; [|reflexivity].
      subst k. tauto. }
    specialize (IH (fun y Hy => Hks y (or_intror Hy))).
    rewrite E in IH |- *. rewrite flat_map_app in IH |- *.
    cbn [flat_map] in IH |- *. rewrite !Hskip by tauto.
    cbn [filter]. rewrite String.eqb_refl. cbn [app].
    apply Permutation_sym, Permutation_cons_app, Permutation_sym, IH.
Qed.

Lemma includes_empty s : includes s "" = true.
Proof. destruct s; reflexivity. Qed.

Section ExplorerFacts.
Variable inheritedName : string -> string.
Variable localeCompare : string -> string -> Z.

Let key := typeKey inheritedName.
Let ofType (k : string) (l : list LogicalComponent.t) :=
  filter (fun c => key c =? k) l.
Let sort := sortByDisplayName localeCompare.

Lemma typeKey_declared c :
  isDeclaredType (type c) = true -> In (key c) sectionOrder.
Proof.
  subst key. unfold typeKey. destruct (type c); simpl; try tauto.
  discriminate.
Qed.

Lemma typeKey_inherited c k :
  type c = Inherited k -> key c = inheritedName k.
Proof. subst key. unfold typeKey. now intros ->. Qed.

Lemma groupSteps_get l groups k :
  Map_get (fold_left (groupStep inheritedName) l groups) k
  = match Map_get groups k, ofType k l with
    | Some comps, more => Some (comps ++ more)
    | None, [] => None
    | None, more => Some more
    end.
Proof.
  revert groups; induction l as [|c r IH]; intros groups.
  - simpl. destruct (Map_get groups k); [now rewrite app_nil_r | reflexivity].
  - cbn [fold_left]. rewrite IH. unfold groupStep. cbv zeta.
    fold key. subst ofType. cbn [filter].
    destruct (String.eqb_spec (key c) k) as [E|Hne].
    + rewrite E.
      destruct (Map_get groups k) as [comps|] eqn:Eg;
        rewrite Map_get_set, String.eqb_refl.
      * now rewrite <- app_assoc.
      * reflexivity.
    + destruct (Map_get groups (key c)) as [comps|];
        rewrite Map_get_set;
        (destruct (String.eqb_spec (key c) k); [tauto|]);
        reflexivity.
Qed.

Lemma groupSteps_keys_NoDup l groups :
  NoDup (Map_keys groups) ->
  NoDup (Map_keys (fold_left (groupStep inheritedName) l groups)).
Proof.
  revert groups; induction l as [|c r IH]; intros groups H; [exact H|].
  cbn [fold_left]. apply IH. unfold groupStep. cbv zeta.
  destruct (Map_get groups _); now apply Map_keys_set_NoDup.
Qed.

Lemma filterSteps_get lower (entries filtered : Map (list LogicalComponent.t))
  k :
  NoDup (Map_keys entries) ->
  Map_get
    (fold_left
       (fun filtered entry =>
          let '(type, comps) := entry in
          let matched := filter (matchesSearch lower) comps in
          if (0 <? List.length matched)%nat
          then Map_set filtered type matched
          else filtered)
       entries filtered) k
  = match Map_get entries k with
    | Some comps =>
        match filter (matchesSearch lower) comps with
        | [] => Map_get filtered k
        | matched => Some matched
        end
    | None => Map_get filtered k
    end.
Proof.
  revert filtered; induction entries as [|[k1 v1] r IH]; intros filtered Hnd;
    [reflexivity|].
  cbn [fold_left Map_get]. simpl in Hnd. inversion Hnd as [|? ? Hk1 Hr]; subst.
  rewrite (IH _ Hr).
  destruct (String.eqb_spec k1 k) as [->|Hne].
  - replace (Map_get r k) with (@None (list LogicalComponent.t))
      by (symmetry; now apply Map_get_None).
    destruct (filter (matchesSearch lower) v1) as [|m ms]; simpl;
      [reflexivity|].
    now rewrite Map_get_set, String.eqb_refl.
  - assert (Hsame :
              Map_get
                (if (0 <? List.length (filter (matchesSearch lower) v1))%nat
                 then Map_set filtered k1 (filter (matchesSearch lower) v1)
                 else filtered) k
              = Map_get filtered k).
    { destruct (0 <? _)%nat; [|reflexivity].
      rewrite Map_get_set.
      destruct (String.eqb_spec k1 k); [tauto | reflexivity]. }
    cbv zeta. rewrite Hsame. reflexivity.
Qed.

(** The group the tree finds under a key. *)
Lemma filteredGroups_get components searchTerm k :
  Map_get (filteredGroups searchTerm (grouped inheritedName components)) k
  = match filter (matchesSearch (toLowerCase searchTerm))
            (ofType k components) with
    | [] => None
    | matched => Some matched
    end.
Proof.
  unfold filteredGroups. cbv zeta. rewrite filterSteps_get.
  - unfold grouped. rewrite groupSteps_get. simpl Map_get.
    destruct (ofType k components); reflexivity.
  - unfold grouped. apply groupSteps_keys_NoDup. constructor.
Qed.

(** *** The sort by display name *)

Lemma insertByDisplayName_perm c l :
  Permutation (insertByDisplayName localeCompare c l) (c :: l).
Proof.
  induction l as [|y r IH]; simpl; [reflexivity|].
  destruct (_ <=? 0)%Z; [reflexivity|].
  rewrite IH. apply perm_swap.
Qed.

Lemma sortByDisplayName_perm l : Permutation (sort l) l.
Proof.
  subst sort. induction l as [|x r IH]; simpl; [reflexivity|].
  rewrite insertByDisplayName_perm. now constructor.
Qed.

Lemma sortByDisplayName_length l : List.length (sort l) = List.length l.
Proof. apply Permutation_length, sortByDisplayName_perm. Qed.

Lemma sortByDisplayName_nil l : sort l = [] -> l = [].
Proof.
  intros H. pose proof (sortByDisplayName_length l) as E. rewrite H in E.
  destruct l; [reflexivity | discriminate].
Qed.

Hypothesis total :
  forall a b, (localeCompare a b <= 0)%Z \/ (localeCompare b a <= 0)%Z.
Hypothesis transitive :
  forall a b c, (localeCompare a b <= 0)%Z -> (localeCompare b c <= 0)%Z ->
                (localeCompare a c <= 0)%Z.

Lemma insertByDisplayName_sorted c l :
  StronglySorted (displayNameLe localeCompare) l ->
  StronglySorted (displayNameLe localeCompare)
    (insertByDisplayName localeCompare c l).
Proof.
  induction 1 as [|y r Hr IH Hy]; simpl.
  - constructor; constructor.
  - destruct (Z.leb_spec (localeCompare (displayName c) (displayName y)) 0)
      as [Hle|Hgt].
    + constructor; [now constructor|].
      constructor; [exact Hle|].
      rewrite Forall_forall in *. intros z Hz.
      unfold displayNameLe in *. eauto.
    + constructor; [exact IH|].
      rewrite Forall_forall in *. intros z Hz.
      apply (Permutation_in _ (insertByDisplayName_perm c r)) in Hz.
      destruct Hz as [<-|Hz]; [|auto].
      unfold displayNameLe.
      destruct (total (displayName c) (displayName y)); [lia | assumption].
Qed.

Lemma sortByDisplayName_sorted l :
  StronglySorted (displayNameLe localeCompare) (sort l).
Proof.
  subst sort. induction l as [|x r IH]; simpl; [constructor|].
  now apply insertByDisplayName_sorted.
Qed.

(** Sorting a sorted array leaves it as it is. *)
Lemma sortByDisplayName_fixed l :
  StronglySorted (displayNameLe localeCompare) l -> sort l = l.
Proof.
  subst sort. induction 1 as [|x r Hr IH Hx]; simpl; [reflexivity|].
  rewrite IH. destruct r as [|y r']; simpl; [reflexivity|].
  inversion Hx as [|? ? Hxy _]; subst. unfold displayNameLe in Hxy.
  apply Z.leb_le in Hxy. now rewrite Hxy.
Qed.

Lemma sortByDisplayName_idempotent l : sort (sort l) = sort l.
Proof. apply sortByDisplayName_fixed, sortByDisplayName_sorted. Qed.

(** *** One rendering of the tree *)

Variable expandedSections : list string.
Variable searchTerm : string.

Let expanded (type : string) : bool :=
  Set_has expandedSections type || (0 <? String.length searchTerm)%nat.

(** The section rendered for a type, from the group found under it. *)
Let sectionOf (group : option (list LogicalComponent.t)) (type : string)
  : list TreeSection :=
  match group with
  | None => []
  | Some comps =>
      [mkTreeSection type (List.length comps) (expanded type)
         (if expanded type then sort comps else [])]
  end.

Lemma renderSections_spec types memo rendered :
  NoDup types ->
  let r :=
    fold_left (renderSection localeCompare expandedSections searchTerm) types
      (memo, rendered) in
  snd r = rendered ++ flat_map (fun type => sectionOf (Map_get memo type) type)
                        types /\
  forall k,
    Map_get (fst r) k
    = if existsb (String.eqb k) types && expanded k
      then option_map sort (Map_get memo k)
      else Map_get memo k.
Proof.
  revert memo rendered; induction types as [|t ts IH];
    intros memo rendered Hnd; cbv zeta.
  - simpl. rewrite app_nil_r. split; [reflexivity|]. reflexivity.
  - inversion Hnd as [|? ? Ht Hts]; subst. cbn [fold_left flat_map].
    assert (Hlater : forall v k,
               existsb (String.eqb k) ts = true ->
               Map_get (Map_set memo t v) k = Map_get memo k).
    { intros v k Hk. rewrite Map_get_set.
      destruct (String.eqb_spec t k) as [->|]; [|reflexivity].
      exfalso. apply Ht. apply existsb_exists in Hk as (x & Hx & E).
      apply String.eqb_eq in E. now subst. }
    assert (Hnot : existsb (String.eqb t) ts = false).
    { apply not_true_is_false. intros Hk. apply Ht.
      apply existsb_exists in Hk as (x & Hx & E).
      apply String.eqb_eq in E. now subst. }
    destruct (Map_get memo t) as [comps|] eqn:Et.
    + destruct (expanded t) eqn:Ex.
      * assert (Estep :
                  renderSection localeCompare expandedSections searchTerm
                    (memo, rendered) t
                  = (Map_set memo t (sort comps),
                     rendered ++ [mkTreeSection t (List.length comps) true
                                    (sort comps)])).
        { unfold renderSection. rewrite Et. fold (expanded t). now rewrite Ex. }
        rewrite Estep.
        destruct (IH (Map_set memo t (sort comps))
                    (rendered ++ [mkTreeSection t (List.length comps) true
                                    (sort comps)]) Hts) as [Hs Hm].
        split.
        -- rewrite Hs, <- app_assoc. f_equal. simpl. rewrite Ex. f_equal.
           apply flat_map_agree. intros k Hk.
           rewrite Hlater; [reflexivity|].
           apply existsb_exists. exists k. split; [exact Hk|].
           apply String.eqb_refl.
        -- intros k. rewrite Hm. cbn [existsb].
           destruct (String.eqb_spec k t) as [->|Hne].
           ++ rewrite Ex, Hnot. simpl.
              now rewrite Map_get_set, String.eqb_refl, Et.
           ++ simpl. rewrite Map_get_set.
              destruct (String.eqb_spec t k); [congruence | reflexivity].
      * assert (Estep :
                  renderSection localeCompare expandedSections searchTerm
                    (memo, rendered) t
                  = (memo,
                     rendered ++ [mkTreeSection t (List.length comps) false
                                    []])).
        { unfold renderSection. rewrite Et. fold (expanded t). now rewrite Ex. }
        rewrite Estep.
        destruct (IH memo
                    (rendered ++ [mkTreeSection t (List.length comps) false []])
                    Hts) as [Hs Hm].
        split.
        -- rewrite Hs, <- app_assoc. simpl. now rewrite Ex.
        -- intros k. rewrite Hm. cbn [existsb].
           destruct (String.eqb_spec k t) as [->|Hne]; [|reflexivity].
           now rewrite Ex, Hnot.
    + assert (Estep :
                renderSection localeCompare expandedSections searchTerm
                  (memo, rendered) t = (memo, rendered)).
      { unfold renderSection. now rewrite Et. }
      rewrite Estep.
      destruct (IH memo rendered Hts) as [Hs Hm]. split.
      * rewrite Hs. reflexivity.
      * intros k. rewrite Hm. cbn [existsb].
        destruct (String.eqb_spec k t) as [->|Hne]; [|reflexivity].
        simpl. rewrite Et, Hnot. now destruct (expanded t).
Qed.

(** Rendering from the memo the first rendering left behind gives the
    same sections. *)
Lemma renderTree_again memo :
  snd (renderTree localeCompare expandedSections searchTerm
         (fst (renderTree localeCompare expandedSections searchTerm memo)))
  = snd (renderTree localeCompare expandedSections searchTerm memo).
Proof.
  unfold renderTree.
  destruct (renderSections_spec sectionOrder memo [] sectionOrder_NoDup)
    as [Hs Hm].
  destruct (renderSections_spec sectionOrder
              (fst (fold_left
                      (renderSection localeCompare expandedSections searchTerm)
                      sectionOrder (memo, []))) [] sectionOrder_NoDup)
    as [Hs' _].
  rewrite Hs', Hs. cbn [app]. apply flat_map_agree. intros k Hk.
  rewrite Hm.
  replace (existsb (String.eqb k) sectionOrder) with true.
  - simpl. subst sectionOf. cbv beta.
    destruct (expanded k) eqn:Ex; [|reflexivity].
    destruct (Map_get memo k) as [comps|]; simpl; [|reflexivity].
    now rewrite sortByDisplayName_length, sortByDisplayName_idempotent.
  - symmetry. apply existsb_exists. exists k. split; [exact Hk|].
    apply String.eqb_refl.
Qed.
End ExplorerFacts.


Lemma matching_partition inheritedName lower components :
  (forall k, ~ In (inheritedName k) sectionOrder) ->
  Permutation
    (flat_map
       (fun k => filter (matchesSearch lower)
                   (filter (fun c => typeKey inheritedName c =? k) components))
       sectionOrder)
    (filter (fun c => matchesSearch lower c && isDeclaredType (type c))
       components).
Proof.
  intros Hinh.
  rewrite <- (filter_filter_and (fun c => isDeclaredType (type c))
                (matchesSearch lower) components).
  apply Permutation_trans
    with (flat_map
            (fun k => filter (fun c => typeKey inheritedName c =? k)
                        (filter (fun c => isDeclaredType (type c))
                           (filter (matchesSearch lower) components)))
            sectionOrder);
    [|apply (partition_by_key (typeKey inheritedName) sectionOrder _
               sectionOrder_NoDup)].
  - erewrite flat_map_agree; [reflexivity|]. intros k Hk. cbv beta.
    rewrite filter_filter_comm.
    generalize (filter (matchesSearch lower) components). intros l.
    induction l as [|c r IH]; [reflexivity|]. cbn [filter].
    destruct (isDeclaredType (type c)) eqn:Ed; cbn [filter].
    + destruct (typeKey inheritedName c =? k); now rewrite IH.
    + destruct (String.eqb_spec (typeKey inheritedName c) k) as [E|];
        [|exact IH].
      exfalso. destruct (type c) as [| | | | | | | | | | | |j] eqn:Et;
        try discriminate Ed.
      apply (Hinh j). rewrite <- (typeKey_inherited inheritedName c j Et).
      now rewrite E.
  - intros c Hc. apply filter_In in Hc as [_ Hc].
    now apply typeKey_declared.
Qed.

(** X18.  What the component tree shows in one rendering, for a total
    and transitive collation.  There is one section per type of the
    fixed section order that has a component matching the search
    (display name or logical name containing the term, letter case
    ignored), in that order and never an empty one; its badge counts
    the matching components of its type.  A section is open exactly
    when its type is among the expanded ones or a search term is
    typed; a closed section lists nothing, and an open one lists the
    matching components of its type sorted by display name.  So with a
    search term every matching component of a declared type is listed
    exactly once, while a component whose type is an inherited value
    (a root component with a type code like [constructor]) is in no
    section.  The sort rewrites the memoised groups in place, and
    rendering again from them shows the same sections. *)
Theorem tree_lists_matching_components_by_section :
  forall inheritedName localeCompare,
    (forall a b, (localeCompare a b <= 0)%Z \/ (localeCompare b a <= 0)%Z) ->
    (forall a b c, (localeCompare a b <= 0)%Z -> (localeCompare b c <= 0)%Z ->
                   (localeCompare a c <= 0)%Z) ->
    (forall k, ~ In (inheritedName k) sectionOrder) ->
    forall expandedSections searchTerm components,
      let lower := toLowerCase searchTerm in
      let matching type :=
        filter (matchesSearch lower)
          (filter (fun c => typeKey inheritedName c =? type) components) in
      let expanded type :=
        Set_has expandedSections type
        || (0 <? String.length searchTerm)%nat in
      let memo := filteredGroups searchTerm (grouped inheritedName components) in
      let rendered :=
        renderTree localeCompare expandedSections searchTerm memo in
      let sections := snd rendered in
      sections
      = flat_map
          (fun type =>
             match matching type with
             | [] => []
             | comps =>
                 [mkTreeSection type (List.length comps) (expanded type)
                    (if expanded type
                     then sortByDisplayName localeCompare comps else [])]
             end) sectionOrder /\
      (forall s,
          In s sections ->
          In (sectionType s) sectionOrder /\
          0 < badge s /\
          badge s = List.length (matching (sectionType s)) /\
          isExpanded s = expanded (sectionType s) /\
          (isExpanded s = false -> listed s = []) /\
          (isExpanded s = true ->
           Permutation (listed s) (matching (sectionType s)) /\
           StronglySorted (displayNameLe localeCompare) (listed s))) /\
      NoDup (map sectionType sections) /\
      list_sum (map badge sections)
      = List.length
          (filter (fun c => matchesSearch lower c && isDeclaredType (type c))
             components) /\
      (searchTerm <> "" ->
       Permutation (flat_map listed sections)
         (filter (fun c => matchesSearch lower c && isDeclaredType (type c))
            components)) /\
      (forall c k s,
          type c = Inherited k -> In s sections -> ~ In c (listed s)) /\
      snd (renderTree localeCompare expandedSections searchTerm (fst rendered))
      = sections.
Proof.
  intros inh cmp total transitive Hinh expandedSections searchTerm components
         lower matching expanded memo rendered sections.
  set (sectionFor := fun type =>
         match matching type with
         | [] => []
         | comps =>
             [mkTreeSection type (List.length comps) (expanded type)
                (if expanded type then sortByDisplayName cmp comps else [])]
         end).
  assert (Es : sections = flat_map sectionFor sectionOrder).
  { subst sections rendered. unfold renderTree.
    destruct (renderSections_spec cmp expandedSections searchTerm sectionOrder
                memo [] sectionOrder_NoDup) as [Hs _].
    rewrite Hs. cbn [app]. apply flat_map_agree. intros k Hk.
    subst memo. rewrite (filteredGroups_get inh cmp).
    fold lower. subst sectionFor. cbv beta. fold (matching k).
    destruct (matching k); reflexivity. }
  assert (Hsec : forall s,
             In s sections ->
             exists k c cs,
               In k sectionOrder /\ matching k = c :: cs /\
               s = mkTreeSection k (List.length (c :: cs)) (expanded k)
                     (if expanded k
                      then sortByDisplayName cmp (c :: cs) else [])).
  { intros s Hs. rewrite Es in Hs.
    apply in_flat_map in Hs as (k & Hk & Hs). subst sectionFor. cbv beta in Hs.
    destruct (matching k) as [|c cs] eqn:Em; [destruct Hs|].
    destruct Hs as [<-|[]]. exists k, c, cs. auto. }
  assert (Hlisted : Permutation (flat_map matching sectionOrder)
                      (filter (fun c => matchesSearch lower c
                                        && isDeclaredType (type c))
                         components))
    by (apply matching_partition; exact Hinh).
  split; [exact Es|]. split; [|split; [|split; [|split; [|split]]]].
  - intros s Hs. destruct (Hsec s Hs) as (k & c & cs & Hk & Em & ->).
    cbn [sectionType badge isExpanded listed]. rewrite Em.
    split; [exact Hk|]. split; [simpl; lia|]. split; [reflexivity|].
    split; [reflexivity|]. split.
    + intros ->. reflexivity.
    + intros ->. split; [apply sortByDisplayName_perm|].
      now apply sortByDisplayName_sorted.
  - rewrite Es. pose proof sectionOrder_NoDup as Hnd. revert Hnd.
    generalize sectionOrder. intros ks Hnd.
    induction Hnd as [|k ks Hk Hnd IH]; [constructor|].
    cbn [flat_map]. subst sectionFor. cbv beta.
    destruct (matching k); [exact IH|].
    simpl. constructor; [|exact IH].
    intros Hin. apply Hk. apply in_map_iff in Hin as (s & E & Hin).
    apply in_flat_map in Hin as (k' & Hk' & Hin).
    destruct (matching k'); [destruct Hin|].
    destruct Hin as [<-|[]]. simpl in E. now subst.
  - rewrite <- (Permutation_length Hlisted), Es.
    generalize sectionOrder. intros ks.
    induction ks as [|k ks IH]; [reflexivity|].
    cbn [flat_map]. rewrite !map_app, list_sum_app, length_app, IH.
    f_equal. subst sectionFor. cbv beta.
    destruct (matching k); simpl; lia.
  - intros Hne. rewrite <- Hlisted, Es.
    assert (Ex : forall k, expanded k = true).
    { intros k. subst expanded. cbv beta.
      destruct searchTerm; [congruence|]. simpl. apply orb_true_r. }
    generalize sectionOrder. intros ks.
    induction ks as [|k ks IH]; [constructor|].
    cbn [flat_map]. rewrite flat_map_app.
    apply Permutation_app; [|exact IH].
    subst sectionFor. cbv beta. rewrite Ex.
    destruct (matching k) as [|c cs]; [constructor|].
    cbn [flat_map listed]. rewrite app_nil_r.
    apply (sortByDisplayName_perm cmp (c :: cs)).
  - intros c k s Et Hs Hin.
    destruct (Hsec s Hs) as (k' & c' & cs' & Hk' & Em & ->).
    cbn [listed] in Hin.
    destruct (expanded k'); [|destruct Hin].
    apply (Permutation_in _ (sortByDisplayName_perm cmp (c' :: cs'))) in Hin.
    rewrite <- Em in Hin. subst matching. cbv beta in Hin.
    apply filter_In in Hin as [Hin _]. apply filter_In in Hin as [_ Hin].
    apply String.eqb_eq in Hin.
    rewrite (typeKey_inherited inh c k Et) in Hin.
    apply (Hinh k). now rewrite Hin.
  - subst sections rendered. now apply renderTree_again.
Qed.

Lemma nativeFunctionText_not_a_section :
  forall k, ~ In (nativeFunctionText k) sectionOrder.
Proof.
  intros k H. unfold nativeFunctionText, sectionOrder in H. simpl in H.
  repeat (destruct H as [H|H]; [discriminate H|]). exact H.
Qed.

(** X18 on the components of the sample archive, with the tables
    expanded and no search term. *)
Lemma tree_lists_matching_components_by_section_witness :
  let rendered :=
    renderTree codeUnitCompare ["App"; "Flow"; "Table"] ""
      (filteredGroups ""
         (grouped nativeFunctionText
            (SolutionMetadata.components (Solution.metadata sampleSolution))))
  in
  map (fun s => (sectionType s, badge s, isExpanded s,
                 map displayName (listed s))) (snd rendered)
  = [("Flow", 1, true, ["On create"]);
     ("Table", 2, true, ["Account"; "contact"]);
     ("WebResource", 1, false, [])] /\
  snd (renderTree codeUnitCompare ["App"; "Flow"; "Table"] "" (fst rendered))
  = snd rendered.
Proof.
  cbv zeta. split; [reflexivity|].
  exact (proj2 (proj2 (proj2 (proj2 (proj2 (proj2
           (tree_lists_matching_components_by_section nativeFunctionText
              codeUnitCompare codeUnitCompare_total codeUnitCompare_trans
              nativeFunctionText_not_a_section ["App"; "Flow"; "Table"] ""
              (SolutionMetadata.components
                 (Solution.metadata sampleSolution))))))))).
Defined.

(* ===================================================================== *)
(** * Further properties of the passes *)
(* ===================================================================== *)

(** ** The root components of [solution.xml] *)

Lemma existsb_id_is_Set_has (components : list LogicalComponent.t) i :
  existsb (fun c => id c =? i) components = Set_has (map id components) i.
Proof.
  unfold Set_has. induction components as [|c r IH]; simpl; [reflexivity|].
  now rewrite IH, (String.eqb_sym (id c) i).
Qed.

Lemma rootComponentStep_ids files components node :
  map id (rootComponentStep files components node)
  = if truthy (optOr (Dom.rc_id node) "")
    then Set_add (map id components) (optOr (Dom.rc_id node) "")
    else map id components.
Proof.
  unfold rootComponentStep. cbv zeta. rewrite existsb_id_is_Set_has.
  unfold Set_add.
  destruct (truthy _); simpl; [|reflexivity].
  destruct (Set_has _ _); simpl; [reflexivity|].
  now rewrite map_app.
Qed.

Lemma rootComponentSteps_ids files nodes components :
  map id (fold_left (rootComponentStep files) nodes components)
  = fold_left Set_add
      (filter truthy (map (fun n => optOr (Dom.rc_id n) "") nodes))
      (map id components).
Proof.
  revert components; induction nodes as [|n r IH]; intros components;
    [reflexivity|].
  cbn [fold_left map filter]. rewrite IH, rootComponentStep_ids.
  destruct (truthy _); reflexivity.
Qed.

(** The record the pass pushes for a root component. *)
Lemma rootComponentStep_cases files components node :
  let i := optOr (Dom.rc_id node) "" in
  let schemaName := optOr (Dom.rc_schemaName node) "" in
  let seed :=
    mk i (orElse schemaName i) (orElse schemaName i)
      (componentTypeOf (optOr (Dom.rc_type node) "")) None
      (pathsWhere (fun p => includes p i ||
                            (truthy schemaName && includes p schemaName))
         files)
      None in
  (i <> "" /\ existsb (fun c => id c =? i) components = false /\
   rootComponentStep files components node = components ++ [seed]) \/
  ((i = "" \/ existsb (fun c => id c =? i) components = true) /\
   rootComponentStep files components node = components).
Proof.
  cbv zeta. unfold rootComponentStep. cbv zeta. unfold truthy.
  destruct (String.eqb_spec (optOr (Dom.rc_id node) "") "") as [E|E]; simpl.
  - right. auto.
  - destruct (existsb _ components) eqn:Ex; simpl; [right; auto|].
    left. auto.
Qed.

(** Each seeded component comes from the first node that carries its
    id. *)
Lemma rootComponentSteps_first files nodes components c :
  In c (fold_left (rootComponentStep files) nodes components) ->
  In c components \/
  (id c <> "" /\
   existsb (fun c' => id c' =? id c) components = false /\
   exists n,
     find (fun n => optOr (Dom.rc_id n) "" =? id c) nodes = Some n /\
     c = mk (id c)
           (orElse (optOr (Dom.rc_schemaName n) "") (id c))
           (orElse (optOr (Dom.rc_schemaName n) "") (id c))
           (componentTypeOf (optOr (Dom.rc_type n) "")) None
           (pathsWhere
              (fun p => includes p (id c) ||
                        (truthy (optOr (Dom.rc_schemaName n) "") &&
                         includes p (optOr (Dom.rc_schemaName n) "")))
              files)
           None).
Proof.
  revert components; induction nodes as [|n r IH]; intros components H;
    [now left|].
  cbn [fold_left] in H. apply IH in H.
  destruct (rootComponentStep_cases files components n)
    as [(Hi & Hex & Estep)|(Hskip & Estep)]; rewrite Estep in H.
  - destruct H as [H|(Hc & Hno & n' & Hfind & Ec)].
    + apply in_app_iff in H as [H|[<-|[]]]; [now left|]. right.
      cbn [id]. split; [exact Hi|]. split; [exact Hex|].
      exists n. cbn [find]. rewrite String.eqb_refl. split; reflexivity.
    + right. rewrite existsb_app in Hno. apply orb_false_iff in Hno as [Hno Hn].
      simpl in Hn. rewrite orb_false_r in Hn.
      split; [exact Hc|]. split; [exact Hno|].
      exists n'. cbn [find]. rewrite Hn. split; assumption.
  - destruct H as [H|(Hc & Hno & n' & Hfind & Ec)]; [now left|]. right.
    split; [exact Hc|]. split; [exact Hno|].
    exists n'. split; [|exact Ec]. cbn [find].
    destruct (String.eqb_spec (optOr (Dom.rc_id n) "") (id c)) as [E|];
      [|exact Hfind].
    exfalso. destruct Hskip as [E0|Hex]; [congruence|].
    rewrite E in Hex. congruence.
Qed.

Lemma componentTypeOf_cases typeId :
  (forall ty, Map_get COMPONENT_TYPE_MAP typeId = Some ty ->
              componentTypeOf typeId = ty) /\
  (Map_get COMPONENT_TYPE_MAP typeId = None ->
   In typeId objectPrototypeKeys -> componentTypeOf typeId = Inherited typeId)
  /\
  (Map_get COMPONENT_TYPE_MAP typeId = None ->
   ~ In typeId objectPrototypeKeys -> componentTypeOf typeId = Other).
Proof.
  assert (Hinc : arrIncludes objectPrototypeKeys typeId = true
                 <-> In typeId objectPrototypeKeys).
  { unfold arrIncludes. rewrite existsb_exists. split.
    - intros (x & Hx & E). apply String.eqb_eq in E. now subst.
    - intros Hk. exists typeId. split; [exact Hk | apply String.eqb_refl]. }
  unfold componentTypeOf.
  destruct (Map_get COMPONENT_TYPE_MAP typeId) as [ty|].
  - split; [intros ty' E; congruence|]. split; discriminate.
  - split; [discriminate|]. split.
    + intros _ Hk. apply Hinc in Hk. now rewrite Hk.
    + intros _ Hk.
      destruct (arrIncludes objectPrototypeKeys typeId); [|reflexivity].
      exfalso. apply Hk, Hinc. reflexivity.
Qed.

(** X19.  The pass over [solution.xml] seeds exactly one component per
    distinct non-empty root-component id, in the order in which the ids
    first appear: a node without an id is skipped and a repeated id is
    ignored, the component being built from the first node that carries
    the id.  Its display name and logical name are the schema name, or
    the id when there is none; it has no metadata; its type is what the
    lookup of the node's type code in the table gives: the mapped kind
    for a code of the table, 'Other' for an unknown code, and an
    inherited value outside the twelve kinds for a code that names a
    property every object has, such as [constructor].  The table maps
    1, 2, 3 and 9 to Table, 20 to SecurityRole, 26 to WebResource, 29 to
    Flow, 30 and 300 to App, 60 to ModelApp, 62 to Sitemap, 91 and 92 to
    Plugin, 371 to ConnectionRef and 380 to EnvVar.  Without a non-empty
    [solution.xml] nothing is seeded. *)
Theorem root_components_are_seeded_once_per_id :
  forall parseSolutionXml files,
    let seeded := snd (solutionPass parseSolutionXml files []) in
    NoDup (map id seeded) /\
    (forall c,
        In c seeded ->
        id c <> "" /\
        exists solutionXml n,
          contentAt files "solution.xml" = Some solutionXml /\
          find (fun n => optOr (Dom.rc_id n) "" =? id c)
            (Dom.sx_RootComponents (parseSolutionXml solutionXml)) = Some n /\
          let schemaName := optOr (Dom.rc_schemaName n) "" in
          let typeId := optOr (Dom.rc_type n) "" in
          displayName c = (if schemaName =? "" then id c else schemaName) /\
          logicalName c = displayName c /\
          metadata c = None /\
          LogicalComponent.files c
          = pathsWhere (fun p => includes p (id c) ||
                                 (truthy schemaName && includes p schemaName))
              files /\
          type c = componentTypeOf typeId /\
          (forall ty, Map_get COMPONENT_TYPE_MAP typeId = Some ty ->
                      type c = ty) /\
          (Map_get COMPONENT_TYPE_MAP typeId = None ->
           In typeId objectPrototypeKeys -> type c = Inherited typeId) /\
          (Map_get COMPONENT_TYPE_MAP typeId = None ->
           ~ In typeId objectPrototypeKeys -> type c = Other)) /\
    (forall solutionXml,
        contentAt files "solution.xml" = Some solutionXml ->
        map id seeded
        = Set_from
            (filter truthy
               (map (fun n => optOr (Dom.rc_id n) "")
                  (Dom.sx_RootComponents (parseSolutionXml solutionXml))))) /\
    (contentAt files "solution.xml" = None -> seeded = []) /\
    map componentTypeOf
      ["1"; "2"; "3"; "9"; "20"; "26"; "29"; "30"; "60"; "62"; "91"; "92";
       "300"; "371"; "380"]
    = [Table; Table; Table; Table; SecurityRole; WebResource; Flow; App;
       ModelApp; Sitemap; Plugin; Plugin; App; ConnectionRef; EnvVar] /\
    componentTypeOf "999" = Other /\
    componentTypeOf "" = Other /\
    componentTypeOf "constructor" = Inherited "constructor".
Proof.
  intros pS files seeded. subst seeded. unfold solutionPass.
  destruct (contentAt files "solution.xml") as [x|]; cbn [snd].
  - split; [|split; [|split; [|split; [discriminate|]]]].
    + rewrite rootComponentSteps_ids. apply fold_Set_add_NoDup. constructor.
    + intros c Hc. apply rootComponentSteps_first in Hc as [[]|Hc].
      destruct Hc as (Hid & _ & n & Hfind & Ec).
      split; [exact Hid|]. exists x, n. split; [reflexivity|].
      split; [exact Hfind|]. cbv zeta. rewrite Ec. cbn [displayName
        logicalName metadata LogicalComponent.files type id].
      rewrite orElse_spec.
      split; [reflexivity|]. split; [reflexivity|]. split; [reflexivity|].
      split; [reflexivity|]. split; [reflexivity|].
      apply componentTypeOf_cases.
    + intros y E. injection E as <-. apply rootComponentSteps_ids.
    + repeat split.
  - split; [constructor|]. split; [intros c []|]. split; [discriminate|].
    repeat split.
Qed.

(** ** The file shown for a component *)

(** X20.  For a component of an ingested model, the file the
    application shows is a file of that model whenever the component
    lists any file: the first file of the bundle at the component's
    first path.  The empty placeholder named after the component is
    shown exactly for a component that lists no file. *)
Theorem active_file_is_the_first_listed_file :
  forall decodeString parseSolutionXml parseCustomizationsXml readCanvasApp
         zip solution,
    parseSolutionZip decodeString parseSolutionXml parseCustomizationsXml
      readCanvasApp zip = Ok solution ->
    forall c,
      In c (SolutionMetadata.components (Solution.metadata solution)) ->
      match LogicalComponent.files c with
      | [] =>
          getActiveFile (Some c) (Some solution) = Some (placeholderFile c)
      | mainPath :: _ =>
          exists f,
            getActiveFile (Some c) (Some solution) = Some f /\
            In f (Solution.files solution) /\
            SolutionFile.path f = mainPath /\
            find (fun g => SolutionFile.path g =? mainPath)
              (Solution.files solution) = Some f
      end.
Proof.
  intros dS pS pC rC zip solution H c Hc.
  destruct (parseSolutionZip_components_good _ _ _ _ _ _ H c Hc) as [Hf _].
  unfold getActiveFile. cbv zeta.
  destruct (LogicalComponent.files c) as [|mainPath rest] eqn:Ef.
  - simpl nth_error.
    assert (E : forall l : list SolutionFile.t,
               find (fun f => optString_eqb (Some (SolutionFile.path f)) None)
                 l = None)
      by (induction l; simpl; auto).
    now rewrite E.
  - simpl nth_error. cbn [optString_eqb].
    specialize (Hf mainPath). rewrite Ef in Hf.
    specialize (Hf (or_introl eq_refl)). unfold hasPath in Hf.
    apply in_map_iff in Hf as (f0 & E0 & Hf0).
    destruct (find (fun f => SolutionFile.path f =? mainPath)
                (Solution.files solution)) as [f|] eqn:Efind.
    + exists f. apply find_some in Efind as [Hin Hp].
      apply String.eqb_eq in Hp. auto.
    + pose proof (find_none _ _ Efind f0 Hf0) as Hn. simpl in Hn.
      rewrite E0, String.eqb_refl in Hn. discriminate.
Qed.

Lemma active_file_is_the_first_listed_file_witness :
  let flow :=
    nth 1 (SolutionMetadata.components (Solution.metadata sampleSolution))
      (mk "" "" "" Other None [] None) in
  id flow = "{flow-1}" /\
  exists f,
    getActiveFile (Some flow) (Some sampleSolution) = Some f /\
    SolutionFile.path f = "Workflows/OnCreate-{flow-1}.json".
Proof.
  intros flow. split; [reflexivity|].
  destruct (active_file_is_the_first_listed_file string_of_list_byte
              sampleSolutionXml sampleCustomizationsXml sampleReadCanvasApp
              sampleZip sampleSolution eq_refl flow
              (or_intror (or_introl eq_refl))) as (f & E & _ & Hp & _).
  exists f. split; [exact E | exact Hp].
Defined.

(* ===================================================================== *)
(** * The diff of two bundles taken the other way round *)
(* ===================================================================== *)

Section LoopOutcome.
Variables baseFiles targetFiles : Map SolutionFile.t.
Variables baseComps targetComps : Map LogicalComponent.t.

Let body := diffPath baseFiles targetFiles baseComps targetComps.
Let entry := entryFor baseFiles targetFiles baseComps targetComps.

(** The loop returns exactly when no path throws. *)
Lemma forEach_returns paths st :
  (forall p, In p paths -> exists o, entry p = Ok o) ->
  exists st', forEachM body paths st = Ok st'.
Proof.
  revert st; induction paths as [|p r IH]; simpl; intros st H; [eauto|].
  subst body. rewrite diffPath_entryFor. fold entry.
  destruct (H p (or_introl eq_refl)) as (o & ->).
  destruct o as [fd|]; simpl; apply IH; intros q Hq; apply H; now right.
Qed.

Lemma forEach_no_throw paths st st' :
  forEachM body paths st = Ok st' ->
  forall p, In p paths -> exists o, entry p = Ok o.
Proof.
  revert st; induction paths as [|p r IH]; simpl; intros st H q Hq;
    [destruct Hq|].
  subst body. rewrite diffPath_entryFor in H. fold entry in H.
  destruct (entry p) as [o|e] eqn:Ep; [|discriminate].
  destruct Hq as [<-|Hq]; [eauto|].
  destruct o as [fd|]; simpl in H; exact (IH _ H q Hq).
Qed.

(** Every changed path of the list gets its entry. *)
Lemma forEach_complete paths st st' p fd :
  forEachM body paths st = Ok st' ->
  In p paths -> entry p = Ok (Some fd) -> In fd (Loop.fileDiffs st').
Proof.
  revert st; induction paths as [|q r IH]; simpl; intros st H Hp Ep;
    [destruct Hp|].
  subst body. rewrite diffPath_entryFor in H. fold entry in H.
  destruct Hp as [->|Hp].
  - rewrite Ep in H. simpl in H.
    apply forEach_entries in H as (fds & Hf & _). rewrite Hf.
    apply in_app_iff. left. simpl. rewrite countStatus_fileDiffs.
    apply in_app_iff. right. now left.
  - destruct (entry q) as [[fd'|]|e]; simpl in H; [| |discriminate];
      exact (IH _ H Hp Ep).
Qed.

(** The entries pushed are entries of paths of the list. *)
Lemma forEach_sound paths st st' fd :
  forEachM body paths st = Ok st' ->
  In fd (Loop.fileDiffs st') ->
  In fd (Loop.fileDiffs st) \/
  (In (FileDiff.path fd) paths /\ entry (FileDiff.path fd) = Ok (Some fd)).
Proof.
  revert st; induction paths as [|q r IH]; simpl; intros st H Hfd.
  - injection H as <-. now left.
  - subst body. rewrite diffPath_entryFor in H. fold entry in H.
    destruct (entry q) as [[fd'|]|e] eqn:Eq; simpl in H; [| |discriminate].
    + destruct (IH _ H Hfd) as [Hin|[Hin E]]; [|auto].
      simpl in Hin. rewrite countStatus_fileDiffs in Hin.
      apply in_app_iff in Hin as [Hin|[<-|[]]]; [now left|].
      right. destruct (entryFor_status _ _ _ _ _ _ Eq) as (Hp & _).
      rewrite Hp. auto.
    + destruct (IH _ H Hfd) as [Hin|[Hin E]]; [|auto].
      rewrite countStatus_fileDiffs in Hin. now left.
Qed.

(** The counters count the paths by status. *)
Lemma forEach_counters paths st st' :
  forEachM body paths st = Ok st' ->
  let count s :=
    List.length
      (filter (fun p =>
                 DiffStatus_eqb
                   (fileStatus (Map_get baseFiles p) (Map_get targetFiles p))
                   s) paths) in
  Loop.added st' = Loop.added st + count added /\
  Loop.removed st' = Loop.removed st + count removed /\
  Loop.modified st' = Loop.modified st + count modified.
Proof.
  revert st; induction paths as [|q r IH]; intros st H; cbv zeta.
  - simpl in H. injection H as <-. simpl. lia.
  - simpl in H. subst body. rewrite diffPath_entryFor in H. fold entry in H.
    set (s := fileStatus (Map_get baseFiles q) (Map_get targetFiles q)) in *.
    destruct (countStatus_counters s st) as (Ca & Cr & Cm).
    assert (Hrest : exists st1,
               forEachM (diffPath baseFiles targetFiles baseComps targetComps)
                 r st1 = Ok st' /\
               Loop.added st1 = Loop.added (countStatus s st) /\
               Loop.removed st1 = Loop.removed (countStatus s st) /\
               Loop.modified st1 = Loop.modified (countStatus s st)).
    { destruct (entry q) as [[fd|]|e]; simpl in H; [| |discriminate];
        eexists; (split; [exact H|]); auto. }
    destruct Hrest as (st1 & H1 & Ea & Er & Em).
    destruct (IH _ H1) as (Ha & Hr & Hm).
    cbn [filter]. fold s. rewrite Ha, Hr, Hm, Ea, Er, Em, Ca, Cr, Cm.
    destruct s; simpl; lia.
Qed.
End LoopOutcome.

Lemma fileStatus_swap base target :
  fileStatus target base = swapStatus (fileStatus base target).
Proof.
  destruct base as [b|], target as [t|]; simpl; try reflexivity.
  rewrite (String.eqb_sym (SolutionFile.content t)).
  now destruct (SolutionFile.content b =? SolutionFile.content t).
Qed.

Lemma logicalDiffOf_swap baseComp targetComp :
  (exists ld, logicalDiffOf baseComp targetComp = Ok ld) ->
  exists ld, logicalDiffOf targetComp baseComp = Ok ld.
Proof.
  unfold logicalDiffOf. cbv zeta.
  rewrite (andb_comm (typeIs targetComp SecurityRole)).
  destruct (typeIs baseComp SecurityRole && typeIs targetComp SecurityRole);
    [|eauto].
  destruct (privilegesOf (metadataOf baseComp)) as [o|e]; simpl;
    [|intros (ld & H); discriminate].
  destruct (privilegesOf (metadataOf targetComp)) as [n|e]; simpl; eauto.
Qed.

Lemma entryFor_swap baseFiles targetFiles baseComps targetComps p :
  match entryFor baseFiles targetFiles baseComps targetComps p with
  | Ok (Some fd) =>
      exists fd',
        entryFor targetFiles baseFiles targetComps baseComps p = Ok (Some fd')
        /\ FileDiff.status fd' = swapStatus (FileDiff.status fd)
  | Ok None =>
      entryFor targetFiles baseFiles targetComps baseComps p = Ok None
  | Throw _ => True
  end.
Proof.
  unfold entryFor. cbv zeta.
  rewrite (fileStatus_swap (Map_get baseFiles p) (Map_get targetFiles p)).
  destruct (Map_get baseFiles p) as [b|], (Map_get targetFiles p) as [t|];
    simpl; try reflexivity.
  - destruct (negb (SolutionFile.content b =? SolutionFile.content t));
      simpl; [|reflexivity].
    destruct (logicalDiffOf (find _ _) (find _ _)) as [ld|e] eqn:E; simpl;
      [|exact I].
    destruct (logicalDiffOf_swap _ _ (ex_intro _ ld E)) as (ld' & ->).
    simpl. eauto.
  - destruct (logicalDiffOf (find _ _) (find _ _)) as [ld|e] eqn:E; simpl;
      [|exact I].
    destruct (logicalDiffOf_swap _ _ (ex_intro _ ld E)) as (ld' & ->).
    simpl. eauto.
  - destruct (logicalDiffOf (find _ _) (find _ _)) as [ld|e] eqn:E; simpl;
      [|exact I].
    destruct (logicalDiffOf_swap _ _ (ex_intro _ ld E)) as (ld' & ->).
    simpl. eauto.
Qed.

Lemma allPaths_swap (a b : list string) :
  Permutation (Set_from (a ++ b)) (Set_from (b ++ a)).
Proof.
  apply NoDup_Permutation; try apply Set_from_NoDup.
  intros x. rewrite !Set_from_In, !in_app_iff. tauto.
Qed.

Lemma filter_length_perm {A} (f : A -> bool) l1 l2 :
  Permutation l1 l2 -> List.length (filter f l1) = List.length (filter f l2).
Proof.
  induction 1; simpl; repeat destruct (f _); simpl; congruence.
Qed.

(** X6.  Comparing the two bundles the other way round gives the
    mirrored diff: it is returned whenever the first one is, the two
    metadata change places, the counters [added] and [removed] change
    places while [modified] stays, and every entry has a counterpart
    for the same path whose status is the mirrored one ('added' for
    'removed' and back, 'modified' for 'modified'). *)
Theorem swapped_bundles_give_the_mirrored_diff :
  forall localeCompare base target d,
    solutionDiff localeCompare Mode_compare (Some base) (Some target)
    = Ok (Some d) ->
    exists d',
      solutionDiff localeCompare Mode_compare (Some target) (Some base)
      = Ok (Some d') /\
      SolutionDiff.oldMetadata d' = SolutionDiff.newMetadata d /\
      SolutionDiff.newMetadata d' = SolutionDiff.oldMetadata d /\
      Stats.added (SolutionDiff.stats d')
      = Stats.removed (SolutionDiff.stats d) /\
      Stats.removed (SolutionDiff.stats d')
      = Stats.added (SolutionDiff.stats d) /\
      Stats.modified (SolutionDiff.stats d')
      = Stats.modified (SolutionDiff.stats d) /\
      (forall fd,
          In fd (SolutionDiff.fileDiffs d) ->
          exists fd',
            In fd' (SolutionDiff.fileDiffs d') /\
            FileDiff.path fd' = FileDiff.path fd /\
            FileDiff.status fd' = swapStatus (FileDiff.status fd)).
Proof.
  intros cmp base target d. unfold solutionDiff. cbv zeta.
  set (bf := filesByPath (Solution.files base)).
  set (tf := filesByPath (Solution.files target)).
  set (bc := compsById (SolutionMetadata.components (Solution.metadata base))).
  set (tc :=
         compsById (SolutionMetadata.components (Solution.metadata target))).
  set (paths := Set_from (Map_keys bf ++ Map_keys tf)).
  set (paths' := Set_from (Map_keys tf ++ Map_keys bf)).
  assert (Hperm : Permutation paths' paths) by apply allPaths_swap.
  destruct (forEachM (diffPath bf tf bc tc) paths (Loop.mk [] 0 0 0))
    as [st|e] eqn:Hloop; simpl; [|discriminate].
  intros H. injection H as <-.
  destruct (forEach_returns tf bf tc bc paths' (Loop.mk [] 0 0 0))
    as (st' & Hloop').
  { intros p Hp. apply (Permutation_in _ Hperm) in Hp.
    destruct (forEach_no_throw _ _ _ _ _ _ _ Hloop p Hp) as (o & Eo).
    pose proof (entryFor_swap bf tf bc tc p) as Hs. rewrite Eo in Hs.
    destruct o as [fd|]; [destruct Hs as (fd' & -> & _)|rewrite Hs]; eauto. }
  rewrite Hloop'. simpl. eexists. split; [reflexivity|]. simpl.
  split; [reflexivity|]. split; [reflexivity|].
  destruct (forEach_counters _ _ _ _ _ _ _ Hloop) as (Ha & Hr & Hm).
  destruct (forEach_counters _ _ _ _ _ _ _ Hloop') as (Ha' & Hr' & Hm').
  simpl in Ha, Hr, Hm, Ha', Hr', Hm'.
  assert (Hcount : forall s,
             List.length
               (filter (fun p => DiffStatus_eqb
                                   (fileStatus (Map_get tf p) (Map_get bf p))
                                   (swapStatus s)) paths')
             = List.length
                 (filter (fun p => DiffStatus_eqb
                                     (fileStatus (Map_get bf p) (Map_get tf p))
                                     s) paths)).
  { intros s. rewrite (filter_length_perm _ _ _ Hperm). f_equal.
    apply filter_ext. intros p. rewrite fileStatus_swap.
    destruct (fileStatus (Map_get bf p) (Map_get tf p)), s; reflexivity. }
  split; [rewrite Ha', Hr; exact (Hcount removed)|].
  split; [rewrite Hr', Ha; exact (Hcount added)|].
  split; [rewrite Hm', Hm; exact (Hcount modified)|].
  intros fd Hfd.
  apply (Permutation_in _ (sortByPath_perm cmp (Loop.fileDiffs st))) in Hfd.
  destruct (forEach_sound _ _ _ _ _ _ _ _ Hloop Hfd) as [[]|[Hp E]].
  pose proof (entryFor_swap bf tf bc tc (FileDiff.path fd)) as Hs.
  rewrite E in Hs. destruct Hs as (fd' & E' & Hst).
  exists fd'. split.
  - apply (Permutation_in _ (Permutation_sym
                               (sortByPath_perm cmp (Loop.fileDiffs st')))).
    apply (forEach_complete _ _ _ _ _ _ _ _ _ Hloop'
             (Permutation_in _ (Permutation_sym Hperm) Hp) E').
  - split; [|exact Hst].
    now destruct (entryFor_status _ _ _ _ _ _ E') as (-> & _).
Qed.

Lemma swapped_bundles_give_the_mirrored_diff_witness :
  exists d',
    solutionDiff codeUnitCompare Mode_compare (Some clerkTarget)
      (Some clerkBase) = Ok (Some d') /\
    SolutionDiff.stats d' = Stats.mk 1 1 1 /\
    map (fun fd => (FileDiff.path fd, FileDiff.status fd))
      (SolutionDiff.fileDiffs d')
    = [("Roles/{role-1}.xml", modified); ("WebResources/old.js", added);
       ("Workflows/new.json", removed)].
Proof.
  destruct (swapped_bundles_give_the_mirrored_diff codeUnitCompare clerkBase
              clerkTarget clerkDiff eq_refl) as (d' & Hd' & _).
  exists d'. split; [exact Hd'|].
  assert (E : Some d'
              = match solutionDiff codeUnitCompare Mode_compare
                        (Some clerkTarget) (Some clerkBase) with
                | Ok o => o
                | Throw _ => None
                end) by now rewrite Hd'.
  vm_compute in E. injection E as ->. split; reflexivity.
Defined.
